(** * Webcam_Streamer: the capture pipeline and HTTP front of [webcam.py]

    A shallow embedding of [ThreadedWebcamStreamer] (device probe, capture
    relay, frame queue, read accessor, camera switch), of the device
    listing and of [StreamHandler.do_GET] with the server loop, followed by
    the properties of the specification that were checked against it.

    Conventions.
    - Python integers are [Z]; the doubles returned by [cap.get] are finite
      rationals ([Q]), on which comparison and [int()] are exact.
    - [queue.Queue(maxsize=BUFFER_SIZE)] is a list, oldest frame first; each
      queue method is one atomic step, as it is under the queue's own lock.
    - OpenCV, the V4L2 driver and [v4l2-ctl] are outside the repository: what
      they answer is a record of functions ([Driver]) the model is
      parameterised by.  So is the thread scheduler: which relay steps fall
      into the two seconds a [join(timeout=2)] waits, and with them whether
      the join returns with its thread ended or times out.
    - A relay thread is at the test of its loop or inside [cap.read()]; it
      moves between two calls of a handler and while a handler waits in
      [join].
    - A Python exception is a [Raise] result that keeps the state reached
      when it was raised. *)

From Stdlib Require Import ZArith QArith List String Ascii Bool Lia.
From Stdlib Require Import DecimalString.
From Stdlib Require Import Sorted Permutation.
From stdpp Require Import gmap.
Import ListNotations.
Local Open Scope Z_scope.

(** ** Configuration variables (lines 11-17) *)

Definition JPEG_QUALITY : Z := 85.
Definition DEFAULT_FPS : Z := 30.
Definition BUFFER_SIZE : nat := 2.

(** ** Frames

    A raw frame as [cap.read()] returns it.  [captured_from] records which
    device the capture handle that produced it was opened on; the program
    never inspects it, the properties about device switches do. *)

Record frame : Type := Frame {
  captured_from : Z;
  pixels : list Z
}.

(** ** [queue.Queue]: the non-blocking subset the program uses *)

Module PyQueue.

Definition t : Type := list frame.

(** [Queue.full()]: [0 < maxsize <= qsize]. *)
Definition full (q : t) : bool :=
  (0 <? BUFFER_SIZE)%nat && (BUFFER_SIZE <=? length q)%nat.

(** [Queue.empty()]. *)
Definition empty (q : t) : bool :=
  match q with [] => true | _ :: _ => false end.

(** [Queue.get_nowait()]: [None] stands for [queue.Empty]. *)
Definition get_nowait (q : t) : option (frame * t) :=
  match q with
  | [] => None
  | f :: q' => Some (f, q')
  end.

(** [Queue.put(item, block=False)]: [None] stands for [queue.Full]. *)
Definition put_nowait (f : frame) (q : t) : option t :=
  if (0 <? BUFFER_SIZE)%nat && (BUFFER_SIZE <=? length q)%nat
  then None
  else Some (q ++ [f]).

End PyQueue.

(** ** The publish step of [_capture_frames] (lines 95-104)

    Run without interference: evict the head when the queue is full, then
    put; a [queue.Full] from the put is swallowed and the frame is lost. *)

Definition publish (f : frame) (q : PyQueue.t) : PyQueue.t :=
  let q1 :=
    if PyQueue.full q then
      match PyQueue.get_nowait q with
      | Some (_, q') => q'
      | None => q
      end
    else q in
  match PyQueue.put_nowait f q1 with
  | Some q2 => q2
  | None => q1
  end.

(** The same step cut at its three queue calls, so that takes by readers
    ([get_nowait] from [get_frame] or from the drain loop of
    [switch_camera]) can be scheduled between them. *)

Module Publish.

Inductive pc : Type :=
| AtFull                    (* about to call frame_queue.full() *)
| AtEvict                   (* full() was true: about to call get_nowait() *)
| AtPut                     (* about to call put(frame, block=False) *)
| Done (stored : bool).     (* put returned (true) or raised Full (false) *)

Definition config : Type := pc * PyQueue.t.

Definition writer_step (f : frame) (c : config) : config :=
  match c with
  | (AtFull, q) => if PyQueue.full q then (AtEvict, q) else (AtPut, q)
  | (AtEvict, q) =>
      match PyQueue.get_nowait q with
      | Some (_, q') => (AtPut, q')
      | None => (AtPut, q)
      end
  | (AtPut, q) =>
      match PyQueue.put_nowait f q with
      | Some q' => (Done true, q')
      | None => (Done false, q)
      end
  | (Done b, q) => (Done b, q)
  end.

(** A reader's [get_nowait]: the head leaves the queue; on an empty queue
    the reader gets [queue.Empty] and the queue is unchanged. *)
Definition reader_take (q : PyQueue.t) : PyQueue.t :=
  match PyQueue.get_nowait q with
  | Some (_, q') => q'
  | None => q
  end.

Inductive actor : Type := Writer | Reader.

Definition sched_step (f : frame) (c : config) (a : actor) : config :=
  match a with
  | Writer => writer_step f c
  | Reader => (c.1, reader_take c.2)
  end.

(** An interleaving is the list of who moves next. *)
Definition run (f : frame) (sched : list actor) (c : config) : config :=
  fold_left (sched_step f) sched c.


Definition is_done (p : pc) : bool :=
  match p with Done _ => true | _ => false end.


End Publish.

(** ** The device side: [cv2.VideoCapture] over V4L2 *)

Inductive cap_prop : Type :=
| CAP_PROP_FPS
| CAP_PROP_FRAME_WIDTH
| CAP_PROP_FRAME_HEIGHT
| CAP_PROP_BUFFERSIZE
| CAP_PROP_FOURCC.

(** What an open handle answers to [cap.get]. *)
Record cap_state : Type := CapState {
  st_fps : Q;
  st_width : Q;
  st_height : Q
}.

(** [cv2.imencode] either raises [cv2.error] or returns [(retval, buf)]. *)
Inductive imencode_result : Type :=
| EncodeRaises
| EncodeReturns (retval : bool) (buf : list Z).

(** Everything that is decided outside the program's text: the hardware,
    the external tools and the thread scheduler. *)
Record Driver : Type := {
  (* cv2.VideoCapture(id, cv2.CAP_V4L2).isOpened() *)
  device_opens : Z -> bool;
  (* properties of a freshly opened handle *)
  on_open : Z -> cap_state;
  (* effect of cap.set(prop, value) on what cap.get reports afterwards *)
  on_set : Z -> cap_state -> cap_prop -> Q -> cap_state;
  (* effect of consuming one frame with cap.read() *)
  on_read : Z -> cap_state -> cap_state;
  (* get_camera_specs(device_num), lines 179-200 *)
  get_camera_specs : Z -> list (Z * Z);
  (* cv2.imencode('.jpg', frame, [quality 85, optimize 1]) *)
  imencode : list Z -> imencode_result;
  (* the steps relay threads get to take while the n-th join of the run
     (counted from 0) waits for thread tid, before its two seconds are
     over: which thread moves, and what a read it calls will deliver *)
  while_joining : nat -> nat -> list (nat * option (list Z))
}.

Record VideoCapture : Type := Cap {
  device : Z;
  isOpened : bool;
  props : cap_state
}.

(** [cv2.VideoWriter_fourcc('M','J','P','G')]. *)
Definition FOURCC_MJPG : Z := 1196444237.

(** Python's [int(x)] on a finite float: truncation toward zero. *)
Definition py_int (x : Q) : Z := Z.quot (Qnum x) (Z.pos (Qden x)).

(** [a > b] on finite floats. *)
Definition Qgtb (a b : Q) : bool :=
  Qnum b * Z.pos (Qden a) <? Qnum a * Z.pos (Qden b).

(** ** Observable steps

    Every operation on the queue, the last-known frame, the device handle
    and the relay thread leaves one event, in program order. *)

Inductive event : Type :=
| RelaySignal (run : bool)          (* self.running = run *)
| RelayJoin (tid : nat) (timed_out : bool)
                                    (* capture_thread.join(timeout=2) returned,
                                       with the thread still alive or not *)
| RelayExit (tid : nat)             (* _capture_frames saw running false *)
| RelayStart (tid : nat)            (* Thread(target=_capture_frames).start() *)
| SlotGet (f : frame)               (* frame_queue.get_nowait() gave f *)
| SlotPut (f : frame)               (* frame_queue.put(f, block=False) *)
| LastKnown (f : option frame)      (* self.current_frame = f *)
| CapRelease (dev : Z)              (* cap.release() *)
| CapOpen (dev : Z) (ok : bool)     (* cv2.VideoCapture(dev, CAP_V4L2) *)
| CapSet (dev : Z) (p : cap_prop) (v : Q)
| CapRead (dev : Z).

(** ** [ThreadedWebcamStreamer]: the object's fields (lines 20-32) *)

Record streamer : Type := Streamer {
  camera_id : Z;
  cap : option VideoCapture;
  width : Z;
  height : Z;
  fps : Z;
  max_fps : Z;
  available_resolutions : list (Z * Z);
  frame_queue : PyQueue.t;
  current_frame : option frame;
  capture_thread : option nat;
  running : bool
}.

(** The object together with the relay threads that are alive, those of
    them that are inside [cap.read()] (line 92) with what the call is going
    to return, the number of threads created so far and the events so far
    (oldest first).  A live relay that is not inside a read is at the test
    of its loop (line 90). *)
Record world : Type := World {
  self : streamer;
  alive : list nat;
  reading : list (nat * option frame);
  spawned : nat;
  log : list event
}.

Definition set_camera_id (v : Z) (s : streamer) : streamer :=
  Streamer v (cap s) (width s) (height s) (fps s) (max_fps s)
    (available_resolutions s) (frame_queue s) (current_frame s)
    (capture_thread s) (running s).
Definition set_cap (v : option VideoCapture) (s : streamer) : streamer :=
  Streamer (camera_id s) v (width s) (height s) (fps s) (max_fps s)
    (available_resolutions s) (frame_queue s) (current_frame s)
    (capture_thread s) (running s).
Definition set_size (w h : Z) (s : streamer) : streamer :=
  Streamer (camera_id s) (cap s) w h (fps s) (max_fps s)
    (available_resolutions s) (frame_queue s) (current_frame s)
    (capture_thread s) (running s).
Definition set_rates (f m : Z) (s : streamer) : streamer :=
  Streamer (camera_id s) (cap s) (width s) (height s) f m
    (available_resolutions s) (frame_queue s) (current_frame s)
    (capture_thread s) (running s).
Definition set_available_resolutions (v : list (Z * Z)) (s : streamer) : streamer :=
  Streamer (camera_id s) (cap s) (width s) (height s) (fps s) (max_fps s)
    v (frame_queue s) (current_frame s) (capture_thread s) (running s).
Definition set_frame_queue (v : PyQueue.t) (s : streamer) : streamer :=
  Streamer (camera_id s) (cap s) (width s) (height s) (fps s) (max_fps s)
    (available_resolutions s) v (current_frame s) (capture_thread s)
    (running s).
Definition set_current_frame (v : option frame) (s : streamer) : streamer :=
  Streamer (camera_id s) (cap s) (width s) (height s) (fps s) (max_fps s)
    (available_resolutions s) (frame_queue s) v (capture_thread s)
    (running s).
Definition set_capture_thread (v : option nat) (s : streamer) : streamer :=
  Streamer (camera_id s) (cap s) (width s) (height s) (fps s) (max_fps s)
    (available_resolutions s) (frame_queue s) (current_frame s) v
    (running s).
Definition set_running (v : bool) (s : streamer) : streamer :=
  Streamer (camera_id s) (cap s) (width s) (height s) (fps s) (max_fps s)
    (available_resolutions s) (frame_queue s) (current_frame s)
    (capture_thread s) v.

(** ** Methods as state transformers that may raise *)

Inductive exn : Type :=
| CameraError (id : Z)     (* Exception("Could not open camera {id}") *)
| AttributeError           (* a method called on None *)
| Cv2Error                 (* cv2.error out of imencode *)
| KeyError                 (* params['id'] *)
| IndexError               (* params['id'][0] *)
| ValueError.              (* int() on a non-integer literal *)

Inductive result (A : Type) : Type :=
| Ok (a : A)
| Raise (e : exn).
Arguments Ok {A} a.
Arguments Raise {A} e.

Definition M (A : Type) : Type := world -> result A * world.

Definition ret {A} (a : A) : M A := fun w => (Ok a, w).

Definition bind {A B} (m : M A) (k : A -> M B) : M B :=
  fun w =>
    match m w with
    | (Ok a, w') => k a w'
    | (Raise e, w') => (Raise e, w')
    end.

Definition raise {A} (e : exn) : M A := fun w => (Raise e, w).

Declare Scope py_scope.
Delimit Scope py_scope with py.
Notation "x <- m ;; k" := (bind m (fun x => k))
  (at level 100, m at next level, right associativity) : py_scope.
Notation "m ;;; k" := (bind m (fun _ => k))
  (at level 100, right associativity) : py_scope.
Local Open Scope py_scope.

Definition this : M streamer := fun w => (Ok (self w), w).

Definition assign (f : streamer -> streamer) : M unit :=
  fun w => (Ok tt, World (f (self w)) (alive w) (reading w) (spawned w) (log w)).

Definition emit (e : event) : M unit :=
  fun w =>
    (Ok tt, World (self w) (alive w) (reading w) (spawned w) (log w ++ [e])).

(** The joins made so far. *)
Definition joins (evs : list event) : nat :=
  length (List.filter
            (fun e => match e with RelayJoin _ _ => true | _ => false end) evs).

Definition joins_so_far : M nat := fun w => (Ok (joins (log w)), w).

Definition is_alive (tid : nat) : M bool :=
  fun w => (Ok (bool_decide (tid ∈ alive w)), w).

(** The thread leaves the set of live relays. *)
Definition thread_exits (tid : nat) : M unit :=
  fun w =>
    (Ok tt,
     World (self w) (List.filter (fun t => negb (Nat.eqb t tid)) (alive w))
       (reading w) (spawned w) (log w)).

(** A new thread object is created and started; its id is returned. *)
Definition thread_start : M nat :=
  fun w =>
    let tid := spawned w in
    (Ok tid,
     World (self w) (alive w ++ [tid]) (reading w) (S (spawned w))
       (log w ++ [RelayStart tid])).

(** What the [cap.read()] that relay [tid] is inside is going to return, if
    the relay is inside one. *)
Definition lookup_read (tid : nat) (l : list (nat * option frame))
  : option (option frame) :=
  option_map snd (List.find (fun p => Nat.eqb (fst p) tid) l).

Definition without_read (tid : nat) (l : list (nat * option frame))
  : list (nat * option frame) :=
  List.filter (fun p => negb (Nat.eqb (fst p) tid)) l.

Definition pending_read (tid : nat) : M (option (option frame)) :=
  fun w => (Ok (lookup_read tid (reading w)), w).

Definition enter_read (tid : nat) (got : option frame) : M unit :=
  fun w =>
    (Ok tt,
     World (self w) (alive w) (reading w ++ [(tid, got)]) (spawned w) (log w)).

Definition leave_read (tid : nat) : M unit :=
  fun w =>
    (Ok tt,
     World (self w) (alive w) (without_read tid (reading w)) (spawned w)
       (log w)).

(** A for loop threading an accumulator. *)
Fixpoint for_each {A B} (l : list A) (acc : B) (body : B -> A -> M B) : M B :=
  match l with
  | [] => ret acc
  | x :: l' => acc' <- body acc x ;; for_each l' acc' body
  end.

Section Methods.

Context (drv : Driver).

(** *** Calls on [self.cap] *)

Definition cap_set (p : cap_prop) (v : Q) : M unit :=
  s <- this ;;
  match cap s with
  | None => raise AttributeError
  | Some c =>
      if isOpened c then
        assign (set_cap (Some (Cap (device c) true
                                 (on_set drv (device c) (props c) p v)))) ;;;
        emit (CapSet (device c) p v)
      else ret tt
  end.

Definition cap_get (p : cap_state -> Q) : M Q :=
  s <- this ;;
  match cap s with
  | None => raise AttributeError
  | Some c => ret (if isOpened c then p (props c) else 0%Q)
  end.

(** [cap.read()] on an open handle; [shot] is what the camera delivers:
    [Some pixels] for [(True, frame)], [None] for [(False, None)]. *)
Definition cap_read (shot : option (list Z)) : M (option frame) :=
  s <- this ;;
  match cap s with
  | None => raise AttributeError
  | Some c =>
      if isOpened c then
        assign (set_cap (Some (Cap (device c) true
                                 (on_read drv (device c) (props c))))) ;;;
        emit (CapRead (device c)) ;;;
        ret (option_map (Frame (device c)) shot)
      else ret None
  end.

Definition cap_release : M unit :=
  s <- this ;;
  match cap s with
  | None => raise AttributeError
  | Some c =>
      assign (set_cap (Some (Cap (device c) false (props c)))) ;;;
      emit (CapRelease (device c))
  end.

(** *** [detect_camera_capabilities] (lines 37-51) *)

Definition fps_to_test : list Z := [60; 45; 36; 30; 25; 20; 15].

Definition probe_one (best : Q) (test_fps : Z) : M Q :=
  cap_set CAP_PROP_FPS (inject_Z test_fps) ;;;
  actual_fps <- cap_get st_fps ;;
  ret (if Qgtb actual_fps best then actual_fps else best).

Definition detect_camera_capabilities : M unit :=
  s <- this ;;
  match cap s with
  | None => ret tt
  | Some c =>
      if negb (isOpened c) then ret tt
      else
        best <- for_each fps_to_test (inject_Z 15) probe_one ;;
        assign (fun s => set_rates (fps s) (py_int best) s) ;;;
        assign (fun s => set_rates (max_fps s) (max_fps s) s)
  end.

(** *** [set_resolution] (lines 110-121) *)

Definition set_resolution (w h : Z) : M unit :=
  s <- this ;;
  match cap s with
  | None => ret tt
  | Some _ =>
      cap_set CAP_PROP_FOURCC (inject_Z FOURCC_MJPG) ;;;
      cap_set CAP_PROP_FRAME_WIDTH (inject_Z w) ;;;
      cap_set CAP_PROP_FRAME_HEIGHT (inject_Z h) ;;;
      cap_set CAP_PROP_FPS (inject_Z (fps s)) ;;;
      cap_set CAP_PROP_BUFFERSIZE 1%Q ;;;
      _ <- cap_read None ;;
      aw <- cap_get st_width ;;
      ah <- cap_get st_height ;;
      assign (set_size (py_int aw) (py_int ah))
  end.

(** *** [open_camera] (lines 53-74) *)

Definition open_camera : M unit :=
  s <- this ;;
  match cap s with
  | Some _ => cap_release
  | None => ret tt
  end ;;;
  let id := camera_id s in
  let ok := device_opens drv id in
  assign (set_cap (Some (Cap id ok (on_open drv id)))) ;;;
  emit (CapOpen id ok) ;;;
  if ok then
    cap_set CAP_PROP_BUFFERSIZE 1%Q ;;;
    cap_set CAP_PROP_FOURCC (inject_Z FOURCC_MJPG) ;;;
    detect_camera_capabilities ;;;
    assign (set_available_resolutions (get_camera_specs drv id)) ;;;
    match get_camera_specs drv id with
    | (max_w, max_h) :: _ => set_resolution max_w max_h
    | [] => ret tt
    end ;;;
    s' <- this ;;
    cap_set CAP_PROP_FPS (inject_Z (fps s'))
  else raise (CameraError id).

(** *** The publish step of [_capture_frames], with its events *)

Definition publish_frame (f : frame) : M unit :=
  s <- this ;;
  (if PyQueue.full (frame_queue s) then
     match PyQueue.get_nowait (frame_queue s) with
     | Some (g, q') => assign (set_frame_queue q') ;;; emit (SlotGet g)
     | None => ret tt
     end
   else ret tt) ;;;
  s' <- this ;;
  match PyQueue.put_nowait f (frame_queue s') with
  | Some q' => assign (set_frame_queue q') ;;; emit (SlotPut f)
  | None => ret tt
  end.

(** *** The loop of [_capture_frames] (lines 89-108), run by relay [tid]

    The loop is cut where it can block, inside [cap.read()].  A step takes
    the relay from the test of the loop to the call of [cap.read()] (or
    round the loop when the handle is not open, or out of it when
    [running] is false), or from the return of [cap.read()] through the
    publish step and the sleep back to the test.  The handle the read is
    called on is the one [self.cap] names at the call; [shot] is what the
    camera delivers to that call: [Some pixels] for [(True, frame)], [None]
    for [(False, None)]. *)

Definition capture_iteration (tid : nat) (shot : option (list Z)) : M unit :=
  inside <- pending_read tid ;;
  match inside with
  | Some got =>
      leave_read tid ;;;
      match got with
      | Some f => publish_frame f
      | None => ret tt
      end
  | None =>
      s <- this ;;
      if running s then
        match cap s with
        | Some c =>
            if isOpened c then
              got <- cap_read shot ;;
              enter_read tid got
            else ret tt
        | None => ret tt
        end
      else emit (RelayExit tid) ;;; thread_exits tid
  end.

(** Relay [tid] is scheduled for one step, if it is alive. *)
Definition relay_step (tid : nat) (shot : option (list Z)) : M unit :=
  live <- is_alive tid ;;
  if live then capture_iteration tid shot else ret tt.

Fixpoint relay_steps (l : list (nat * option (list Z))) : M unit :=
  match l with
  | [] => ret tt
  | (tid, shot) :: l' => relay_step tid shot ;;; relay_steps l'
  end.

(** *** [stop_capture_thread] (lines 84-87)

    [join(timeout=2)] returns when the thread has ended or when two
    seconds have passed, whichever comes first, and does not say which.
    While the caller waits the relays take the steps the scheduler gives
    them; the joined relay ends only by reaching the test of its loop and
    finding [running] false there. *)

Fixpoint wait_for (tid : nat) (l : list (nat * option (list Z))) : M unit :=
  match l with
  | [] => ret tt
  | (t, shot) :: l' =>
      live <- is_alive tid ;;
      if live then relay_step t shot ;;; wait_for tid l' else ret tt
  end.

Definition join (tid : nat) : M unit :=
  n <- joins_so_far ;;
  wait_for tid (while_joining drv n tid) ;;;
  live <- is_alive tid ;;
  emit (RelayJoin tid live).

Definition stop_capture_thread : M unit :=
  assign (set_running false) ;;;
  emit (RelaySignal false) ;;;
  s <- this ;;
  match capture_thread s with
  | Some tid => join tid
  | None => ret tt
  end.

(** *** [start_capture_thread] (lines 76-82) *)

Definition start_capture_thread : M unit :=
  s <- this ;;
  match capture_thread s with
  | Some tid =>
      live <- is_alive tid ;;
      if live then stop_capture_thread else ret tt
  | None => ret tt
  end ;;;
  assign (set_running true) ;;;
  emit (RelaySignal true) ;;;
  tid <- thread_start ;;
  assign (set_capture_thread (Some tid)).

(** *** [switch_camera] (lines 123-138) *)

(** The drain loop: while the queue is not empty, take its head. *)
Fixpoint drain (q : PyQueue.t) : M unit :=
  match q with
  | [] => ret tt
  | f :: q' =>
      assign (set_frame_queue q') ;;; emit (SlotGet f) ;;; drain q'
  end.

Definition switch_camera (id : Z) : M bool :=
  stop_capture_thread ;;;
  assign (set_camera_id id) ;;;
  s <- this ;;
  drain (frame_queue s) ;;;
  assign (set_current_frame None) ;;;
  emit (LastKnown None) ;;;
  open_camera ;;;
  start_capture_thread ;;;
  ret true.

(** *** [get_frame] (lines 140-153) *)

Definition get_frame : M (option (list Z)) :=
  s <- this ;;
  frame <-
    match PyQueue.get_nowait (frame_queue s) with
    | Some (f, q') =>
        assign (set_frame_queue q') ;;;
        emit (SlotGet f) ;;;
        assign (set_current_frame (Some f)) ;;;
        emit (LastKnown (Some f)) ;;;
        ret (Some f)
    | None => ret (current_frame s)
    end ;;
  match frame with
  | Some f =>
      match imencode drv (pixels f) with
      | EncodeReturns _ buffer => ret (Some buffer)
      | EncodeRaises => raise Cv2Error
      end
  | None => ret None
  end.

(** *** [__init__] (lines 20-35) *)

Definition new_streamer (id : Z) : streamer :=
  Streamer id None 640 480 DEFAULT_FPS DEFAULT_FPS [] [] None None false.

Definition init (id : Z) : result unit * world :=
  (open_camera ;;; start_capture_thread)
    (World (new_streamer id) [] [] 0%nat []).

(** *** What can happen to a constructed streamer

    A relay takes a step of its loop, a handler calls [get_frame], or a
    handler calls [switch_camera]; handlers run one at a time.  Relay
    steps are scheduled between two calls of a handler and while a handler
    waits in [join]; a relay step between two other statements of
    [switch_camera] is not modelled. *)

Inductive action : Type :=
| Relay (tid : nat) (shot : option (list Z))
| GetFrame
| SwitchCamera (id : Z).

Definition act (w : world) (a : action) : world :=
  match a with
  | Relay tid shot => (relay_step tid shot w).2
  | GetFrame => (get_frame w).2
  | SwitchCamera id => (switch_camera id w).2
  end.

Definition run_actions (acts : list action) (w : world) : world :=
  fold_left act acts w.

(** The worlds a program run can be in: the constructor returned, then
    any number of actions. *)
Definition reachable (w : world) : Prop :=
  exists id acts,
    (init id).1 = Ok tt /\ w = run_actions acts (init id).2.

(** What [get_frame] returns once it holds frame [f] (lines 147-152). *)
Definition encoded (f : frame) : result (option (list Z)) :=
  match imencode drv (pixels f) with
  | EncodeReturns _ buffer => Ok (Some buffer)
  | EncodeRaises => Raise Cv2Error
  end.

End Methods.

(** ** Text: the [str] methods and library calls of the [/api/camera] branch

    [self.path] is the request target decoded as ISO-8859-1, one character
    per byte, which is what [string] is.  The library functions below are
    exact on ASCII text whose percent escapes stay below [%80]; beyond it
    Python decodes UTF-8 and knows non-ASCII digits and spaces, which this
    model does not. *)

Module Text.

Local Open Scope string_scope.

(** [s.startswith(p)]. *)
Fixpoint startswith (p s : string) : bool :=
  match p, s with
  | EmptyString, _ => true
  | String a p', String b s' => Ascii.eqb a b && startswith p' s'
  | String _ _, EmptyString => false
  end.

(** [sub in s]. *)
Fixpoint contains (sub s : string) : bool :=
  startswith sub s ||
  match s with
  | EmptyString => false
  | String _ s' => contains sub s'
  end.

(** [s.split(sep, 1)]: the text before the first [sep], and the text
    after it when there is one. *)
Fixpoint split_once (sep : ascii) (s : string) : string * option string :=
  match s with
  | EmptyString => (EmptyString, None)
  | String c s' =>
      if Ascii.eqb c sep then (EmptyString, Some s')
      else let '(a, b) := split_once sep s' in (String c a, b)
  end.

(** [s.split(sep)]: always at least one piece. *)
Fixpoint split (sep : ascii) (s : string) : list string :=
  match s with
  | EmptyString => [EmptyString]
  | String c s' =>
      if Ascii.eqb c sep then EmptyString :: split sep s'
      else
        match split sep s' with
        | piece :: rest => String c piece :: rest
        | [] => [String c EmptyString]
        end
  end.

(** [s.replace('+', ' ')]. *)
Fixpoint plus_to_space (s : string) : string :=
  match s with
  | EmptyString => EmptyString
  | String c s' =>
      String (if Ascii.eqb c "+" then " "%char else c) (plus_to_space s')
  end.

Definition hex_value (c : ascii) : option nat :=
  let n := nat_of_ascii c in
  if (48 <=? n)%nat && (n <=? 57)%nat then Some (n - 48)%nat
  else if (65 <=? n)%nat && (n <=? 70)%nat then Some (n - 55)%nat
  else if (97 <=? n)%nat && (n <=? 102)%nat then Some (n - 87)%nat
  else None.

Definition hex_pair (a b : ascii) : option ascii :=
  match hex_value a, hex_value b with
  | Some x, Some y => Some (ascii_of_nat (16 * x + y))
  | _, _ => None
  end.

(** [urllib.parse.unquote]: [%XX] becomes the character with that code;
    a [%] not followed by two hex digits stays. *)
Fixpoint unquote (s : string) : string :=
  match s with
  | EmptyString => EmptyString
  | String c s' =>
      match s' with
      | String a (String b rest) =>
          match (if Ascii.eqb c "%" then hex_pair a b else None) with
          | Some ch => String ch (unquote rest)
          | None => String c (unquote s')
          end
      | _ => String c (unquote s')
      end
  end.

(** [urllib.parse.urlparse(url).query] for a target that starts with one
    slash (no scheme, no network location): tabs and line breaks are
    removed, the fragment is cut at the first [#], and the query is what
    follows the first [?]. *)
Fixpoint remove_unsafe (s : string) : string :=
  match s with
  | EmptyString => EmptyString
  | String c s' =>
      let n := nat_of_ascii c in
      if (n =? 9)%nat || (n =? 10)%nat || (n =? 13)%nat
      then remove_unsafe s'
      else String c (remove_unsafe s')
  end.

Definition urlparse_query (url : string) : string :=
  let '(before_fragment, _) := split_once "#" (remove_unsafe url) in
  match split_once "?" before_fragment with
  | (_, Some query) => query
  | (_, None) => EmptyString
  end.

(** [urllib.parse.parse_qsl(qs)] with its defaults: fields are separated
    by [&]; a field without [=] or with an empty value is skipped. *)
Definition parse_field (name_value : string) : option (string * string) :=
  match split_once "=" name_value with
  | (name, Some value) =>
      match value with
      | EmptyString => None
      | _ => Some (unquote (plus_to_space name), unquote (plus_to_space value))
      end
  | (_, None) => None
  end.

Fixpoint parse_fields (fields : list string) : list (string * string) :=
  match fields with
  | [] => []
  | nv :: rest =>
      match parse_field nv with
      | Some name_and_value => name_and_value :: parse_fields rest
      | None => parse_fields rest
      end
  end.

Definition parse_qsl (qs : string) : list (string * string) :=
  match qs with
  | EmptyString => []
  | _ => parse_fields (split "&" qs)
  end.

(** [parse_qs]: a dict from name to the list of its values, in order of
    first appearance. *)
Fixpoint dict_append (name value : string) (d : list (string * list string))
  : list (string * list string) :=
  match d with
  | [] => [(name, [value])]
  | (k, vs) :: d' =>
      if String.eqb k name then (k, (vs ++ [value])%list) :: d'
      else (k, vs) :: dict_append name value d'
  end.

Definition parse_qs (qs : string) : list (string * list string) :=
  fold_left (fun d '(name, value) => dict_append name value d) (parse_qsl qs) [].

(** [d[key]]; [None] stands for [KeyError]. *)
Fixpoint getitem (key : string) (d : list (string * list string))
  : option (list string) :=
  match d with
  | [] => None
  | (k, vs) :: d' => if String.eqb k key then Some vs else getitem key d'
  end.

(** [int(text)]: optional spaces, an optional sign, decimal digits with
    single underscores allowed between them, optional spaces.  [None]
    stands for [ValueError]. *)
Definition is_space (c : ascii) : bool :=
  let n := nat_of_ascii c in
  ((9 <=? n)%nat && (n <=? 13)%nat) || (n =? 32)%nat.

Definition digit_value (c : ascii) : option Z :=
  let n := nat_of_ascii c in
  if (48 <=? n)%nat && (n <=? 57)%nat then Some (Z.of_nat (n - 48)) else None.

Fixpoint lstrip (s : string) : string :=
  match s with
  | EmptyString => EmptyString
  | String c s' => if is_space c then lstrip s' else s
  end.

Fixpoint all_space (s : string) : bool :=
  match s with
  | EmptyString => true
  | String c s' => is_space c && all_space s'
  end.

(** After a digit ([after_underscore] false) or an underscore (true):
    the value and the number of digits read, or [None]. *)
Fixpoint scan_digits (acc : Z) (count : nat) (after_underscore : bool)
    (s : string) : option (Z * nat) :=
  match s with
  | EmptyString => if after_underscore then None else Some (acc, count)
  | String c s' =>
      match digit_value c with
      | Some d => scan_digits (10 * acc + d) (S count) false s'
      | None =>
          if after_underscore then None
          else if Ascii.eqb c "_" then scan_digits acc count true s'
          else if all_space s then Some (acc, count)
          else None
      end
  end.

Definition scan_number (s : string) : option (Z * nat) :=
  match s with
  | EmptyString => None
  | String c s' =>
      match digit_value c with
      | Some d => scan_digits d 1 false s'
      | None => None
      end
  end.

(** [max_str_digits] is the interpreter's limit on the digits of a
    decimal literal ([sys.get_int_max_str_digits()], 4300 by default
    where it exists); [None] when the interpreter has no limit. *)
Definition py_int_of_str (max_str_digits : option nat) (text : string)
  : option Z :=
  let s := lstrip text in
  let '(negative, body) :=
    match s with
    | String "-" s' => (true, s')
    | String "+" s' => (false, s')
    | _ => (false, s)
    end in
  match scan_number body with
  | Some (n, count) =>
      match max_str_digits with
      | Some limit =>
          if (limit <? count)%nat then None
          else Some (if negative then - n else n)
      | None => Some (if negative then - n else n)
      end
  | None => None
  end.

End Text.

(** ** The HTTP front: globals and [StreamHandler.do_GET] (lines 220-563) *)

Record camera_info : Type := CameraInfo {
  name : string;
  dev_path : string
}.

(** What the handler puts on the connection, in order. *)
Inductive wire : Type :=
| SendResponse (code : Z)
| SendHeader (key value : string)
| EndHeaders
| WriteText (data : string)
| WriteBytes (data : list Z)
| Flush
| SendError (code : Z).

(** The module's globals, and everything sent so far. *)
Record server : Type := Server {
  cameras : gmap Z camera_info;
  current_camera : Z;
  streamer_obj : world;
  sent : list wire
}.

(** One turn of the streaming loop as the outside world shapes it: the
    steps the relays take before the handler reads, and whether the client
    still accepts what is written. *)
Record stream_tick : Type := StreamTick {
  turns : list (nat * option (list Z));
  client_connected : bool
}.

Section Handler.

Context (drv : Driver).
(* sys.get_int_max_str_digits() of the interpreter, if it has one *)
Context (max_str_digits : option nat).
(* the page of the index route, rendered by code outside the core *)
Context (index_html : gmap Z camera_info -> Z -> streamer -> string).

Local Open Scope string_scope.

Definition send (out : list wire) (sv : server) : server :=
  Server (cameras sv) (current_camera sv) (streamer_obj sv) (sent sv ++ out)%list.

(** Run a method of the global [streamer]. *)
Definition on_streamer {A} (m : M A) (sv : server) : result A * server :=
  let '(r, w) := m (streamer_obj sv) in
  (r, Server (cameras sv) (current_camera sv) w (sent sv)).

Definition set_current_camera (id : Z) (sv : server) : server :=
  Server (cameras sv) id (streamer_obj sv) (sent sv).

(** [int(params['id'][0])] for the request target [path] (lines 526-528). *)
Definition request_id (path : string) : result Z :=
  match Text.getitem "id" (Text.parse_qs (Text.urlparse_query path)) with
  | None => Raise KeyError
  | Some [] => Raise IndexError
  | Some (value :: _) =>
      match Text.py_int_of_str max_str_digits value with
      | Some n => Ok n
      | None => Raise ValueError
      end
  end.

(** The [/api/camera] branch (lines 525-537). *)
Definition api_camera (path : string) (sv : server) : result unit * server :=
  match request_id path with
  | Raise e => (Raise e, sv)
  | Ok new_camera_id =>
      let '(r, sv1) :=
        if bool_decide (is_Some (cameras sv !! new_camera_id)) then
          on_streamer (switch_camera drv new_camera_id)
            (set_current_camera new_camera_id sv)
        else (Ok true, sv) in
      match r with
      | Raise e => (Raise e, sv1)
      | Ok _ =>
          (Ok tt,
           send [SendResponse 200;
                 SendHeader "Content-type" "text/plain";
                 EndHeaders;
                 WriteText "OK"] sv1)
      end
  end.

Definition CRLF : string :=
  String (ascii_of_nat 13) (String (ascii_of_nat 10) EmptyString).

(** [str(n)] for a length. *)
Definition decimal (n : nat) : string :=
  NilZero.string_of_uint (Nat.to_uint n).

(** The loop of the [/stream.mjpg] branch (lines 546-561), for as long as
    [script] lasts.  A write to a client that has gone raises
    [ConnectionResetError] or [BrokenPipeError], which ends the loop
    silently; any other exception is printed and ends it too. *)
Fixpoint stream_loop (script : list stream_tick) (sv : server) : server :=
  match script with
  | [] => sv
  | tick :: script' =>
      let '(_, sv0) := on_streamer (relay_steps drv (turns tick)) sv in
      match on_streamer (get_frame drv) sv0 with
      | (Raise _, sv1) => sv1
      | (Ok frame_data, sv1) =>
          match frame_data with
          | Some (b :: data) =>
              if client_connected tick then
                stream_loop script'
                  (send [WriteText ("--frame" ++ CRLF);
                         SendHeader "Content-Type" "image/jpeg";
                         SendHeader "Content-Length"
                           (decimal (length (b :: data)));
                         EndHeaders;
                         WriteBytes (b :: data);
                         WriteText CRLF;
                         Flush] sv1)
              else sv1
          | _ => stream_loop script' sv1
          end
      end
  end.

Definition do_GET (path : string) (script : list stream_tick) (sv : server)
  : result unit * server :=
  if String.eqb path "/" then
    (Ok tt,
     send [SendResponse 200;
           SendHeader "Content-type" "text/html";
           EndHeaders;
           WriteText (index_html (cameras sv) (current_camera sv)
                        (self (streamer_obj sv)))] sv)
  else if Text.startswith "/api/camera" path && Text.contains "id=" path then
    api_camera path sv
  else if String.eqb path "/stream.mjpg" then
    (Ok tt,
     stream_loop script
       (send [SendResponse 200;
              SendHeader "Content-Type" "multipart/x-mixed-replace; boundary=frame";
              SendHeader "Cache-Control" "no-cache";
              SendHeader "Connection" "close";
              EndHeaders] sv))
  else (Ok tt, send [SendError 404] sv).

(** *** [HTTPServer.serve_forever] (lines 575-576)

    [HTTPServer] has no threading mix-in: it accepts a connection, runs
    [do_GET] to its end, and only then accepts the next.  An exception
    out of the handler is reported by the server, which carries on with
    the state as the handler left it.  Between two requests the relay
    threads may take steps. *)

Inductive arrival : Type :=
| Request (path : string) (script : list stream_tick)
| RelayStep (tid : nat) (shot : option (list Z)).

Definition serve_one (sv : server) (a : arrival) : server :=
  match a with
  | Request path script => (do_GET path script sv).2
  | RelayStep tid shot => (on_streamer (relay_step drv tid shot) sv).2
  end.

Definition serve_forever (arrivals : list arrival) (sv : server) : server :=
  fold_left serve_one arrivals sv.

End Handler.


(** ** Predicates used by the properties *)


(** ** Sample data for the worked cases *)


(** Events of configuring an open handle; all others are steps. *)
Definition is_config (e : event) : bool :=
  match e with
  | CapSet _ _ _ | CapRead _ => true
  | _ => false
  end.

Definition steps (evs : list event) : list event :=
  List.filter (fun e => negb (is_config e)) evs.

(** A world without the properties of the open handle, the negotiated
    sizes and rates, and the configuration events. *)
Record view : Type := View {
  v_camera_id : Z;
  v_handle : option (Z * bool);
  v_queue : PyQueue.t;
  v_current : option frame;
  v_thread : option nat;
  v_running : bool;
  v_alive : list nat;
  v_reading : list (nat * option frame);
  v_spawned : nat;
  v_steps : list event
}.

Definition view_of (w : world) : view :=
  View (camera_id (self w))
    (option_map (fun c => (device c, isOpened c)) (cap (self w)))
    (frame_queue (self w)) (current_frame (self w))
    (capture_thread (self w)) (running (self w))
    (alive w) (reading w) (spawned w) (steps (log w)).

Definition has_cap (w : world) : Prop := cap (self w) <> None.

(** [m] run from [w] returns normally and changes nothing a [view] shows. *)
Definition quiet_at {A} (m : M A) (w : world) : Prop :=
  has_cap w -> exists a w', m w = (Ok a, w') /\ view_of w' = view_of w.

(** The frames put into the queue since the last-known frame was last
    cleared, oldest first. *)
Fixpoint puts_since_clear (acc : list frame) (evs : list event) : list frame :=
  match evs with
  | [] => acc
  | SlotPut f :: evs' => puts_since_clear (acc ++ [f]) evs'
  | LastKnown None :: evs' => puts_since_clear [] evs'
  | _ :: evs' => puts_since_clear acc evs'
  end.

(** The frame [get_frame] handed out last, if the last-known frame was not
    cleared since. *)
Fixpoint last_handed_out (acc : option frame) (evs : list event) : option frame :=
  match evs with
  | [] => acc
  | LastKnown f :: evs' => last_handed_out f evs'
  | _ :: evs' => last_handed_out acc evs'
  end.

(** The relay threads running after the events [evs], from [live]. *)
Fixpoint relays_running (live : list nat) (evs : list event) : list nat :=
  match evs with
  | [] => live
  | RelayStart tid :: evs' => relays_running (live ++ [tid]) evs'
  | RelayExit tid :: evs' =>
      relays_running (List.filter (fun t => negb (Nat.eqb t tid)) live) evs'
  | _ :: evs' => relays_running live evs'
  end.

(** The largest number of relay threads running at any point of [evs]. *)
Fixpoint relay_peak (live : list nat) (evs : list event) : nat :=
  match evs with
  | [] => length live
  | e :: evs' =>
      Nat.max (length live) (relay_peak (relays_running live [e]) evs')
  end.

(** No join among [evs] timed out: each returned with its thread ended. *)
Definition joined_in_time (evs : list event) : bool :=
  forallb (fun e => match e with RelayJoin _ true => false | _ => true end) evs.

(** The part of [open_camera] that follows a successful open (lines
    61-72), named for the proofs. *)
Definition configure_opened (drv : Driver) (id : Z) : M unit :=
  bind (cap_set drv CAP_PROP_BUFFERSIZE 1%Q) (fun _ =>
  bind (cap_set drv CAP_PROP_FOURCC (inject_Z FOURCC_MJPG)) (fun _ =>
  bind (detect_camera_capabilities drv) (fun _ =>
  bind (assign (set_available_resolutions (get_camera_specs drv id))) (fun _ =>
  bind (match get_camera_specs drv id with
        | (max_w, max_h) :: _ => set_resolution drv max_w max_h
        | [] => ret tt
        end) (fun _ =>
  bind this (fun s' => cap_set drv CAP_PROP_FPS (inject_Z (fps s')))))))).

(** The steps [open_camera] adds: the old handle, if any, is released, then
    the new one is opened. *)
Definition open_steps (old : option VideoCapture) (id : Z) (ok : bool)
  : list event :=
  match old with
  | Some c => [CapRelease (device c); CapOpen id ok]
  | None => [CapOpen id ok]
  end.

(** ** The streamer at the level of views

    The effect of each method on what a [view] shows, as a function of the
    view alone; the lemmas [view_*] below show that the methods compute
    exactly these. *)

Definition with_steps (evs : list event) (v : view) : view :=
  View (v_camera_id v) (v_handle v) (v_queue v) (v_current v) (v_thread v)
    (v_running v) (v_alive v) (v_reading v) (v_spawned v) (v_steps v ++ evs).

Definition with_reading (l : list (nat * option frame)) (v : view) : view :=
  View (v_camera_id v) (v_handle v) (v_queue v) (v_current v) (v_thread v)
    (v_running v) (v_alive v) l (v_spawned v) (v_steps v).

Definition with_alive (l : list nat) (v : view) : view :=
  View (v_camera_id v) (v_handle v) (v_queue v) (v_current v) (v_thread v)
    (v_running v) l (v_reading v) (v_spawned v) (v_steps v).

Definition with_running (b : bool) (v : view) : view :=
  View (v_camera_id v) (v_handle v) (v_queue v) (v_current v) (v_thread v)
    b (v_alive v) (v_reading v) (v_spawned v) (v_steps v).

Definition without_relay (tid : nat) (live : list nat) : list nat :=
  List.filter (fun t => negb (Nat.eqb t tid)) live.

(** The events of the publish step on queue [q]. *)
Definition publish_steps (f : frame) (q : PyQueue.t) : list event :=
  let evicted :=
    if PyQueue.full q then
      match q with
      | g :: _ => [SlotGet g]
      | [] => []
      end
    else [] in
  let q1 :=
    if PyQueue.full q then
      match q with
      | _ :: q' => q'
      | [] => q
      end
    else q in
  evicted ++
  match PyQueue.put_nowait f q1 with
  | Some _ => [SlotPut f]
  | None => []
  end.

Definition publish_view (f : frame) (v : view) : view :=
  View (v_camera_id v) (v_handle v) (publish f (v_queue v)) (v_current v)
    (v_thread v) (v_running v) (v_alive v) (v_reading v) (v_spawned v)
    (v_steps v ++ publish_steps f (v_queue v)).

(** One step of the loop of relay [tid]. *)
Definition capture_view (tid : nat) (shot : option (list Z)) (v : view) : view :=
  match lookup_read tid (v_reading v) with
  | Some got =>
      let v1 := with_reading (without_read tid (v_reading v)) v in
      match got with
      | Some f => publish_view f v1
      | None => v1
      end
  | None =>
      if v_running v then
        match v_handle v with
        | Some (dev, true) =>
            with_reading
              (v_reading v ++ [(tid, option_map (Frame dev) shot)]) v
        | _ => v
        end
      else
        with_steps [RelayExit tid]
          (with_alive (without_relay tid (v_alive v)) v)
  end.

Definition relay_view (tid : nat) (shot : option (list Z)) (v : view) : view :=
  if bool_decide (tid ∈ v_alive v) then capture_view tid shot v else v.

Fixpoint wait_view (tid : nat) (l : list (nat * option (list Z))) (v : view)
  : view :=
  match l with
  | [] => v
  | (t, shot) :: l' =>
      if bool_decide (tid ∈ v_alive v)
      then wait_view tid l' (relay_view t shot v)
      else v
  end.

Definition join_view (drv : Driver) (tid : nat) (v : view) : view :=
  let v1 := wait_view tid (while_joining drv (joins (v_steps v)) tid) v in
  with_steps [RelayJoin tid (bool_decide (tid ∈ v_alive v1))] v1.

Definition stop_view (drv : Driver) (v : view) : view :=
  let v0 := with_steps [RelaySignal false] (with_running false v) in
  match v_thread v with
  | Some tid => join_view drv tid v0
  | None => v0
  end.

Definition start_view (drv : Driver) (v : view) : view :=
  let v1 :=
    match v_thread v with
    | Some tid => if bool_decide (tid ∈ v_alive v) then stop_view drv v else v
    | None => v
    end in
  View (v_camera_id v1) (v_handle v1) (v_queue v1) (v_current v1)
    (Some (v_spawned v1)) true (v_alive v1 ++ [v_spawned v1]) (v_reading v1)
    (S (v_spawned v1))
    (v_steps v1 ++ [RelaySignal true; RelayStart (v_spawned v1)]).

Definition get_view (v : view) : view :=
  match v_queue v with
  | f :: q' =>
      View (v_camera_id v) (v_handle v) q' (Some f) (v_thread v)
        (v_running v) (v_alive v) (v_reading v) (v_spawned v)
        (v_steps v ++ [SlotGet f; LastKnown (Some f)])
  | [] => v
  end.

(** The frame [get_frame] goes on to encode. *)
Definition next_frame (v : view) : option frame :=
  match v_queue v with
  | f :: _ => Some f
  | [] => v_current v
  end.

(** [switch_camera] up to the call of [open_camera] included. *)
Definition switch_opened_view (drv : Driver) (id : Z) (v : view) : view :=
  let v1 := stop_view drv v in
  View id (Some (id, device_opens drv id)) [] None (v_thread v1) (v_running v1)
    (v_alive v1) (v_reading v1) (v_spawned v1)
    (v_steps v1 ++ map SlotGet (v_queue v1) ++ [LastKnown None] ++
     match v_handle v with
     | Some (old, _) => [CapRelease old; CapOpen id (device_opens drv id)]
     | None => [CapOpen id (device_opens drv id)]
     end).

Definition switch_view (drv : Driver) (id : Z) (v : view) : view :=
  if device_opens drv id then start_view drv (switch_opened_view drv id v)
  else switch_opened_view drv id v.

Definition act_view (drv : Driver) (v : view) (a : action) : view :=
  match a with
  | Relay tid shot => relay_view tid shot v
  | GetFrame => get_view v
  | SwitchCamera id => switch_view drv id v
  end.

(** The view right after a constructor that returned. *)
Definition init_view (id : Z) : view :=
  View id (Some (id, true)) [] None (Some 0%nat) true [0%nat] [] 1%nat
    [CapOpen id true; RelaySignal true; RelayStart 0%nat].

Definition run_view (drv : Driver) (acts : list action) (v : view) : view :=
  fold_left (act_view drv) acts v.

(** The steps of [v'] continue those of [v]. *)
Definition extends (v v' : view) : Prop :=
  exists evs, v_steps v' = v_steps v ++ evs.

(** *** Invariants of the views of reachable worlds *)

(** At most one relay runs, it is the one [capture_thread] names, a relay
    inside a read is alive, and at most one relay ran after every event so
    far. *)
Definition single_relay (v : view) : Prop :=
  (v_alive v = [] \/ exists tid, v_alive v = [tid] /\ v_thread v = Some tid) /\
  (forall tid got, In (tid, got) (v_reading v) -> In tid (v_alive v)) /\
  relays_running [] (v_steps v) = v_alive v /\
  (relay_peak [] (v_steps v) <= 1)%nat.

(** A relay is alive only while [running] is true. *)
Definition relay_needs_running (v : view) : Prop :=
  v_alive v <> [] -> v_running v = true.

(** What holds as long as no join has timed out. *)
Definition orderly (v : view) : Prop :=
  joined_in_time (v_steps v) = true -> single_relay v /\ relay_needs_running v.


(** The queue is the newest part of what was put since the last clear, the
    last-known frame is the one handed out last, and something is held
    exactly when something was put since the last clear. *)
Definition history (v : view) : Prop :=
  (exists gone, puts_since_clear [] (v_steps v) = gone ++ v_queue v) /\
  last_handed_out None (v_steps v) = v_current v /\
  (puts_since_clear [] (v_steps v) = [] <-> next_frame v = None) /\
  (length (v_queue v) <= BUFFER_SIZE)%nat.

(** The handle is one for the device [camera_id] names, and a thread
    object has been assigned to [capture_thread]. *)
Definition handle_named (v : view) : Prop :=
  (exists ok, v_handle v = Some (v_camera_id v, ok)) /\
  (exists tid, v_thread v = Some tid).

(** Events that start or end a relay, and events that put a frame or set
    the last-known frame. *)
Definition relay_event (e : event) : bool :=
  match e with
  | RelayStart _ | RelayExit _ => true
  | _ => false
  end.

Definition slot_event (e : event) : bool :=
  match e with
  | SlotPut _ | LastKnown _ => true
  | _ => false
  end.

(** Events a relay makes in a step of its loop. *)
Definition relay_made (e : event) : bool :=
  match e with
  | SlotGet _ | SlotPut _ | RelayExit _ => true
  | _ => false
  end.


(** Actions other than a camera switch, and actions other than a relay
    step. *)
Definition is_switch (a : action) : bool :=
  match a with SwitchCamera _ => true | _ => false end.




(** ** Sample data for the worked cases *)

(** A camera that takes any frame rate up to 30 and keeps its rate when
    asked for more, takes any size up to 1280x720, and an encoder that
    prefixes the pixels with the JPEG start marker.  Devices 0 and 2 open.
    While a join waits, the joined relay gets two steps, which take it to
    the test of its loop from wherever it is. *)
Definition sample_driver : Driver := {|
  device_opens := fun id => (id =? 0) || (id =? 2);
  on_open := fun _ => CapState 30 640 480;
  on_set := fun _ st p v =>
    match p with
    | CAP_PROP_FPS =>
        if Qle_bool v 30 then CapState v (st_width st) (st_height st) else st
    | CAP_PROP_FRAME_WIDTH =>
        if Qle_bool v 1280 then CapState (st_fps st) v (st_height st) else st
    | CAP_PROP_FRAME_HEIGHT =>
        if Qle_bool v 720 then CapState (st_fps st) (st_width st) v else st
    | _ => st
    end;
  on_read := fun _ st => st;
  get_camera_specs := fun _ => [(1280, 720); (640, 480)];
  imencode := fun px => EncodeReturns true (255 :: 216 :: px);
  while_joining := fun _ tid => [(tid, None); (tid, None)]
|}.

(** The same camera with an encoder that reports failure through its
    status flag, and with one that raises. *)
Definition flagging_driver : Driver := {|
  device_opens := device_opens sample_driver;
  on_open := on_open sample_driver;
  on_set := on_set sample_driver;
  on_read := on_read sample_driver;
  get_camera_specs := get_camera_specs sample_driver;
  imencode := fun px => EncodeReturns false [255; 216];
  while_joining := while_joining sample_driver
|}.

Definition raising_driver : Driver := {|
  device_opens := device_opens sample_driver;
  on_open := on_open sample_driver;
  on_set := on_set sample_driver;
  on_read := on_read sample_driver;
  get_camera_specs := get_camera_specs sample_driver;
  imencode := fun _ => EncodeRaises;
  while_joining := while_joining sample_driver
|}.

(** The same camera on a machine where no relay gets to move while a join
    waits: a relay that is inside [cap.read()] for longer than the two
    seconds of the join. *)
Definition stalled_driver : Driver := {|
  device_opens := device_opens sample_driver;
  on_open := on_open sample_driver;
  on_set := on_set sample_driver;
  on_read := on_read sample_driver;
  get_camera_specs := get_camera_specs sample_driver;
  imencode := imencode sample_driver;
  while_joining := fun _ _ => []
|}.

(** The same camera running at 29.97 frames per second whatever rate is
    asked for. *)
Definition ntsc_driver : Driver := {|
  device_opens := device_opens sample_driver;
  on_open := fun _ => CapState (2997 # 100) 640 480;
  on_set := fun dev st p v =>
    match p with
    | CAP_PROP_FPS => CapState (2997 # 100) (st_width st) (st_height st)
    | _ => on_set sample_driver dev st p v
    end;
  on_read := on_read sample_driver;
  get_camera_specs := get_camera_specs sample_driver;
  imencode := imencode sample_driver;
  while_joining := while_joining sample_driver
|}.

(** A streamer on a freshly opened handle of that camera, before the
    probe. *)
Definition ntsc_opened : world :=
  World (set_cap (Some (Cap 0 true (CapState (2997 # 100) 640 480)))
           (new_streamer 0))
    [] [] 0%nat [CapOpen 0 true].

(** The first relay goes once round its loop with a read that delivers
    [px]: it calls [cap.read()], and the read returns. *)
Definition capture (px : list Z) : list action :=
  [Relay 0 (Some px); Relay 0 None].

(** A streamer on device 0 after the relay published two frames. *)
Definition two_published (drv : Driver) : world :=
  run_actions drv (capture [1; 1; 1] ++ capture [2; 2; 2]) (init drv 0).2.

(** The same streamer switched to device 2 afterwards. *)
Definition switched_after_two (drv : Driver) : world :=
  run_actions drv
    (capture [1; 1; 1] ++ capture [2; 2; 2] ++ [SwitchCamera 2])
    (init drv 0).2.

(** A streamer on device 0 whose relay is inside a read when a handler
    switches to device 2, the join of the switch timing out; and the same
    streamer once that read has returned. *)
Definition switched_during_read : world :=
  run_actions stalled_driver [Relay 0 (Some [1; 1; 1]); SwitchCamera 2]
    (init stalled_driver 0).2.

Definition stale_published : world :=
  run_actions stalled_driver [Relay 0 None] switched_during_read.

(** A thread object has been assigned to [capture_thread]. *)
Definition thread_named (v : view) : Prop := exists tid, v_thread v = Some tid.

(** The encoder reports failure on the pixels [px]: it raises, or its
    status flag is false. *)
Definition encode_fails (drv : Driver) (px : list Z) : Prop :=
  imencode drv px = EncodeRaises \/
  exists buffer, imencode drv px = EncodeReturns false buffer.

(** A server whose streamer is the world [w], with no camera listed. *)
Definition server_on (w : world) : server := Server ∅ 0 w [].


(** ** The capability probe, unrolled

    What the loop of [detect_camera_capabilities] (lines 44-48) makes of an
    open handle on device [dev] with properties [st]: the properties after
    the requests [tests], the rates [cap.get] echoed after each, and the
    running maximum it keeps, starting from the floor. *)

Fixpoint probe_final (drv : Driver) (dev : Z) (st : cap_state) (tests : list Z)
  : cap_state :=
  match tests with
  | [] => st
  | t :: tests' =>
      probe_final drv dev (on_set drv dev st CAP_PROP_FPS (inject_Z t)) tests'
  end.

Fixpoint probe_echoes (drv : Driver) (dev : Z) (st : cap_state) (tests : list Z)
  : list Q :=
  match tests with
  | [] => []
  | t :: tests' =>
      let st' := on_set drv dev st CAP_PROP_FPS (inject_Z t) in
      st_fps st' :: probe_echoes drv dev st' tests'
  end.

Fixpoint best_of (best : Q) (echoes : list Q) : Q :=
  match echoes with
  | [] => best
  | e :: echoes' => best_of (if Qgtb e best then e else best) echoes'
  end.

(** ** The device listing: [get_available_cameras], [get_camera_specs],
    [find_best_camera] (lines 155-218)

    [v4l2-ctl] is run outside the program; what the model takes is its
    standard output, or nothing when running it raised.  As for the request
    target, the text functions are exact on ASCII output. *)

Module V4l2.

Local Open Scope string_scope.

(** One value of the [cameras] dict. *)
Record camera_entry : Type := CameraEntry {
  entry_name : option string;     (* current_device, None before any name line *)
  entry_path : string
}.

(** A dict keyed by device number, in insertion order. *)
Definition camera_dict : Type := list (Z * camera_entry).

(** [d[key] = value]: an existing key keeps its place. *)
Fixpoint dict_set (key : Z) (value : camera_entry) (d : camera_dict)
  : camera_dict :=
  match d with
  | [] => [(key, value)]
  | (k, v) :: d' =>
      if (k =? key)%Z then (k, value) :: d' else (k, v) :: dict_set key value d'
  end.

Definition keys (d : camera_dict) : list Z := map fst d.

(** The characters [str.strip()] removes, within ASCII. *)
Definition is_blank (c : ascii) : bool :=
  let n := nat_of_ascii c in
  ((9 <=? n)%nat && (n <=? 13)%nat) || ((28 <=? n)%nat && (n <=? 32)%nat).

Fixpoint lstrip (s : string) : string :=
  match s with
  | EmptyString => EmptyString
  | String c s' => if is_blank c then lstrip s' else s
  end.

(** [s.rstrip()]: a character stays when something that is not blank
    follows it or it is not blank itself. *)
Fixpoint rstrip (s : string) : string :=
  match s with
  | EmptyString => EmptyString
  | String c s' =>
      match rstrip s' with
      | EmptyString => if is_blank c then EmptyString else String c EmptyString
      | rest => String c rest
      end
  end.

Definition strip (s : string) : string := rstrip (lstrip s).

Definition is_digit (c : ascii) : bool :=
  let n := nat_of_ascii c in (48 <=? n)%nat && (n <=? 57)%nat.

(** The longest run of digits [s] starts with, and what follows it. *)
Fixpoint span_digits (s : string) : string * string :=
  match s with
  | EmptyString => (EmptyString, EmptyString)
  | String c s' =>
      if is_digit c
      then let '(run, rest) := span_digits s' in (String c run, rest)
      else (EmptyString, s)
  end.

(** [re.search(r'(\d+)x(\d+)', s)]: the two groups of the leftmost match. *)
Fixpoint search_size (s : string) : option (string * string) :=
  match s with
  | EmptyString => None
  | String _ s' =>
      match span_digits s with
      | (String a w, String "x" after_x) =>
          match span_digits after_x with
          | (String b h, _) => Some (String a w, String b h)
          | (EmptyString, _) => search_size s'
          end
      | _ => search_size s'
      end
  end.

(** [re.search(r'/dev/video(\d+)', s)]: the group of the leftmost match. *)
Fixpoint search_video (s : string) : option string :=
  match s with
  | EmptyString => None
  | String _ s' =>
      if Text.startswith "/dev/video" s then
        match span_digits (substring 10 (String.length s - 10) s) with
        | (String a ds, _) => Some (String a ds)
        | (EmptyString, _) => search_video s'
        end
      else search_video s'
  end.

Section Parsing.

(* sys.get_int_max_str_digits() of the interpreter, if it has one *)
Context (max_str_digits : option nat).

(** The loop of [get_available_cameras] over the lines that are left.
    An exception inside it is caught by the bare [except] around the whole
    body: the scan stops and the dict built so far is returned. *)
Fixpoint scan_devices (lines : list string) (current_device : option string)
    (cameras : camera_dict) : camera_dict :=
  match lines with
  | [] => cameras
  | line :: rest =>
      if negb (String.eqb line "") && negb (Text.startswith (String "009" "") line)
      then scan_devices rest (Some (strip line)) cameras
      else if Text.startswith (String "009" "/dev/video") line then
        let device_path := strip line in
        match search_video device_path with
        | None => cameras                     (* None.group: AttributeError *)
        | Some digits =>
            match Text.py_int_of_str max_str_digits digits with
            | None => cameras                 (* ValueError *)
            | Some device_num =>
                if (device_num mod 2 =? 0)%Z
                then scan_devices rest current_device
                       (dict_set device_num
                          (CameraEntry current_device device_path) cameras)
                else scan_devices rest current_device cameras
            end
        end
      else scan_devices rest current_device cameras
  end.

(** [get_available_cameras()]; [stdout] is [None] when running the tool
    raised. *)
Definition get_available_cameras (stdout : option string) : camera_dict :=
  match stdout with
  | None => []
  | Some out => scan_devices (Text.split (ascii_of_nat 10) out) None []
  end.

(** [(w, h) in resolutions]. *)
Definition size_in (wh : Z * Z) (l : list (Z * Z)) : bool :=
  existsb (fun x => (fst x =? fst wh)%Z && (snd x =? snd wh)%Z) l.

(** The loop of [get_camera_specs]; [None] when an [int()] raised. *)
Fixpoint scan_sizes (lines : list string) (current_format : bool)
    (resolutions : list (Z * Z)) : option (list (Z * Z)) :=
  match lines with
  | [] => Some resolutions
  | line :: rest =>
      if Text.contains "MJPG" line || Text.contains "YUYV" line
      then scan_sizes rest true resolutions
      else if Text.contains "Size: Discrete" line && current_format then
        match search_size line with
        | None => scan_sizes rest current_format resolutions
        | Some (w, h) =>
            match Text.py_int_of_str max_str_digits w,
                  Text.py_int_of_str max_str_digits h with
            | Some width, Some height =>
                if size_in (width, height) resolutions
                then scan_sizes rest current_format resolutions
                else scan_sizes rest current_format
                       (resolutions ++ [(width, height)])
            | _, _ => None
            end
        end
      else scan_sizes rest current_format resolutions
  end.

Definition area (wh : Z * Z) : Z := (fst wh * snd wh)%Z.

(** [list.sort(key=area, reverse=True)]: the sort is stable, so sizes of
    equal area keep their order. *)
Fixpoint insert_by_area (x : Z * Z) (sorted : list (Z * Z)) : list (Z * Z) :=
  match sorted with
  | [] => [x]
  | y :: sorted' =>
      if (area x <? area y)%Z then y :: insert_by_area x sorted'
      else x :: y :: sorted'
  end.

Definition sort_by_area (l : list (Z * Z)) : list (Z * Z) :=
  fold_right insert_by_area [] l.

Definition fallback_resolutions : list (Z * Z) :=
  [(1280, 720); (640, 480)]%Z.

(** [get_camera_specs(device_num)] on the output of the tool for that
    device. *)
Definition get_camera_specs (stdout : option string) : list (Z * Z) :=
  match stdout with
  | None => fallback_resolutions
  | Some out =>
      match scan_sizes (Text.split (ascii_of_nat 10) out) false [] with
      | Some resolutions => sort_by_area resolutions
      | None => fallback_resolutions
      end
  end.

End Parsing.

(** The loop of [find_best_camera]; [specs] is what [get_camera_specs]
    returns for each device. *)
Fixpoint scan_best (specs : Z -> list (Z * Z)) (ids : list Z)
    (best_camera : option Z) (best_resolution : Z) : option Z :=
  match ids with
  | [] => best_camera
  | cam_id :: rest =>
      match specs cam_id with
      | top :: _ =>
          if (best_resolution <? area top)%Z
          then scan_best specs rest (Some cam_id) (area top)
          else scan_best specs rest best_camera best_resolution
      | [] => scan_best specs rest best_camera best_resolution
      end
  end.

(** [find_best_camera()], given the dict and the specs of each device. *)
Definition find_best_camera (cameras : camera_dict)
    (specs : Z -> list (Z * Z)) : Z :=
  match keys cameras with
  | [] => 0%Z
  | first :: _ =>
      match scan_best specs (keys cameras) None 0%Z with
      | Some best_camera => best_camera
      | None => first
      end
  end.

End V4l2.

(** The area of the first size [specs] lists for a device, 0 when it lists
    none: what [find_best_camera] compares. *)
Definition top_area (specs : Z -> list (Z * Z)) (cam_id : Z) : Z :=
  match specs cam_id with
  | top :: _ => V4l2.area top
  | [] => 0
  end.

(** What every entry of the dict of [get_available_cameras] satisfies: its
    key is even and is the number read out of its path. *)
Definition camera_entry_ok (limit : option nat) (ke : Z * V4l2.camera_entry)
  : Prop :=
  fst ke mod 2 = 0 /\
  exists digits,
    V4l2.search_video (V4l2.entry_path (snd ke)) = Some digits /\
    Text.py_int_of_str limit digits = Some (fst ke).

(** What the loop of [find_best_camera] keeps true of the devices [seen]
    so far: no best camera yet means none of them listed a size of
    positive area; a best camera is the first of them with the largest
    area. *)
Definition best_so_far (specs : Z -> list (Z * Z)) (seen : list Z)
    (best_camera : option Z) (best_resolution : Z) : Prop :=
  match best_camera with
  | None =>
      best_resolution = 0 /\
      forall k, In k seen -> top_area specs k <= 0
  | Some b =>
      best_resolution = top_area specs b /\
      0 < best_resolution /\
      exists before after,
        seen = before ++ b :: after /\
        (forall k, In k before -> top_area specs k < best_resolution) /\
        (forall k, In k after -> top_area specs k <= best_resolution)
  end.

(** Two cameras and their sizes, for the worked cases. *)
Definition sample_cameras : V4l2.camera_dict :=
  [(0, V4l2.CameraEntry (Some "Laptop camera"%string) "/dev/video0"%string);
   (2, V4l2.CameraEntry (Some "USB camera"%string) "/dev/video2"%string);
   (4, V4l2.CameraEntry (Some "Second USB camera"%string) "/dev/video4"%string)].

Definition sample_specs (cam_id : Z) : list (Z * Z) :=
  if cam_id =? 0 then [(640, 480)]
  else if cam_id =? 2 then [(1920, 1080); (1280, 720)]
  else if cam_id =? 4 then [(1920, 1080)]
  else [].

(** The properties of an open handle on device [dev] after the requests
    and the discarded read of [set_resolution] (lines 112-118). *)
Definition after_set_resolution (drv : Driver) (dev : Z) (st : cap_state)
    (w h rate : Z) : cap_state :=
  let st1 := on_set drv dev st CAP_PROP_FOURCC (inject_Z FOURCC_MJPG) in
  let st2 := on_set drv dev st1 CAP_PROP_FRAME_WIDTH (inject_Z w) in
  let st3 := on_set drv dev st2 CAP_PROP_FRAME_HEIGHT (inject_Z h) in
  let st4 := on_set drv dev st3 CAP_PROP_FPS (inject_Z rate) in
  let st5 := on_set drv dev st4 CAP_PROP_BUFFERSIZE 1%Q in
  on_read drv dev st5.

(** The response of the [/api/camera] branch (lines 534-537). *)
Definition ok_response : list wire :=
  [SendResponse 200;
   SendHeader "Content-type" "text/plain";
   EndHeaders;
   WriteText "OK"].

(** The target takes the [/api/camera] branch (line 525). *)
Definition api_route (path : string) : bool :=
  Text.startswith "/api/camera" path && Text.contains "id=" path.

(** A server with cameras 0 and 2 listed, streaming from camera 0. *)
Definition sample_server : server :=
  Server
    (<[0 := CameraInfo "Laptop camera" "/dev/video0"]>
       (<[2 := CameraInfo "USB camera" "/dev/video2"]> ∅))
    0 (two_published sample_driver) [].



(** The page of the index route is rendered outside the core; any
    function does for the worked cases. *)
Definition sample_index_html (cams : gmap Z camera_info) (current : Z)
    (s : streamer) : string := "<html>"%string.

(** One part of the multipart stream carrying [data] (lines 550-556). *)
Definition stream_part (data : list Z) : list wire :=
  [WriteText ("--frame" ++ CRLF)%string;
   SendHeader "Content-Type" "image/jpeg";
   SendHeader "Content-Length" (decimal (length data));
   EndHeaders;
   WriteBytes data;
   WriteText CRLF;
   Flush].


(** A server whose streamer is in a state a running program can be in and
    whose [current_camera] names the streamer's device. *)
Definition started (drv : Driver) (sv : server) : Prop :=
  reachable drv (streamer_obj sv) /\
  current_camera sv = camera_id (self (streamer_obj sv)).


(** * Properties *)

(** ** The publish step under interleaving *)

















(** ** Running the monad *)

Lemma bind_ok {A B} (m : M A) (k : A -> M B) (w w' : world) (a : A) :
  m w = (Ok a, w') -> bind m k w = k a w'.
Proof. intros H. unfold bind. rewrite H. reflexivity. Qed.

Lemma bind_raise {A B} (m : M A) (k : A -> M B) (w w' : world) (e : exn) :
  m w = (Raise e, w') -> bind m k w = (Raise e, w').
Proof. intros H. unfold bind. rewrite H. reflexivity. Qed.

Lemma steps_app (l1 l2 : list event) : steps (l1 ++ l2) = steps l1 ++ steps l2.
Proof. unfold steps. apply List.filter_app. Qed.

Lemma steps_config (l evs : list event) :
  forallb is_config evs = true -> steps (l ++ evs) = steps l.
Proof.
  intros H. rewrite steps_app.
  assert (E : steps evs = []).
  { unfold steps. induction evs as [|e evs IH]; [reflexivity |].
    simpl in H. apply andb_true_iff in H as [He Hevs].
    simpl. rewrite He. simpl. auto. }
  rewrite E. apply app_nil_r.
Qed.

(** ** Operations that only configure the open handle *)

Lemma has_cap_view (w w' : world) :
  view_of w' = view_of w -> has_cap w -> has_cap w'.
Proof.
  unfold has_cap, view_of. intros E H.
  injection E as _ Hh _ _ _ _ _ _ _ _.
  destruct (cap (self w')); [discriminate |].
  destruct (cap (self w)); [discriminate | congruence].
Qed.

Lemma quiet_ret {A} (a : A) (w : world) : quiet_at (ret a) w.
Proof. intros _. exists a, w. split; reflexivity. Qed.

Lemma quiet_bind {A B} (m : M A) (k : A -> M B) (w : world) :
  quiet_at m w ->
  (forall a w', m w = (Ok a, w') -> view_of w' = view_of w -> quiet_at (k a) w') ->
  quiet_at (bind m k) w.
Proof.
  intros Hm Hk Hcap. destruct (Hm Hcap) as [a [w' [Em Ev]]].
  destruct (Hk a w' Em Ev (has_cap_view _ _ Ev Hcap)) as [b [w'' [Ek Ev']]].
  exists b, w''. split.
  - rewrite (bind_ok _ _ _ _ _ Em). exact Ek.
  - congruence.
Qed.

Lemma quiet_this {A} (k : streamer -> M A) (w : world) :
  quiet_at (k (self w)) w -> quiet_at (bind this k) w.
Proof. intros H Hcap. exact (H Hcap). Qed.

Lemma quiet_assign (f : streamer -> streamer) (w : world) :
  view_of (World (f (self w)) (alive w) (reading w) (spawned w) (log w)) = view_of w ->
  quiet_at (assign f) w.
Proof. intros H _. eexists tt, _. split; [reflexivity | exact H]. Qed.

Lemma quiet_cap_set (p : cap_prop) (v : Q) (drv : Driver) (w : world) :
  quiet_at (cap_set drv p v) w.
Proof.
  intros Hcap. unfold has_cap in Hcap. unfold cap_set, bind, this.
  destruct w as [s al rd sp lg]. simpl in *.
  destruct (cap s) as [[d o st]|] eqn:Ecap; [| congruence].
  destruct o; simpl.
  - eexists tt, _. split; [reflexivity |].
    unfold view_of. simpl. rewrite Ecap. simpl.
    rewrite steps_config by reflexivity. reflexivity.
  - eexists tt, _. split; reflexivity.
Qed.

Lemma quiet_cap_get (p : cap_state -> Q) (w : world) : quiet_at (cap_get p) w.
Proof.
  intros Hcap. unfold has_cap in Hcap. unfold cap_get, bind, this.
  simpl. destruct (cap (self w)) as [c|]; [| congruence].
  eexists _, w. split; reflexivity.
Qed.

Lemma quiet_cap_read (shot : option (list Z)) (drv : Driver) (w : world) :
  quiet_at (cap_read drv shot) w.
Proof.
  intros Hcap. unfold has_cap in Hcap. unfold cap_read, bind, this.
  destruct w as [s al rd sp lg]. simpl in *.
  destruct (cap s) as [[d o st]|] eqn:Ecap; [| congruence].
  destruct o; simpl.
  - eexists _, _. split; [reflexivity |].
    unfold view_of. simpl. rewrite Ecap. simpl.
    rewrite steps_config by reflexivity. reflexivity.
  - eexists _, _. split; reflexivity.
Qed.

Lemma quiet_for_each {A B} (body : B -> A -> M B) (l : list A) :
  (forall acc x w, quiet_at (body acc x) w) ->
  forall acc w, quiet_at (for_each l acc body) w.
Proof.
  intros Hbody. induction l as [|x l IH]; intros acc w; simpl.
  - apply quiet_ret.
  - apply quiet_bind; [apply Hbody |]. intros acc' w' _ _. apply IH.
Qed.

Lemma quiet_probe_one (drv : Driver) (best : Q) (test_fps : Z) (w : world) :
  quiet_at (probe_one drv best test_fps) w.
Proof.
  unfold probe_one. apply quiet_bind; [apply quiet_cap_set |].
  intros _ w1 _ _. apply quiet_bind; [apply quiet_cap_get |].
  intros a w2 _ _. apply quiet_ret.
Qed.

Lemma view_set_rates (f m : Z) (w : world) :
  view_of (World (set_rates f m (self w)) (alive w) (reading w) (spawned w) (log w))
  = view_of w.
Proof. reflexivity. Qed.

Lemma view_set_size (a b : Z) (w : world) :
  view_of (World (set_size a b (self w)) (alive w) (reading w) (spawned w) (log w))
  = view_of w.
Proof. reflexivity. Qed.

Lemma view_set_available_resolutions (l : list (Z * Z)) (w : world) :
  view_of (World (set_available_resolutions l (self w)) (alive w) (reading w)
             (spawned w) (log w))
  = view_of w.
Proof. reflexivity. Qed.

Lemma quiet_detect_camera_capabilities (drv : Driver) (w : world) :
  quiet_at (detect_camera_capabilities drv) w.
Proof.
  unfold detect_camera_capabilities. apply quiet_this.
  destruct (cap (self w)) as [c|]; [| apply quiet_ret].
  destruct (negb (isOpened c)); [apply quiet_ret |].
  apply quiet_bind; [apply quiet_for_each; intros; apply quiet_probe_one |].
  intros best w1 _ _.
  apply quiet_bind; [apply quiet_assign, view_set_rates |].
  intros _ w2 _ _. apply quiet_assign, view_set_rates.
Qed.

Lemma quiet_set_resolution (drv : Driver) (a b : Z) (w : world) :
  quiet_at (set_resolution drv a b) w.
Proof.
  unfold set_resolution. apply quiet_this.
  destruct (cap (self w)) as [c|]; [| apply quiet_ret].
  repeat (apply quiet_bind; [apply quiet_cap_set |]; intros _ ? _ _).
  apply quiet_bind; [apply quiet_cap_read |]. intros _ ? _ _.
  apply quiet_bind; [apply quiet_cap_get |]. intros aw ? _ _.
  apply quiet_bind; [apply quiet_cap_get |]. intros ah ? _ _.
  apply quiet_assign, view_set_size.
Qed.

Lemma quiet_configure (drv : Driver) (id : Z) (w : world) :
  quiet_at (configure_opened drv id) w.
Proof.
  unfold configure_opened.
  apply quiet_bind; [apply quiet_cap_set |]. intros _ ? _ _.
  apply quiet_bind; [apply quiet_cap_set |]. intros _ ? _ _.
  apply quiet_bind; [apply quiet_detect_camera_capabilities |]. intros _ ? _ _.
  apply quiet_bind; [apply quiet_assign, view_set_available_resolutions |].
  intros _ ? _ _.
  apply quiet_bind.
  { destruct (get_camera_specs drv id) as [|[mw mh] rest];
      [apply quiet_ret | apply quiet_set_resolution]. }
  intros _ ? _ _. apply quiet_this. apply quiet_cap_set.
Qed.

Lemma open_camera_unfold (drv : Driver) (w : world) :
  open_camera drv w =
  bind (match cap (self w) with
        | Some _ => cap_release
        | None => ret tt
        end) (fun _ =>
  bind (assign (set_cap (Some (Cap (camera_id (self w))
                                 (device_opens drv (camera_id (self w)))
                                 (on_open drv (camera_id (self w))))))) (fun _ =>
  bind (emit (CapOpen (camera_id (self w))
                (device_opens drv (camera_id (self w))))) (fun _ =>
  if device_opens drv (camera_id (self w))
  then configure_opened drv (camera_id (self w))
  else raise (CameraError (camera_id (self w)))))) w.
Proof. reflexivity. Qed.

(** [open_camera] seen through [view_of]: the result depends on the device
    alone, the old handle is released before the new one is opened, and
    nothing else a view shows changes. *)
Lemma open_camera_view (drv : Driver) (w : world) :
  let id := camera_id (self w) in
  let ok := device_opens drv id in
  exists w',
    open_camera drv w = (if ok then Ok tt else Raise (CameraError id), w') /\
    view_of w' =
      View id (Some (id, ok)) (frame_queue (self w)) (current_frame (self w))
        (capture_thread (self w)) (running (self w)) (alive w) (reading w)
        (spawned w)
        (steps (log w) ++ open_steps (cap (self w)) id ok).
Proof.
  rewrite open_camera_unfold.
  destruct w as [[cid c wd ht fp mf ar fq cf ct rn] al rd sp lg].
  cbn [self camera_id cap frame_queue current_frame capture_thread running
       alive reading spawned log].
  set (ok := device_opens drv cid).
  set (s0 := Streamer cid c wd ht fp mf ar fq cf ct rn).
  set (w1 :=
    World (set_cap (Some (Cap cid ok (on_open drv cid))) s0) al rd sp
      (lg ++ open_steps c cid ok)).
  assert (Hprefix : forall k : M unit,
    bind (match c with
          | Some _ => cap_release
          | None => ret tt
          end) (fun _ =>
    bind (assign (set_cap (Some (Cap cid ok (on_open drv cid))))) (fun _ =>
    bind (emit (CapOpen cid ok)) (fun _ => k))) (World s0 al rd sp lg) = k w1).
  { intros k. subst w1 s0.
    destruct c as [[d o st]|]; unfold bind, cap_release, this, assign,
      emit, ret, open_steps; simpl; rewrite <- ?app_assoc; reflexivity. }
  rewrite Hprefix.
  assert (Hview1 : view_of w1 =
    View cid (Some (cid, ok)) fq cf ct rn al rd sp
      (steps lg ++ open_steps c cid ok)).
  { subst w1 s0. unfold view_of. simpl. rewrite steps_app. f_equal.
    destruct c; reflexivity. }
  destruct ok eqn:Hok.
  - assert (Hcap1 : has_cap w1) by (subst w1; discriminate).
    destruct (quiet_configure drv cid w1 Hcap1) as [[] [w' [E Ev]]].
    exists w'. split; [exact E | congruence].
  - exists w1. split; [reflexivity | exact Hview1].
Qed.


(** ** What the view-level functions leave alone *)

Lemma publish_view_kept (f : frame) (v : view) :
  v_camera_id (publish_view f v) = v_camera_id v /\
  v_handle (publish_view f v) = v_handle v /\
  v_current (publish_view f v) = v_current v /\
  v_thread (publish_view f v) = v_thread v /\
  v_running (publish_view f v) = v_running v /\
  v_spawned (publish_view f v) = v_spawned v.
Proof. repeat split. Qed.

Lemma capture_view_kept (tid : nat) (shot : option (list Z)) (v : view) :
  v_camera_id (capture_view tid shot v) = v_camera_id v /\
  v_handle (capture_view tid shot v) = v_handle v /\
  v_current (capture_view tid shot v) = v_current v /\
  v_thread (capture_view tid shot v) = v_thread v /\
  v_running (capture_view tid shot v) = v_running v /\
  v_spawned (capture_view tid shot v) = v_spawned v.
Proof.
  unfold capture_view.
  destruct (lookup_read tid (v_reading v)) as [[f|]|]; try (repeat split; fail).
  destruct (v_running v) eqn:Hr.
  - destruct (v_handle v) as [[dev [|]]|] eqn:Hh; cbn; rewrite ?Hr, ?Hh;
      repeat split.
  - cbn. rewrite ?Hr. repeat split.
Qed.

Lemma relay_view_kept (tid : nat) (shot : option (list Z)) (v : view) :
  v_camera_id (relay_view tid shot v) = v_camera_id v /\
  v_handle (relay_view tid shot v) = v_handle v /\
  v_current (relay_view tid shot v) = v_current v /\
  v_thread (relay_view tid shot v) = v_thread v /\
  v_running (relay_view tid shot v) = v_running v /\
  v_spawned (relay_view tid shot v) = v_spawned v.
Proof.
  unfold relay_view. destruct (bool_decide _); [| repeat split].
  apply capture_view_kept.
Qed.

Lemma wait_view_kept (tid : nat) (l : list (nat * option (list Z))) :
  forall v,
    v_camera_id (wait_view tid l v) = v_camera_id v /\
    v_handle (wait_view tid l v) = v_handle v /\
    v_current (wait_view tid l v) = v_current v /\
    v_thread (wait_view tid l v) = v_thread v /\
    v_running (wait_view tid l v) = v_running v /\
    v_spawned (wait_view tid l v) = v_spawned v.
Proof.
  induction l as [|[t shot] l IH]; intros v; cbn [wait_view]; [repeat split |].
  destruct (bool_decide _); [| repeat split].
  destruct (IH (relay_view t shot v)) as [-> [-> [-> [-> [-> ->]]]]].
  apply relay_view_kept.
Qed.

Lemma stop_view_kept (drv : Driver) (v : view) :
  v_camera_id (stop_view drv v) = v_camera_id v /\
  v_handle (stop_view drv v) = v_handle v /\
  v_current (stop_view drv v) = v_current v /\
  v_thread (stop_view drv v) = v_thread v /\
  v_running (stop_view drv v) = false /\
  v_spawned (stop_view drv v) = v_spawned v.
Proof.
  unfold stop_view. destruct (v_thread v) as [tid|] eqn:Ht; [| repeat split; auto].
  unfold join_view. cbn [with_steps v_camera_id v_handle v_current v_thread
                          v_running v_spawned].
  destruct (wait_view_kept tid
              (while_joining drv
                 (joins (v_steps (with_steps [RelaySignal false]
                                    (with_running false v)))) tid)
              (with_steps [RelaySignal false] (with_running false v)))
    as [-> [-> [-> [-> [-> ->]]]]].
  repeat split; auto.
Qed.

(** ** The methods compute the view-level functions *)

Lemma joins_steps (evs : list event) : joins (steps evs) = joins evs.
Proof.
  unfold joins, steps. induction evs as [|e evs IH]; [reflexivity |].
  destruct e; cbn; try exact IH. f_equal. exact IH.
Qed.

Lemma view_publish_frame (f : frame) (w : world) :
  exists w',
    publish_frame f w = (Ok tt, w') /\ view_of w' = publish_view f (view_of w).
Proof.
  destruct w as [[cid c wd ht fp mf ar fq cf ct rn] al rd sp lg].
  unfold publish_frame, publish_view, publish_steps, publish, view_of, bind,
    this, assign, emit, ret.
  cbn -[PyQueue.full PyQueue.put_nowait].
  destruct (PyQueue.full fq) eqn:Hfull; cbn -[PyQueue.full PyQueue.put_nowait].
  - destruct fq as [|g q']; cbn -[PyQueue.full PyQueue.put_nowait].
    + destruct (PyQueue.put_nowait f []) eqn:Hput;
        cbn -[PyQueue.full PyQueue.put_nowait];
        eexists; (split; [reflexivity |]); cbn;
        rewrite ?steps_app, ?app_nil_r; reflexivity.
    + destruct (PyQueue.put_nowait f q') eqn:Hput;
        cbn -[PyQueue.full PyQueue.put_nowait];
        eexists; (split; [reflexivity |]); cbn;
        rewrite ?steps_app, <- ?app_assoc, ?app_nil_r; reflexivity.
  - destruct (PyQueue.put_nowait f fq) eqn:Hput;
      cbn -[PyQueue.full PyQueue.put_nowait];
      eexists; (split; [reflexivity |]); cbn;
      rewrite ?steps_app, ?app_nil_r; reflexivity.
Qed.

Lemma view_cap_read_opened (drv : Driver) (shot : option (list Z)) (w : world)
    (c : VideoCapture) :
  cap (self w) = Some c -> isOpened c = true ->
  exists w',
    cap_read drv shot w = (Ok (option_map (Frame (device c)) shot), w') /\
    view_of w' = view_of w.
Proof.
  intros Hc Ho.
  destruct w as [[cid c0 wd ht fp mf ar fq cf ct rn] al rd sp lg].
  cbn in Hc. subst c0. destruct c as [d o st]. cbn in Ho. subst o.
  eexists. split; [reflexivity |].
  unfold view_of. cbn. rewrite steps_config by reflexivity. reflexivity.
Qed.

Lemma view_capture_iteration (drv : Driver) (tid : nat)
    (shot : option (list Z)) (w : world) :
  exists w',
    capture_iteration drv tid shot w = (Ok tt, w') /\
    view_of w' = capture_view tid shot (view_of w).
Proof.
  unfold capture_iteration, capture_view.
  change (bind (pending_read tid) ?k w) with (k (lookup_read tid (reading w)) w).
  cbv beta. change (v_reading (view_of w)) with (reading w).
  destruct (lookup_read tid (reading w)) as [got|].
  - set (w1 := World (self w) (alive w) (without_read tid (reading w))
                 (spawned w) (log w)).
    change (bind (leave_read tid) ?k w) with (k tt w1). cbv beta.
    assert (Hv1 : view_of w1
                  = with_reading (without_read tid (reading w)) (view_of w))
      by reflexivity.
    destruct got as [f|].
    + rewrite <- Hv1. apply view_publish_frame.
    + exists w1. split; [reflexivity | exact Hv1].
  - change (bind this ?k w) with (k (self w) w). cbv beta.
    change (v_running (view_of w)) with (running (self w)).
    destruct (running (self w)) eqn:Hrun.
    + change (v_handle (view_of w))
        with (option_map (fun c => (device c, isOpened c)) (cap (self w))).
      destruct (cap (self w)) as [c|] eqn:Hc; cbn [option_map].
      * destruct (isOpened c) eqn:Ho.
        -- destruct (view_cap_read_opened drv shot w c Hc Ho) as [w1 [E1 Ev1]].
           rewrite (bind_ok _ _ _ _ _ E1).
           eexists. split; [reflexivity |].
           unfold view_of in Ev1 |- *. cbn.
           injection Ev1 as H1 H2 H3 H4 H5 H6 H7 H8 H9 H10.
           unfold with_reading. cbn.
           rewrite H1, H2, H3, H4, H5, H6, H7, H8, H9. f_equal. exact H10.
        -- exists w. split; reflexivity.
      * exists w. split; reflexivity.
    + destruct w as [[cid c wd ht fp mf ar fq cf ct rn] al rd sp lg].
      cbn in Hrun. subst rn.
      eexists. split; [reflexivity |].
      unfold view_of. cbn. rewrite steps_app. reflexivity.
Qed.

Lemma view_relay_step (drv : Driver) (tid : nat) (shot : option (list Z))
    (w : world) :
  exists w',
    relay_step drv tid shot w = (Ok tt, w') /\
    view_of w' = relay_view tid shot (view_of w).
Proof.
  unfold relay_step, relay_view.
  change (bind (is_alive tid) ?k w) with (k (bool_decide (tid ∈ alive w)) w).
  cbv beta. change (v_alive (view_of w)) with (alive w).
  destruct (bool_decide (tid ∈ alive w)).
  - apply view_capture_iteration.
  - exists w. split; reflexivity.
Qed.

Lemma view_wait_for (drv : Driver) (tid : nat)
    (l : list (nat * option (list Z))) :
  forall w,
    exists w',
      wait_for drv tid l w = (Ok tt, w') /\
      view_of w' = wait_view tid l (view_of w).
Proof.
  induction l as [|[t shot] l IH]; intros w; cbn [wait_for wait_view].
  - exists w. split; reflexivity.
  - change (bind (is_alive tid) ?k w) with (k (bool_decide (tid ∈ alive w)) w).
    cbv beta. change (v_alive (view_of w)) with (alive w).
    destruct (bool_decide (tid ∈ alive w)).
    + destruct (view_relay_step drv t shot w) as [w1 [E1 Ev1]].
      rewrite (bind_ok _ _ _ _ _ E1). rewrite <- Ev1. apply IH.
    + exists w. split; reflexivity.
Qed.

Lemma view_join (drv : Driver) (tid : nat) (w : world) :
  exists w',
    join drv tid w = (Ok tt, w') /\ view_of w' = join_view drv tid (view_of w).
Proof.
  unfold join, join_view.
  change (bind joins_so_far ?k w) with (k (joins (log w)) w). cbv beta.
  change (v_steps (view_of w)) with (steps (log w)). rewrite joins_steps.
  destruct (view_wait_for drv tid (while_joining drv (joins (log w)) tid) w)
    as [w1 [E1 Ev1]].
  rewrite (bind_ok _ _ _ _ _ E1). rewrite <- Ev1.
  eexists. split; [reflexivity |].
  unfold view_of, with_steps. cbn. rewrite steps_app. reflexivity.
Qed.

Lemma view_stop_capture_thread (drv : Driver) (w : world) :
  exists w',
    stop_capture_thread drv w = (Ok tt, w') /\
    view_of w' = stop_view drv (view_of w).
Proof.
  destruct w as [[cid c wd ht fp mf ar fq cf ct rn] al rd sp lg].
  set (w0 := World (Streamer cid c wd ht fp mf ar fq cf ct false) al rd sp
               (lg ++ [RelaySignal false])).
  assert (Hv0 : view_of w0
                = with_steps [RelaySignal false]
                    (with_running false
                       (view_of (World (Streamer cid c wd ht fp mf ar fq cf ct rn)
                                   al rd sp lg)))).
  { unfold view_of, with_steps, with_running. cbn. rewrite steps_app.
    reflexivity. }
  unfold stop_view. cbn [view_of v_thread self capture_thread].
  destruct ct as [tid|].
  - change (stop_capture_thread drv
              (World (Streamer cid c wd ht fp mf ar fq cf (Some tid) rn)
                 al rd sp lg))
      with (join drv tid w0).
    fold (view_of (World (Streamer cid c wd ht fp mf ar fq cf (Some tid) rn)
                     al rd sp lg)).
    rewrite <- Hv0. apply view_join.
  - exists w0. split; [reflexivity |]. exact Hv0.
Qed.

Lemma view_start_capture_thread (drv : Driver) (w : world) :
  exists w',
    start_capture_thread drv w = (Ok tt, w') /\
    view_of w' = start_view drv (view_of w).
Proof.
  unfold start_capture_thread, start_view.
  assert (Htail : forall w1,
    exists w',
      bind (assign (set_running true)) (fun _ =>
      bind (emit (RelaySignal true)) (fun _ =>
      bind thread_start (fun tid =>
      assign (set_capture_thread (Some tid))))) w1 = (Ok tt, w') /\
      view_of w' =
        View (v_camera_id (view_of w1)) (v_handle (view_of w1))
          (v_queue (view_of w1)) (v_current (view_of w1))
          (Some (v_spawned (view_of w1))) true
          (v_alive (view_of w1) ++ [v_spawned (view_of w1)])
          (v_reading (view_of w1))
          (S (v_spawned (view_of w1)))
          (v_steps (view_of w1)
           ++ [RelaySignal true; RelayStart (v_spawned (view_of w1))])).
  { intros [[cid c wd ht fp mf ar fq cf ct rn] al rd sp lg].
    eexists. split; [reflexivity |].
    unfold view_of. cbn. rewrite !steps_app. cbn.
    rewrite <- !app_assoc. reflexivity. }
  assert (Hguard : exists w1,
    match capture_thread (self w) with
    | Some tid =>
        bind (is_alive tid) (fun live =>
          if live then stop_capture_thread drv else ret tt)
    | None => ret tt
    end w = (Ok tt, w1) /\
    view_of w1 =
      match v_thread (view_of w) with
      | Some tid =>
          if bool_decide (tid ∈ v_alive (view_of w))
          then stop_view drv (view_of w) else view_of w
      | None => view_of w
      end).
  { change (v_thread (view_of w)) with (capture_thread (self w)).
    destruct (capture_thread (self w)) as [tid|].
    - unfold bind, is_alive. change (v_alive (view_of w)) with (alive w).
      destruct (bool_decide (tid ∈ alive w)).
      + apply view_stop_capture_thread.
      + exists w. split; reflexivity.
    - exists w. split; reflexivity. }
  destruct Hguard as [w1 [E1 Ev1]].
  change (bind this ?k w) with (k (self w) w). cbv beta.
  rewrite (bind_ok _ _ _ _ _ E1).
  destruct (Htail w1) as [w' [E Ev]]. exists w'. split; [exact E |].
  rewrite Ev, Ev1. reflexivity.
Qed.

Lemma view_get_frame (drv : Driver) (w : world) :
  exists w',
    get_frame drv w =
      (match next_frame (view_of w) with
       | Some f => encoded drv f
       | None => Ok None
       end, w') /\
    view_of w' = get_view (view_of w).
Proof.
  destruct w as [[cid c wd ht fp mf ar fq cf ct rn] al rd sp lg].
  unfold get_frame, get_view, next_frame, encoded, view_of, bind, this, assign,
    emit, ret, raise.
  cbn. destruct fq as [|f q']; cbn.
  - destruct cf as [f|]; cbn.
    + destruct (imencode drv (pixels f)); eexists; split; reflexivity.
    + eexists; split; reflexivity.
  - destruct (imencode drv (pixels f)); eexists; (split; [reflexivity |]);
      cbn; rewrite !steps_app, <- !app_assoc; reflexivity.
Qed.

Lemma view_drain (q : PyQueue.t) :
  forall w,
    frame_queue (self w) = q ->
    exists w',
      drain q w = (Ok tt, w') /\
      view_of w' =
        View (v_camera_id (view_of w)) (v_handle (view_of w)) []
          (v_current (view_of w)) (v_thread (view_of w))
          (v_running (view_of w)) (v_alive (view_of w))
          (v_reading (view_of w))
          (v_spawned (view_of w)) (v_steps (view_of w) ++ map SlotGet q).
Proof.
  induction q as [|f q' IH]; intros w Hq.
  - exists w. split; [reflexivity |].
    destruct w as [[cid c wd ht fp mf ar fq cf ct rn] al rd sp lg].
    cbn in Hq. subst fq. unfold view_of. cbn. rewrite app_nil_r. reflexivity.
  - destruct w as [[cid c wd ht fp mf ar fq cf ct rn] al rd sp lg].
    cbn [drain].
    set (w1 := World (Streamer cid c wd ht fp mf ar q' cf ct rn) al rd sp
                 (lg ++ [SlotGet f])).
    destruct (IH w1 eq_refl) as [w' [E Ev]].
    exists w'. split.
    + exact E.
    + rewrite Ev. subst w1. unfold view_of. cbn.
      rewrite steps_app, <- app_assoc. reflexivity.
Qed.

Lemma open_steps_handle (c : option VideoCapture) (id : Z) (ok : bool) :
  open_steps c id ok =
  match option_map (fun c => (device c, isOpened c)) c with
  | Some (old, _) => [CapRelease old; CapOpen id ok]
  | None => [CapOpen id ok]
  end.
Proof. destruct c; reflexivity. Qed.

Lemma view_switch_camera (drv : Driver) (id : Z) (w : world) :
  exists w',
    switch_camera drv id w =
      (if device_opens drv id then Ok true else Raise (CameraError id), w') /\
    view_of w' = switch_view drv id (view_of w).
Proof.
  unfold switch_camera.
  (* stop the relay *)
  destruct (view_stop_capture_thread drv w) as [w1 [E1 Ev1]].
  rewrite (bind_ok _ _ _ _ _ E1).
  (* self.camera_id = camera_id *)
  set (w2 := World (set_camera_id id (self w1)) (alive w1) (reading w1)
               (spawned w1) (log w1)).
  assert (E2 : assign (set_camera_id id) w1 = (Ok tt, w2)) by reflexivity.
  rewrite (bind_ok _ _ _ _ _ E2).
  change (bind this ?k w2) with (k (self w2) w2). cbv beta.
  (* drain the queue *)
  destruct (view_drain (frame_queue (self w2)) w2 eq_refl) as [w3 [E3 Ev3]].
  rewrite (bind_ok _ _ _ _ _ E3).
  (* clear the last-known frame *)
  set (w4 := World (set_current_frame None (self w3)) (alive w3) (reading w3)
               (spawned w3) (log w3 ++ [LastKnown None])).
  assert (E4 : bind (assign (set_current_frame None))
                 (fun _ => emit (LastKnown None)) w3 = (Ok tt, w4))
    by reflexivity.
  set (v1 := stop_view drv (view_of w)) in *.
  assert (Ev4 : view_of w4 =
    View id (v_handle v1) [] None (v_thread v1) (v_running v1) (v_alive v1)
      (v_reading v1) (v_spawned v1)
      (v_steps v1 ++ map SlotGet (v_queue v1) ++ [LastKnown None])).
  { rewrite <- Ev1.
    change (frame_queue (self w2)) with (v_queue (view_of w1)) in Ev3.
    subst w4. unfold view_of at 1. cbn.
    rewrite steps_app.
    change (option_map (fun c => (device c, isOpened c)) (cap (self w3)))
      with (v_handle (view_of w3)).
    change (camera_id (self w3)) with (v_camera_id (view_of w3)).
    change (frame_queue (self w3)) with (v_queue (view_of w3)).
    change (capture_thread (self w3)) with (v_thread (view_of w3)).
    change (running (self w3)) with (v_running (view_of w3)).
    change (alive w3) with (v_alive (view_of w3)).
    change (reading w3) with (v_reading (view_of w3)).
    change (spawned w3) with (v_spawned (view_of w3)).
    change (steps (log w3)) with (v_steps (view_of w3)).
    rewrite Ev3. cbn. rewrite <- app_assoc. reflexivity. }
  change (bind (assign (set_current_frame None)) ?k w3)
    with (bind (bind (assign (set_current_frame None))
                  (fun _ => emit (LastKnown None)))
            (fun _ => bind (open_camera drv)
                        (fun _ => bind (start_capture_thread drv)
                                    (fun _ => ret true))) w3).
  rewrite (bind_ok _ _ _ _ _ E4).
  (* open the new device *)
  assert (Hid4 : camera_id (self w4) = id).
  { change (camera_id (self w4)) with (v_camera_id (view_of w4)).
    rewrite Ev4. reflexivity. }
  destruct (open_camera_view drv w4) as [w5 [E5 Ev5]].
  rewrite Hid4 in E5, Ev5.
  assert (Ev5' : view_of w5 = switch_opened_view drv id (view_of w)).
  { rewrite Ev5. rewrite open_steps_handle.
    change (option_map (fun c => (device c, isOpened c)) (cap (self w4)))
      with (v_handle (view_of w4)).
    change (frame_queue (self w4)) with (v_queue (view_of w4)).
    change (current_frame (self w4)) with (v_current (view_of w4)).
    change (capture_thread (self w4)) with (v_thread (view_of w4)).
    change (running (self w4)) with (v_running (view_of w4)).
    change (alive w4) with (v_alive (view_of w4)).
    change (reading w4) with (v_reading (view_of w4)).
    change (spawned w4) with (v_spawned (view_of w4)).
    change (steps (log w4)) with (v_steps (view_of w4)).
    rewrite Ev4. unfold switch_opened_view. fold v1. cbn.
    destruct (stop_view_kept drv (view_of w)) as [_ [Hh _]]. fold v1 in Hh.
    rewrite Hh. rewrite <- !app_assoc. reflexivity. }
  unfold switch_view.
  destruct (device_opens drv id) eqn:Hok.
  - rewrite (bind_ok _ _ _ _ _ E5).
    destruct (view_start_capture_thread drv w5) as [w6 [E6 Ev6]].
    rewrite (bind_ok _ _ _ _ _ E6).
    exists w6. split; [reflexivity |]. rewrite Ev6, Ev5'. reflexivity.
  - rewrite (bind_raise _ _ _ _ _ E5).
    exists w5. split; [reflexivity | exact Ev5'].
Qed.

Lemma view_act (drv : Driver) (w : world) (a : action) :
  view_of (act drv w a) = act_view drv (view_of w) a.
Proof.
  destruct a as [tid shot | | id]; cbn [act act_view].
  - destruct (view_relay_step drv tid shot w) as [w' [E Ev]]. rewrite E. exact Ev.
  - destruct (view_get_frame drv w) as [w' [E Ev]]. rewrite E. exact Ev.
  - destruct (view_switch_camera drv id w) as [w' [E Ev]]. rewrite E. exact Ev.
Qed.

Lemma view_run_actions (drv : Driver) (acts : list action) :
  forall w,
    view_of (run_actions drv acts w) = run_view drv acts (view_of w).
Proof.
  induction acts as [|a acts IH]; intros w; [reflexivity |].
  cbn [run_actions run_view fold_left].
  change (fold_left (act drv) acts (act drv w a))
    with (run_actions drv acts (act drv w a)).
  rewrite IH, view_act. reflexivity.
Qed.

Lemma view_init (drv : Driver) (id : Z) :
  (init drv id).1 = Ok tt ->
  device_opens drv id = true /\ view_of (init drv id).2 = init_view id.
Proof.
  unfold init.
  set (w0 := World (new_streamer id) [] [] 0%nat []).
  destruct (open_camera_view drv w0) as [w1 [E1 Ev1]].
  cbn [w0 self new_streamer camera_id cap frame_queue current_frame
       capture_thread running alive reading spawned log] in E1, Ev1.
  destruct (device_opens drv id) eqn:Hok.
  - rewrite (bind_ok _ _ _ _ _ E1).
    destruct (view_start_capture_thread drv w1) as [w2 [E2 Ev2]].
    rewrite E2. intros _. split; [reflexivity |].
    cbn [snd]. rewrite Ev2, Ev1. reflexivity.
  - rewrite (bind_raise _ _ _ _ _ E1). discriminate.
Qed.

Lemma reachable_view (drv : Driver) (w : world) :
  reachable drv w ->
  exists id acts,
    device_opens drv id = true /\
    view_of w = run_view drv acts (init_view id).
Proof.
  intros [id [acts [Hinit ->]]].
  destruct (view_init drv id Hinit) as [Hok Hv].
  exists id, acts. split; [exact Hok |].
  rewrite view_run_actions, Hv. reflexivity.
Qed.


(** ** Reading the event log *)

Lemma puts_since_clear_app (l l' : list event) :
  forall acc,
    puts_since_clear acc (l ++ l')
    = puts_since_clear (puts_since_clear acc l) l'.
Proof.
  induction l as [|e l IH]; intros acc; [reflexivity |].
  destruct e as [| | | | |f|[f|]| | | |]; cbn; apply IH.
Qed.

Lemma last_handed_out_app (l l' : list event) :
  forall acc,
    last_handed_out acc (l ++ l')
    = last_handed_out (last_handed_out acc l) l'.
Proof.
  induction l as [|e l IH]; intros acc; [reflexivity |].
  destruct e; cbn; apply IH.
Qed.

Lemma relays_running_app (l l' : list event) :
  forall live,
    relays_running live (l ++ l')
    = relays_running (relays_running live l) l'.
Proof.
  induction l as [|e l IH]; intros live; [reflexivity |].
  destruct e; cbn; apply IH.
Qed.

Lemma relay_peak_app (l l' : list event) :
  forall live,
    relay_peak live (l ++ l')
    = Nat.max (relay_peak live l) (relay_peak (relays_running live l) l').
Proof.
  induction l as [|e l IH]; intros live.
  - cbn [app relay_peak relays_running]. destruct l' as [|e' l'].
    + cbn. lia.
    + cbn [relay_peak]. lia.
  - cbn [app relay_peak]. rewrite IH.
    assert (E : relays_running live (e :: l)
                = relays_running (relays_running live [e]) l).
    { destruct e; reflexivity. }
    rewrite E. lia.
Qed.

Lemma relay_peak_ge_start (l : list event) (live : list nat) :
  (length live <= relay_peak live l)%nat.
Proof. destruct l; cbn [relay_peak]; lia. Qed.

(** The peak bounds the number of relays after every prefix of the log. *)
Lemma relay_peak_prefix (l1 l2 : list event) (live : list nat) :
  (length (relays_running live l1) <= relay_peak live (l1 ++ l2))%nat.
Proof.
  rewrite relay_peak_app.
  pose proof (relay_peak_ge_start l2 (relays_running live l1)). lia.
Qed.



Lemma relays_running_steps (l : list event) :
  forall live, relays_running live (steps l) = relays_running live l.
Proof.
  induction l as [|e l IH]; intros live; [reflexivity |].
  destruct e; cbn; apply IH.
Qed.

Lemma relay_peak_steps (l : list event) :
  forall live, relay_peak live (steps l) = relay_peak live l.
Proof.
  induction l as [|e l IH]; intros live; [reflexivity |].
  destruct e; cbn [steps List.filter is_config negb relay_peak relays_running];
    fold (steps l); rewrite ?IH; try reflexivity.
  - (* CapSet *)
    pose proof (relay_peak_ge_start l live). lia.
  - (* CapRead *)
    pose proof (relay_peak_ge_start l live). lia.
Qed.

Lemma relays_running_neutral (evs : list event) (live : list nat) :
  forallb (fun e => negb (relay_event e)) evs = true ->
  relays_running live evs = live /\ relay_peak live evs = length live.
Proof.
  revert live. induction evs as [|e evs IH]; intros live H; [split; reflexivity |].
  cbn [forallb] in H. apply andb_true_iff in H as [He Hevs].
  destruct (IH live Hevs) as [IH1 IH2].
  destruct e; try discriminate; cbn [relays_running relay_peak];
    rewrite ?IH1, ?IH2; (split; [reflexivity | apply Nat.max_id]).
Qed.

Lemma slot_neutral (evs : list event) :
  forallb (fun e => negb (slot_event e)) evs = true ->
  (forall acc, puts_since_clear acc evs = acc) /\
  (forall acc, last_handed_out acc evs = acc).
Proof.
  induction evs as [|e evs IH]; intros H; [split; reflexivity |].
  cbn [forallb] in H. apply andb_true_iff in H as [He Hevs].
  destruct (IH Hevs) as [IH1 IH2].
  destruct e; try discriminate; cbn [puts_since_clear last_handed_out];
    split; auto.
Qed.

Lemma slot_gets_neutral (q : PyQueue.t) :
  forallb (fun e => negb (slot_event e)) (map SlotGet q) = true /\
  forallb (fun e => negb (relay_event e)) (map SlotGet q) = true.
Proof. induction q as [|f q [IH1 IH2]]; cbn; auto. Qed.


(** The publish step on a queue within its bound: what it stores and
    what it logs. *)
Lemma publish_cases (f : frame) (q : PyQueue.t) :
  (length q <= BUFFER_SIZE)%nat ->
  (exists a b, q = [a; b] /\ publish f q = [b; f] /\
               publish_steps f q = [SlotGet a; SlotPut f]) \/
  ((length q < BUFFER_SIZE)%nat /\ publish f q = q ++ [f] /\
   publish_steps f q = [SlotPut f]).
Proof.
  unfold BUFFER_SIZE. intros H.
  destruct q as [|a [|b [|c q]]]; cbn in H; try lia.
  - right. split; [cbn; lia |]. split; reflexivity.
  - right. split; [cbn; lia |]. split; reflexivity.
  - left. exists a, b. split; [reflexivity |]. split; reflexivity.
Qed.


Lemma joined_in_time_app (l l' : list event) :
  joined_in_time (l ++ l') = joined_in_time l && joined_in_time l'.
Proof. unfold joined_in_time. apply forallb_app. Qed.

Lemma joined_in_time_steps (l : list event) :
  joined_in_time (steps l) = joined_in_time l.
Proof.
  unfold joined_in_time, steps. induction l as [|e l IH]; [reflexivity |].
  destruct e; cbn; rewrite ?IH; reflexivity.
Qed.

Lemma joined_in_time_publish (f : frame) (q : PyQueue.t) :
  joined_in_time (publish_steps f q) = true.
Proof.
  unfold publish_steps.
  destruct (PyQueue.full q); [destruct q |];
    destruct (PyQueue.put_nowait f _); reflexivity.
Qed.


(** ** The steps only grow *)

Lemma extends_refl (v : view) : extends v v.
Proof. exists []. rewrite app_nil_r. reflexivity. Qed.

Lemma extends_trans (v1 v2 v3 : view) :
  extends v1 v2 -> extends v2 v3 -> extends v1 v3.
Proof.
  intros [e1 H1] [e2 H2]. exists (e1 ++ e2). rewrite H2, H1, app_assoc.
  reflexivity.
Qed.

Lemma extends_in_time (v v' : view) :
  extends v v' ->
  joined_in_time (v_steps v') = true -> joined_in_time (v_steps v) = true.
Proof.
  intros [evs ->]. rewrite joined_in_time_app. intros H.
  apply andb_true_iff in H as [H _]. exact H.
Qed.

Lemma capture_view_extends (tid : nat) (shot : option (list Z)) (v : view) :
  extends v (capture_view tid shot v).
Proof.
  unfold capture_view.
  destruct (lookup_read tid (v_reading v)) as [[f|]|].
  - eexists. reflexivity.
  - apply (extends_refl v).
  - destruct (v_running v).
    + destruct (v_handle v) as [[dev [|]]|]; apply (extends_refl v).
    + eexists. reflexivity.
Qed.

Lemma relay_view_extends (tid : nat) (shot : option (list Z)) (v : view) :
  extends v (relay_view tid shot v).
Proof.
  unfold relay_view. destruct (bool_decide _);
    [apply capture_view_extends | apply extends_refl].
Qed.

Lemma wait_view_extends (tid : nat) (l : list (nat * option (list Z))) :
  forall v, extends v (wait_view tid l v).
Proof.
  induction l as [|[t shot] l IH]; intros v; cbn [wait_view];
    [apply extends_refl |].
  destruct (bool_decide _); [| apply extends_refl].
  eapply extends_trans; [apply relay_view_extends | apply IH].
Qed.

Lemma stop_view_extends (drv : Driver) (v : view) : extends v (stop_view drv v).
Proof.
  unfold stop_view.
  assert (H0 : extends v (with_steps [RelaySignal false] (with_running false v)))
    by (eexists; reflexivity).
  destruct (v_thread v) as [tid|]; [| exact H0].
  eapply extends_trans; [exact H0 |]. unfold join_view.
  eapply extends_trans; [apply wait_view_extends |]. eexists. reflexivity.
Qed.

Lemma start_view_extends (drv : Driver) (v : view) :
  extends v (start_view drv v).
Proof.
  unfold start_view.
  set (v1 := match v_thread v with
             | Some tid =>
                 if bool_decide (tid ∈ v_alive v) then stop_view drv v else v
             | None => v
             end).
  assert (H1 : extends v v1).
  { subst v1. destruct (v_thread v); [destruct (bool_decide _) |];
      try apply extends_refl. apply stop_view_extends. }
  eapply extends_trans; [exact H1 |]. eexists. reflexivity.
Qed.

Lemma switch_opened_view_extends (drv : Driver) (id : Z) (v : view) :
  extends (stop_view drv v) (switch_opened_view drv id v).
Proof. eexists. reflexivity. Qed.

Lemma switch_view_extends (drv : Driver) (id : Z) (v : view) :
  extends v (switch_view drv id v).
Proof.
  assert (H : extends v (switch_opened_view drv id v)).
  { eapply extends_trans;
      [apply stop_view_extends | apply switch_opened_view_extends]. }
  unfold switch_view. destruct (device_opens drv id); [| exact H].
  eapply extends_trans; [exact H | apply start_view_extends].
Qed.

Lemma get_view_extends (v : view) : extends v (get_view v).
Proof.
  unfold get_view. destruct (v_queue v); [apply extends_refl |].
  eexists. reflexivity.
Qed.

Lemma act_view_extends (drv : Driver) (v : view) (a : action) :
  extends v (act_view drv v a).
Proof.
  destruct a; cbn [act_view].
  - apply relay_view_extends.
  - apply get_view_extends.
  - apply switch_view_extends.
Qed.

Lemma run_view_extends (drv : Driver) (acts : list action) :
  forall v, extends v (run_view drv acts v).
Proof.
  induction acts as [|a acts IH]; intros v; [apply extends_refl |].
  eapply extends_trans; [apply act_view_extends | apply IH].
Qed.

(** ** Reads under way *)

Lemma lookup_read_none (tid : nat) (l : list (nat * option frame)) :
  lookup_read tid l = None -> forall got, ~ In (tid, got) l.
Proof.
  unfold lookup_read. intros H got Hin.
  destruct (List.find _ l) as [p|] eqn:Hf; [discriminate |].
  pose proof (List.find_none _ _ Hf _ Hin) as Hno. cbn in Hno.
  rewrite Nat.eqb_refl in Hno. discriminate.
Qed.


Lemma In_without_read (tid : nat) (l : list (nat * option frame))
    (p : nat * option frame) :
  In p (without_read tid l) -> In p l.
Proof. unfold without_read. intros H. apply List.filter_In in H as [H _]. exact H. Qed.

Lemma without_relay_single (tid : nat) : without_relay tid [tid] = [].
Proof. unfold without_relay. cbn. rewrite Nat.eqb_refl. reflexivity. Qed.

Lemma without_relay_nil (tid : nat) : without_relay tid [] = [].
Proof. reflexivity. Qed.

(** ** At most one relay, as long as no join times out *)

Lemma single_relay_init (id : Z) : single_relay (init_view id).
Proof.
  unfold single_relay, init_view. cbn.
  split; [right; exists 0%nat; split; reflexivity |].
  split; [tauto |]. split; [reflexivity | lia].
Qed.

(** Steps that neither start nor end a relay keep the invariant. *)
Lemma single_relay_ext (v v' : view) (evs : list event) :
  single_relay v ->
  v_alive v' = v_alive v -> v_thread v' = v_thread v ->
  (forall tid got, In (tid, got) (v_reading v') -> In tid (v_alive v)) ->
  v_steps v' = v_steps v ++ evs ->
  forallb (fun e => negb (relay_event e)) evs = true ->
  single_relay v'.
Proof.
  intros [Hone [Hrd [Hrun Hpeak]]] Ha Ht Hr Hs Hn. unfold single_relay.
  rewrite Ha, Ht, Hs, relays_running_app, relay_peak_app, Hrun.
  destruct (relays_running_neutral evs (v_alive v) Hn) as [-> ->].
  split; [exact Hone |]. split; [exact Hr |]. split; [reflexivity |].
  destruct Hone as [-> | [tid [-> _]]]; cbn; lia.
Qed.

Lemma publish_steps_neutral (f : frame) (q : PyQueue.t) :
  forallb (fun e => negb (relay_event e)) (publish_steps f q) = true.
Proof.
  unfold publish_steps.
  destruct (PyQueue.full q); [destruct q |];
    destruct (PyQueue.put_nowait f _); reflexivity.
Qed.

Lemma single_relay_capture (tid : nat) (shot : option (list Z)) (v : view) :
  single_relay v -> In tid (v_alive v) ->
  single_relay (capture_view tid shot v).
Proof.
  intros H Hlive. unfold capture_view.
  destruct (lookup_read tid (v_reading v)) as [got|] eqn:Hlook.
  - assert (Hsub : forall t g,
               In (t, g) (without_read tid (v_reading v)) -> In t (v_alive v)).
    { intros t g Hin. apply In_without_read in Hin.
      exact (proj1 (proj2 H) t g Hin). }
    destruct got as [f|].
    + eapply (single_relay_ext v _ (publish_steps f (v_queue v)));
        try reflexivity; [exact H | exact Hsub | apply publish_steps_neutral].
    + eapply (single_relay_ext v _ []); try reflexivity;
        [exact H | exact Hsub | cbn; rewrite app_nil_r; reflexivity].
  - destruct (v_running v).
    + destruct (v_handle v) as [[dev [|]]|]; try exact H.
      eapply (single_relay_ext v _ []); try reflexivity; [exact H | |].
      * cbn. intros t g Hin. apply in_app_or in Hin as [Hin | [[= <- _] | []]];
          [exact (proj1 (proj2 H) t g Hin) | exact Hlive].
      * cbn. rewrite app_nil_r. reflexivity.
    + destruct H as [Hone [Hrd [Hrun Hpeak]]]. unfold single_relay.
      cbn [with_steps with_alive v_alive v_thread v_steps v_reading].
      rewrite relays_running_app, relay_peak_app, Hrun.
      destruct Hone as [Hal | [t [Hal Ht]]].
      * rewrite Hal in Hlive. contradiction.
      * rewrite Hal in *. destruct Hlive as [<- | []].
        rewrite without_relay_single. cbn. rewrite Nat.eqb_refl. cbn.
        split; [left; reflexivity |]. split; [| split; [reflexivity | lia]].
        intros t' g Hin. pose proof (Hrd t' g Hin) as [<- | []].
        exact (lookup_read_none t _ Hlook g Hin).
Qed.

Lemma single_relay_relay (tid : nat) (shot : option (list Z)) (v : view) :
  single_relay v -> single_relay (relay_view tid shot v).
Proof.
  intros H. unfold relay_view.
  destruct (bool_decide (tid ∈ v_alive v)) eqn:Hlive; [| exact H].
  apply bool_decide_eq_true in Hlive. apply list_elem_of_In in Hlive.
  apply single_relay_capture; assumption.
Qed.

Lemma single_relay_wait (tid : nat) (l : list (nat * option (list Z))) :
  forall v, single_relay v -> single_relay (wait_view tid l v).
Proof.
  induction l as [|[t shot] l IH]; intros v H; cbn [wait_view]; [exact H |].
  destruct (bool_decide _); [| exact H].
  apply IH, single_relay_relay, H.
Qed.

Lemma reading_of_none (l : list (nat * option frame)) :
  (forall tid got, In (tid, got) l -> In tid (@nil nat)) -> l = [].
Proof.
  destruct l as [|[t g] l]; [reflexivity |]. intros H.
  destruct (H t g (or_introl eq_refl)).
Qed.

(** A stop whose join returns in time leaves no relay. *)
Lemma single_relay_stop (drv : Driver) (v : view) :
  single_relay v ->
  joined_in_time (v_steps (stop_view drv v)) = true ->
  single_relay (stop_view drv v) /\
  v_alive (stop_view drv v) = [] /\
  v_reading (stop_view drv v) = [].
Proof.
  intros H Hin. unfold stop_view in *.
  set (v0 := with_steps [RelaySignal false] (with_running false v)) in *.
  assert (H0 : single_relay v0).
  { eapply (single_relay_ext v v0 [RelaySignal false]); try reflexivity;
      [exact H | exact (proj1 (proj2 H))]. }
  destruct (v_thread v) as [tid|] eqn:Hth.
  - unfold join_view in *.
    set (v1 := wait_view tid (while_joining drv (joins (v_steps v0)) tid) v0)
      in *.
    assert (H1 : single_relay v1) by (apply single_relay_wait, H0).
    assert (Hth1 : v_thread v1 = Some tid).
    { destruct (wait_view_kept tid
                  (while_joining drv (joins (v_steps v0)) tid) v0)
        as [_ [_ [_ [E _]]]].
      fold v1 in E. rewrite E. exact Hth. }
    cbn [with_steps v_steps] in Hin. rewrite joined_in_time_app in Hin.
    apply andb_true_iff in Hin as [_ Hin]. cbn in Hin.
    destruct (bool_decide (tid ∈ v_alive v1)) eqn:Hlive; [discriminate |].
    apply bool_decide_eq_false in Hlive.
    assert (Hal : v_alive v1 = []).
    { destruct (proj1 H1) as [Hal | [t [Hal Ht]]]; [exact Hal |].
      exfalso. apply Hlive. rewrite Hal. rewrite Hth1 in Ht.
      injection Ht as <-. apply list_elem_of_singleton. reflexivity. }
    assert (Hrd : v_reading v1 = []).
    { apply reading_of_none. rewrite <- Hal. exact (proj1 (proj2 H1)). }
    split; [| split; [exact Hal | exact Hrd]].
    eapply (single_relay_ext v1 _ [RelayJoin tid false]); try reflexivity;
      [exact H1 | exact (proj1 (proj2 H1))].
  - assert (Hal : v_alive v0 = []).
    { destruct (proj1 H) as [Hal | [t [_ Ht]]]; [exact Hal | congruence]. }
    split; [exact H0 |]. split; [exact Hal |].
    apply reading_of_none. rewrite <- Hal. exact (proj1 (proj2 H0)).
Qed.

Lemma single_relay_start (drv : Driver) (v : view) :
  single_relay v ->
  joined_in_time (v_steps (start_view drv v)) = true ->
  single_relay (start_view drv v) /\
  v_alive (start_view drv v) = [v_spawned v] /\
  v_reading (start_view drv v) = [].
Proof.
  intros H Hin. unfold start_view in *.
  set (v1 := match v_thread v with
             | Some tid =>
                 if bool_decide (tid ∈ v_alive v) then stop_view drv v else v
             | None => v
             end) in *.
  cbn [v_steps] in Hin. rewrite joined_in_time_app in Hin.
  apply andb_true_iff in Hin as [Hin _].
  assert (H1 : single_relay v1 /\ v_alive v1 = [] /\ v_reading v1 = [] /\
               v_spawned v1 = v_spawned v).
  { subst v1. destruct (v_thread v) as [tid|] eqn:Hth.
    - destruct (bool_decide (tid ∈ v_alive v)) eqn:Hlive.
      + destruct (single_relay_stop drv v H Hin) as [Hs [Ha Hr]].
        destruct (stop_view_kept drv v) as [_ [_ [_ [_ [_ Hsp]]]]].
        split; [exact Hs |]. split; [exact Ha |]. split; assumption.
      + apply bool_decide_eq_false in Hlive.
        assert (Hal : v_alive v = []).
        { destruct (proj1 H) as [Hal | [t [Hal Ht]]]; [exact Hal |].
          exfalso. apply Hlive. rewrite Hal. rewrite Hth in Ht.
          injection Ht as <-. apply list_elem_of_singleton. reflexivity. }
        split; [exact H |]. split; [exact Hal |]. split; [| reflexivity].
        apply reading_of_none. rewrite <- Hal. exact (proj1 (proj2 H)).
    - assert (Hal : v_alive v = []).
      { destruct (proj1 H) as [Hal | [t [_ Ht]]]; [exact Hal | congruence]. }
      split; [exact H |]. split; [exact Hal |]. split; [| reflexivity].
      apply reading_of_none. rewrite <- Hal. exact (proj1 (proj2 H)). }
  destruct H1 as [[Hone [Hrd [Hrun Hpeak]]] [Hal [Hr Hsp]]].
  unfold single_relay. cbn [v_alive v_thread v_steps v_reading].
  rewrite relays_running_app, relay_peak_app, Hrun, Hal, Hr, Hsp. cbn.
  split; [| split; reflexivity].
  split; [right; exists (v_spawned v); split; reflexivity |].
  split; [tauto |]. split; [reflexivity | lia].
Qed.

Lemma single_relay_get (v : view) : single_relay v -> single_relay (get_view v).
Proof.
  intros H. unfold get_view. destruct (v_queue v) as [|f q']; [exact H |].
  eapply (single_relay_ext v _ [SlotGet f; LastKnown (Some f)]);
    try reflexivity; [exact H | exact (proj1 (proj2 H))].
Qed.

(** A switch whose joins return in time: no relay while the device is
    opened, one relay afterwards if it opened. *)
Lemma single_relay_switch_opened (drv : Driver) (id : Z) (v : view) :
  single_relay v ->
  joined_in_time (v_steps (switch_opened_view drv id v)) = true ->
  single_relay (switch_opened_view drv id v) /\
  v_alive (switch_opened_view drv id v) = [] /\
  v_reading (switch_opened_view drv id v) = [].
Proof.
  intros H Hin.
  pose proof (extends_in_time _ _ (switch_opened_view_extends drv id v) Hin)
    as Hin1.
  destruct (single_relay_stop drv v H Hin1) as [Hs [Ha Hr]].
  split; [| split; [exact Ha | exact Hr]].
  eapply (single_relay_ext (stop_view drv v)); try reflexivity;
    [exact Hs | exact (proj1 (proj2 Hs)) |].
  rewrite !forallb_app.
  destruct (slot_gets_neutral (v_queue (stop_view drv v))) as [_ ->].
  destruct (v_handle v) as [[old o]|]; reflexivity.
Qed.

Lemma single_relay_switch (drv : Driver) (id : Z) (v : view) :
  single_relay v ->
  joined_in_time (v_steps (switch_view drv id v)) = true ->
  single_relay (switch_view drv id v) /\
  v_reading (switch_view drv id v) = [] /\
  v_alive (switch_view drv id v) =
    if device_opens drv id then [v_spawned v] else [].
Proof.
  intros H Hin. unfold switch_view in *.
  destruct (device_opens drv id) eqn:Hok.
  - pose proof (extends_in_time _ _
                  (start_view_extends drv (switch_opened_view drv id v)) Hin)
      as Hin1.
    destruct (single_relay_switch_opened drv id v H Hin1) as [Hs _].
    destruct (single_relay_start drv _ Hs Hin) as [Hs' [Ha' Hr']].
    split; [exact Hs' |]. split; [exact Hr' |]. rewrite Ha'.
    cbn [switch_opened_view v_spawned].
    destruct (stop_view_kept drv v) as [_ [_ [_ [_ [_ ->]]]]]. reflexivity.
  - destruct (single_relay_switch_opened drv id v H Hin) as [Hs [Ha Hr]].
    split; [exact Hs |]. split; [exact Hr | exact Ha].
Qed.

(** ** A relay is alive only while [running] is true *)

Lemma capture_view_alive (tid : nat) (shot : option (list Z)) (v : view) :
  v_alive (capture_view tid shot v) = v_alive v \/
  v_alive (capture_view tid shot v) = without_relay tid (v_alive v).
Proof.
  unfold capture_view.
  destruct (lookup_read tid (v_reading v)) as [[f|]|]; try (left; reflexivity).
  destruct (v_running v); [| right; reflexivity].
  destruct (v_handle v) as [[dev [|]]|]; left; reflexivity.
Qed.

Lemma relay_needs_running_relay (tid : nat) (shot : option (list Z)) (v : view) :
  relay_needs_running v -> relay_needs_running (relay_view tid shot v).
Proof.
  unfold relay_needs_running. intros H Hne.
  destruct (relay_view_kept tid shot v) as [_ [_ [_ [_ [-> _]]]]].
  apply H. intros Hal. apply Hne. unfold relay_view. rewrite Hal.
  rewrite bool_decide_eq_false_2 by (apply not_elem_of_nil). exact Hal.
Qed.

Lemma orderly_init (id : Z) : orderly (init_view id).
Proof. intros _. split; [apply single_relay_init | intros _; reflexivity]. Qed.

Lemma orderly_act (drv : Driver) (v : view) (a : action) :
  orderly v -> orderly (act_view drv v a).
Proof.
  intros Ho Hin.
  destruct (Ho (extends_in_time _ _ (act_view_extends drv v a) Hin))
    as [Hs Hn].
  destruct a as [tid shot | | id]; cbn [act_view] in *.
  - split; [apply single_relay_relay, Hs | apply relay_needs_running_relay, Hn].
  - split; [apply single_relay_get, Hs |].
    unfold relay_needs_running, get_view in *.
    destruct (v_queue v); exact Hn.
  - destruct (single_relay_switch drv id v Hs Hin) as [Hs' [_ Ha']].
    split; [exact Hs' |]. unfold relay_needs_running. rewrite Ha'.
    unfold switch_view. destruct (device_opens drv id); [| congruence].
    intros _. reflexivity.
Qed.

Lemma orderly_run (drv : Driver) (acts : list action) :
  forall v, orderly v -> orderly (run_view drv acts v).
Proof.
  induction acts as [|a acts IH]; intros v H; [exact H |].
  apply IH, orderly_act, H.
Qed.

(** ** The handle and the thread object *)

Lemma start_view_kept (drv : Driver) (v : view) :
  v_camera_id (start_view drv v) = v_camera_id v /\
  v_handle (start_view drv v) = v_handle v /\
  v_current (start_view drv v) = v_current v /\
  v_thread (start_view drv v) = Some (v_spawned v) /\
  v_running (start_view drv v) = true /\
  v_spawned (start_view drv v) = S (v_spawned v).
Proof.
  unfold start_view.
  destruct (v_thread v) as [tid|]; [destruct (bool_decide _) |];
    cbn; try (repeat split; fail).
  destruct (stop_view_kept drv v) as [-> [-> [-> [_ [_ ->]]]]].
  repeat split.
Qed.

Lemma switch_view_fields (drv : Driver) (id : Z) (v : view) :
  v_camera_id (switch_view drv id v) = id /\
  v_handle (switch_view drv id v) = Some (id, device_opens drv id) /\
  v_current (switch_view drv id v) = None /\
  exists tid, v_thread (switch_view drv id v) = Some tid \/
              (v_thread v = None /\ device_opens drv id = false).
Proof.
  unfold switch_view. destruct (device_opens drv id) eqn:Hok.
  - destruct (start_view_kept drv (switch_opened_view drv id v))
      as [-> [-> [-> [-> _]]]].
    cbn. rewrite Hok. repeat split. eexists. left. reflexivity.
  - cbn. rewrite Hok. repeat split.
    destruct (stop_view_kept drv v) as [_ [_ [_ [-> _]]]].
    destruct (v_thread v) as [t|]; [exists t; left; reflexivity |].
    exists 0%nat. right. split; reflexivity.
Qed.

Lemma handle_named_init (id : Z) : handle_named (init_view id).
Proof. split; [exists true | exists 0%nat]; reflexivity. Qed.

Lemma handle_named_act (drv : Driver) (v : view) (a : action) :
  handle_named v -> handle_named (act_view drv v a).
Proof.
  intros [[ok Hh] [tid Ht]]. destruct a as [t shot | | id]; cbn [act_view].
  - destruct (relay_view_kept t shot v) as [Hc [Hh' [_ [Ht' _]]]].
    unfold handle_named. rewrite Hc, Hh', Ht'.
    split; [exists ok; exact Hh | exists tid; exact Ht].
  - unfold get_view. destruct (v_queue v);
      (split; [exists ok; exact Hh | exists tid; exact Ht]).
  - destruct (switch_view_fields drv id v) as [Hc [Hh' [_ [t Ht']]]].
    unfold handle_named. rewrite Hc, Hh'.
    split; [eexists; reflexivity |].
    destruct Ht' as [Ht' | [Ht' _]]; [exists t; exact Ht' | congruence].
Qed.

Lemma handle_named_run (drv : Driver) (acts : list action) :
  forall v, handle_named v -> handle_named (run_view drv acts v).
Proof.
  induction acts as [|a acts IH]; intros v H; [exact H |].
  apply IH, handle_named_act, H.
Qed.

(** ** Every frame held comes from the current device *)




(** ** The queue and the last-known frame against the log *)

Lemma history_init (id : Z) : history (init_view id).
Proof.
  unfold history, init_view, next_frame. cbn.
  split; [exists []; reflexivity |]. split; [reflexivity |].
  split; [tauto | lia].
Qed.

(** Steps that put nothing and do not touch the last-known frame keep the
    invariant when the queue and the last-known frame stay. *)
Lemma history_ext (v v' : view) (evs : list event) :
  history v ->
  v_queue v' = v_queue v -> v_current v' = v_current v ->
  v_steps v' = v_steps v ++ evs ->
  forallb (fun e => negb (slot_event e)) evs = true ->
  history v'.
Proof.
  intros [Hq [Hc [Hn Hl]]] Eq Ec Es Hneutral.
  destruct (slot_neutral evs Hneutral) as [Hp Hh].
  unfold history, next_frame in *.
  rewrite Eq, Ec, Es, puts_since_clear_app, last_handed_out_app, Hp, Hh.
  auto.
Qed.

Lemma history_publish (f : frame) (v : view) :
  history v -> history (publish_view f v).
Proof.
  intros [[gone Hq] [Hc [Hn Hl]]].
  unfold history, publish_view, next_frame.
  cbn [v_queue v_current v_steps].
  rewrite puts_since_clear_app, last_handed_out_app.
  destruct (publish_cases f (v_queue v) Hl)
    as [[a [b [Eq [-> ->]]]] | [Hroom [-> ->]]].
  - cbn [puts_since_clear last_handed_out]. rewrite Hq, Eq.
    split; [exists (gone ++ [a]); rewrite <- !app_assoc; reflexivity |].
    split; [exact Hc |]. split; [| cbn; unfold BUFFER_SIZE; lia].
    split; [intros E; destruct gone; discriminate | discriminate].
  - cbn [puts_since_clear last_handed_out]. rewrite Hq.
    split; [exists gone; rewrite <- app_assoc; reflexivity |].
    split; [exact Hc |]. split; [| rewrite length_app; cbn; lia].
    split.
    + intros E. apply app_eq_nil in E as [_ E]. discriminate.
    + destruct (v_queue v); discriminate.
Qed.

Lemma history_relay (tid : nat) (shot : option (list Z)) (v : view) :
  history v -> history (relay_view tid shot v).
Proof.
  intros H. unfold relay_view. destruct (bool_decide _); [| exact H].
  unfold capture_view.
  destruct (lookup_read tid (v_reading v)) as [[f|]|].
  - apply history_publish. exact H.
  - exact H.
  - destruct (v_running v).
    + destruct (v_handle v) as [[dev [|]]|]; exact H.
    + eapply (history_ext v _ [RelayExit tid]); try reflexivity. exact H.
Qed.

Lemma history_wait (tid : nat) (l : list (nat * option (list Z))) :
  forall v, history v -> history (wait_view tid l v).
Proof.
  induction l as [|[t shot] l IH]; intros v H; cbn [wait_view]; [exact H |].
  destruct (bool_decide _); [| exact H].
  apply IH, history_relay, H.
Qed.

Lemma history_stop (drv : Driver) (v : view) :
  history v -> history (stop_view drv v).
Proof.
  intros H. unfold stop_view.
  set (v0 := with_steps [RelaySignal false] (with_running false v)).
  assert (H0 : history v0).
  { eapply (history_ext v v0 [RelaySignal false]); try reflexivity. exact H. }
  destruct (v_thread v) as [tid|]; [| exact H0].
  unfold join_view.
  set (v1 := wait_view tid (while_joining drv (joins (v_steps v0)) tid) v0).
  assert (H1 : history v1) by (apply history_wait, H0).
  eapply (history_ext v1 _ [RelayJoin tid _]); try reflexivity. exact H1.
Qed.

Lemma history_start (drv : Driver) (v : view) :
  history v -> history (start_view drv v).
Proof.
  intros H. unfold start_view.
  set (v1 := match v_thread v with
             | Some tid =>
                 if bool_decide (tid ∈ v_alive v) then stop_view drv v else v
             | None => v
             end).
  assert (H1 : history v1).
  { subst v1. destruct (v_thread v); [destruct (bool_decide _) |]; auto.
    apply history_stop, H. }
  eapply (history_ext v1 _ [RelaySignal true; RelayStart (v_spawned v1)]);
    try reflexivity. exact H1.
Qed.

Lemma history_get (v : view) : history v -> history (get_view v).
Proof.
  intros H. unfold get_view. destruct (v_queue v) as [|f q'] eqn:Eq; [exact H |].
  destruct H as [[gone Hq] [Hc [Hn Hl]]].
  unfold history, next_frame. cbn [v_queue v_current v_steps].
  rewrite puts_since_clear_app, last_handed_out_app.
  cbn [puts_since_clear last_handed_out]. rewrite Hq, Eq.
  split; [exists (gone ++ [f]); rewrite <- app_assoc; reflexivity |].
  split; [reflexivity |]. split.
  - split; [intros E; destruct gone; discriminate |].
    destruct q'; discriminate.
  - rewrite Eq in Hl. cbn in Hl. lia.
Qed.

Lemma history_switch (drv : Driver) (id : Z) (v : view) :
  history (switch_view drv id v).
Proof.
  assert (H : history (switch_opened_view drv id v)).
  { unfold history, switch_opened_view, next_frame.
    cbn [v_queue v_current v_steps].
    set (tail_steps := match v_handle v with
                       | Some (old, _) =>
                           [CapRelease old; CapOpen id (device_opens drv id)]
                       | None => [CapOpen id (device_opens drv id)]
                       end).
    assert (Hn : forallb (fun e => negb (slot_event e)) tail_steps = true).
    { subst tail_steps. destruct (v_handle v) as [[old o]|]; reflexivity. }
    destruct (slot_neutral tail_steps Hn) as [Hp Hh].
    rewrite !puts_since_clear_app, !last_handed_out_app.
    cbn [puts_since_clear last_handed_out]. rewrite Hp, Hh.
    split; [exists []; reflexivity |]. split; [reflexivity |].
    split; [tauto | cbn; lia]. }
  unfold switch_view. destruct (device_opens drv id);
    [apply history_start |]; exact H.
Qed.

Lemma history_run (drv : Driver) (acts : list action) :
  forall v, history v -> history (run_view drv acts v).
Proof.
  induction acts as [|a acts IH]; intros v H; [exact H |].
  apply IH. destruct a; cbn [act_view].
  - apply history_relay, H.
  - apply history_get, H.
  - apply history_switch.
Qed.

(** What holds in every reachable world. *)
Lemma reachable_invariants (drv : Driver) (w : world) :
  reachable drv w ->
  orderly (view_of w) /\ handle_named (view_of w) /\ history (view_of w).
Proof.
  intros Hr. destruct (reachable_view drv w Hr) as [id [acts [_ ->]]].
  split; [| split].
  - apply orderly_run, orderly_init.
  - apply handle_named_run, handle_named_init.
  - apply history_run, history_init.
Qed.


(** ** The read accessor *)

Lemma get_frame_buffered (drv : Driver) (w : world) (f : frame) (rest : PyQueue.t) :
  frame_queue (self w) = f :: rest ->
  (get_frame drv w).1 = encoded drv f /\
  frame_queue (self (get_frame drv w).2) = rest /\
  current_frame (self (get_frame drv w).2) = Some f.
Proof.
  intros Hq. destruct (view_get_frame drv w) as [w' [E Ev]]. rewrite E.
  cbn [fst snd]. unfold next_frame, get_view in *.
  change (v_queue (view_of w)) with (frame_queue (self w)) in *.
  rewrite Hq in *. split; [reflexivity |].
  change (frame_queue (self w')) with (v_queue (view_of w')).
  change (current_frame (self w')) with (v_current (view_of w')).
  rewrite Ev. split; reflexivity.
Qed.

Lemma get_frame_empty (drv : Driver) (w : world) :
  frame_queue (self w) = [] ->
  get_frame drv w =
    (match current_frame (self w) with
     | Some f => encoded drv f
     | None => Ok None
     end, w).
Proof.
  destruct w as [[cid c wd ht fp mf ar fq cf ct rn] al rd sp lg].
  cbn. intros ->. unfold get_frame, encoded, bind, this, ret, raise. cbn.
  destruct cf as [f|]; [| reflexivity].
  destruct (imencode drv (pixels f)); reflexivity.
Qed.

Lemma encoded_not_none (drv : Driver) (f : frame) : encoded drv f <> Ok None.
Proof. unfold encoded. destruct (imencode drv (pixels f)); discriminate. Qed.

Lemma get_frame_none_iff (drv : Driver) (w : world) :
  (get_frame drv w).1 = Ok None <-> next_frame (view_of w) = None.
Proof.
  destruct (view_get_frame drv w) as [w' [E _]]. rewrite E. cbn [fst].
  destruct (next_frame (view_of w)) as [f|].
  - split; [intros H; apply encoded_not_none in H; contradiction | discriminate].
  - split; reflexivity.
Qed.


Lemma reachable_two_published : reachable sample_driver (two_published sample_driver).
Proof.
  exists 0, (capture [1; 1; 1] ++ capture [2; 2; 2]).
  split; reflexivity.
Defined.

Lemma reachable_switched_after_two :
  reachable sample_driver (switched_after_two sample_driver).
Proof.
  exists 0, (capture [1; 1; 1] ++ capture [2; 2; 2] ++ [SwitchCamera 2]).
  split; reflexivity.
Defined.





Lemma get_frame_queue_length (drv : Driver) (w : world) :
  length (frame_queue (self (get_frame drv w).2))
  = pred (length (frame_queue (self w))).
Proof.
  destruct (frame_queue (self w)) as [|f rest] eqn:Hq.
  - rewrite (get_frame_empty drv w Hq). cbn [snd]. rewrite Hq. reflexivity.
  - destruct (get_frame_buffered drv w f rest Hq) as [_ [-> _]]. reflexivity.
Qed.

Lemma get_frames_drain_queue (drv : Driver) (k : nat) :
  forall w,
    length (frame_queue (self (run_actions drv (repeat GetFrame k) w)))
    = (length (frame_queue (self w)) - k)%nat.
Proof.
  induction k as [|k IH]; intros w; cbn [repeat run_actions fold_left].
  - lia.
  - change (fold_left (act drv) (repeat GetFrame k) (act drv w GetFrame))
      with (run_actions drv (repeat GetFrame k) (act drv w GetFrame)).
    rewrite IH. cbn [act]. rewrite get_frame_queue_length. lia.
Qed.








(** ** Device switches *)

Lemma reachable_act (drv : Driver) (w : world) (a : action) :
  reachable drv w -> reachable drv (act drv w a).
Proof.
  intros [id [acts [Hinit ->]]]. exists id, (acts ++ [a]).
  split; [exact Hinit |]. unfold run_actions. rewrite fold_left_app. reflexivity.
Qed.

Lemma reachable_run_actions (drv : Driver) (acts : list action) :
  forall w, reachable drv w -> reachable drv (run_actions drv acts w).
Proof.
  induction acts as [|a acts IH]; intros w H; [exact H |].
  apply IH, reachable_act, H.
Qed.

(** What holds as long as no join has timed out, for worlds. *)
Lemma reachable_in_time (drv : Driver) (w : world) :
  reachable drv w ->
  joined_in_time (log w) = true ->
  single_relay (view_of w) /\ relay_needs_running (view_of w).
Proof.
  intros Hr Hin. destruct (reachable_invariants drv w Hr) as [Ho _].
  apply Ho. cbn [view_of v_steps]. rewrite joined_in_time_steps. exact Hin.
Qed.



Lemma camera_id_kept (drv : Driver) (acts : list action) :
  forallb (fun a => negb (is_switch a)) acts = true ->
  forall v, v_camera_id (run_view drv acts v) = v_camera_id v.
Proof.
  induction acts as [|a acts IH]; intros Hacts v; [reflexivity |].
  cbn [forallb] in Hacts. apply andb_true_iff in Hacts as [Ha Hacts].
  cbn [run_view fold_left]. fold (run_view drv acts (act_view drv v a)).
  rewrite (IH Hacts). destruct a as [tid shot | | id]; cbn [act_view].
  - apply relay_view_kept.
  - unfold get_view. destruct (v_queue v); reflexivity.
  - discriminate.
Qed.






Lemma reachable_stale_published : reachable stalled_driver stale_published.
Proof.
  exists 0, [Relay 0 (Some [1; 1; 1]); SwitchCamera 2; Relay 0 None].
  split; vm_compute; reflexivity.
Defined.



(** ** The order of the steps of a switch *)

Lemma publish_steps_made (f : frame) (q : PyQueue.t) :
  forallb relay_made (publish_steps f q) = true.
Proof.
  unfold publish_steps.
  destruct (PyQueue.full q); [destruct q |];
    destruct (PyQueue.put_nowait f _); reflexivity.
Qed.

Lemma relay_view_made (tid : nat) (shot : option (list Z)) (v : view) :
  exists evs,
    v_steps (relay_view tid shot v) = v_steps v ++ evs /\
    forallb relay_made evs = true.
Proof.
  unfold relay_view. destruct (bool_decide _);
    [| exists []; rewrite app_nil_r; split; reflexivity].
  unfold capture_view.
  destruct (lookup_read tid (v_reading v)) as [[f|]|].
  - eexists. split; [reflexivity | apply publish_steps_made].
  - exists []. rewrite app_nil_r. split; reflexivity.
  - destruct (v_running v).
    + destruct (v_handle v) as [[dev [|]]|];
        exists []; rewrite app_nil_r; split; reflexivity.
    + exists [RelayExit tid]. split; reflexivity.
Qed.

Lemma wait_view_made (tid : nat) (l : list (nat * option (list Z))) :
  forall v,
    exists evs,
      v_steps (wait_view tid l v) = v_steps v ++ evs /\
      forallb relay_made evs = true.
Proof.
  induction l as [|[t shot] l IH]; intros v; cbn [wait_view].
  - exists []. rewrite app_nil_r. split; reflexivity.
  - destruct (bool_decide _);
      [| exists []; rewrite app_nil_r; split; reflexivity].
    destruct (relay_view_made t shot v) as [e1 [H1 M1]].
    destruct (IH (relay_view t shot v)) as [e2 [H2 M2]].
    exists (e1 ++ e2). rewrite H2, H1, app_assoc. split; [reflexivity |].
    rewrite forallb_app, M1, M2. reflexivity.
Qed.

Lemma publish_steps_some (f : frame) (q : PyQueue.t) :
  publish_steps f q <> [].
Proof.
  unfold publish_steps, PyQueue.put_nowait, PyQueue.full.
  destruct q as [|a [|b [|c q]]]; cbn; discriminate.
Qed.

(** A relay step that leaves no event leaves the queue as it is. *)
Lemma relay_view_quiet (tid : nat) (shot : option (list Z)) (v : view) :
  v_steps (relay_view tid shot v) = v_steps v ->
  v_queue (relay_view tid shot v) = v_queue v.
Proof.
  unfold relay_view. destruct (bool_decide _); [| reflexivity].
  unfold capture_view.
  destruct (lookup_read tid (v_reading v)) as [[f|]|]; try reflexivity.
  - cbn [publish_view with_reading v_steps v_queue]. intros H.
    exfalso. apply (publish_steps_some f (v_queue v)).
    apply (app_inv_head (v_steps v)). rewrite app_nil_r. exact H.
  - destruct (v_running v); [| reflexivity].
    destruct (v_handle v) as [[dev [|]]|]; reflexivity.
Qed.

Lemma wait_view_quiet (tid : nat) (l : list (nat * option (list Z))) :
  forall v,
    v_steps (wait_view tid l v) = v_steps v ->
    v_queue (wait_view tid l v) = v_queue v.
Proof.
  induction l as [|[t shot] l IH]; intros v H; cbn [wait_view] in *;
    [reflexivity |].
  destruct (bool_decide _); [| reflexivity].
  destruct (relay_view_made t shot v) as [e1 [H1 _]].
  destruct (wait_view_made tid l (relay_view t shot v)) as [e2 [H2 _]].
  assert (He : e1 ++ e2 = []).
  { apply (app_inv_head (v_steps v)). rewrite app_nil_r, app_assoc, <- H1, <- H2.
    exact H. }
  apply app_eq_nil in He as [-> ->]. rewrite app_nil_r in H1, H2.
  rewrite (IH _ H2). apply relay_view_quiet. exact H1.
Qed.

(** The steps of a stop: the signal, what the relays did while the join
    waited, and the return of the join. *)
Lemma stop_view_steps (drv : Driver) (v : view) (tid : nat) :
  v_thread v = Some tid ->
  exists waited timed_out,
    v_steps (stop_view drv v) =
      v_steps v ++ [RelaySignal false] ++ waited ++ [RelayJoin tid timed_out] /\
    forallb relay_made waited = true /\
    timed_out = bool_decide (tid ∈ v_alive (stop_view drv v)) /\
    (waited = [] -> v_queue (stop_view drv v) = v_queue v).
Proof.
  intros Ht. unfold stop_view. rewrite Ht. unfold join_view.
  set (v0 := with_steps [RelaySignal false] (with_running false v)).
  destruct (wait_view_made tid (while_joining drv (joins (v_steps v0)) tid) v0)
    as [waited [Hw Hm]].
  exists waited. eexists. cbn [with_steps v_steps v_alive v_queue]. rewrite Hw.
  split; [| split; [exact Hm | split; [reflexivity |]]].
  - subst v0. cbn [with_steps v_steps]. rewrite <- !app_assoc. reflexivity.
  - intros ->. rewrite app_nil_r in Hw. rewrite (wait_view_quiet _ _ _ Hw).
    reflexivity.
Qed.

(** C5, as the code has it.  Every switch of a running program takes its
    steps in this order:
    the relay is told to stop and joined (while the join waits the relays
    may take steps of their own; the join returns with the relay ended or
    after its two seconds), the frames buffered in the queue are taken out
    one by one, the last-known frame is cleared, the old handle is
    released, the new device is opened, and, if it opened, the relay is
    started again, after another stop of the old relay if that one
    outlived the join; if the device did not open, [switch_camera] raises
    there and no relay is started.  The steps are read off the log with
    the calls that configure the open handle left out. *)
Theorem switch_camera_steps_in_order (drv : Driver) (w : world) (id : Z) :
  reachable drv w ->
  exists tid w' waited timed_out buffered again,
    capture_thread (self w) = Some tid /\
    switch_camera drv id w =
      (if device_opens drv id then Ok true else Raise (CameraError id), w') /\
    steps (log w') =
      steps (log w) ++
      [RelaySignal false] ++ waited ++ [RelayJoin tid timed_out] ++
      map SlotGet buffered ++
      [LastKnown None;
       CapRelease (camera_id (self w));
       CapOpen id (device_opens drv id)] ++
      (if device_opens drv id
       then again ++ [RelaySignal true; RelayStart (spawned w)]
       else []) /\
    forallb relay_made waited = true /\
    (waited = [] -> buffered = frame_queue (self w)) /\
    (timed_out = false -> again = []) /\
    (again = [] \/
     exists waited2 timed_out2,
       again = [RelaySignal false] ++ waited2 ++ [RelayJoin tid timed_out2] /\
       forallb relay_made waited2 = true).
Proof.
  intros Hr.
  destruct (reachable_invariants drv w Hr) as [_ [[[o Hh] [tid Ht]] _]].
  destruct (view_switch_camera drv id w) as [w' [E Ev]].
  set (v := view_of w) in *.
  destruct (stop_view_steps drv v tid Ht) as [waited [b [Hstop [Hm [Hb Hbuf]]]]].
  destruct (stop_view_kept drv v) as [_ [_ [_ [Hth1 [_ Hsp1]]]]].
  set (v1 := stop_view drv v) in *.
  assert (Hopened :
    v_steps (switch_opened_view drv id v) =
    steps (log w) ++ [RelaySignal false] ++ waited ++ [RelayJoin tid b] ++
    map SlotGet (v_queue v1) ++
    [LastKnown None; CapRelease (camera_id (self w));
     CapOpen id (device_opens drv id)]).
  { unfold switch_opened_view. fold v1. cbn [v_steps]. rewrite Hstop, Hh.
    change (v_steps v) with (steps (log w)).
    change (v_camera_id v) with (camera_id (self w)).
    rewrite <- !app_assoc. reflexivity. }
  assert (Hsteps : steps (log w') = v_steps (switch_view drv id v)).
  { change (steps (log w')) with (v_steps (view_of w')). rewrite Ev.
    reflexivity. }
  unfold switch_view in Hsteps. destruct (device_opens drv id) eqn:Hok.
  - set (v5 := switch_opened_view drv id v) in *.
    assert (Ht5 : v_thread v5 = Some tid).
    { subst v5. cbn [switch_opened_view v_thread]. fold v1. rewrite Hth1.
      exact Ht. }
    assert (Hsp5 : v_spawned v5 = spawned w).
    { subst v5. cbn [switch_opened_view v_spawned]. fold v1. rewrite Hsp1.
      reflexivity. }
    assert (Hal5 : v_alive v5 = v_alive v1) by reflexivity.
    destruct (bool_decide (tid ∈ v_alive v5)) eqn:Hlive.
    + destruct (stop_view_steps drv v5 tid Ht5)
        as [waited2 [b2 [Hstop2 [Hm2 _]]]].
      destruct (stop_view_kept drv v5) as [_ [_ [_ [_ [_ Hsp6]]]]].
      exists tid, w', waited, b, (v_queue v1),
        ([RelaySignal false] ++ waited2 ++ [RelayJoin tid b2]).
      split; [exact Ht |]. split; [exact E |]. split.
      { rewrite Hsteps. unfold start_view. rewrite Ht5, Hlive. cbn [v_steps].
        rewrite Hstop2, Hsp6, Hsp5, Hopened. rewrite <- !app_assoc.
        reflexivity. }
      split; [exact Hm |]. split; [exact Hbuf |]. split.
      { intros Hb0. exfalso. rewrite Hb0 in Hb. rewrite Hal5 in Hlive.
        rewrite Hlive in Hb. discriminate. }
      right. exists waited2, b2. split; [reflexivity | exact Hm2].
    + exists tid, w', waited, b, (v_queue v1), [].
      split; [exact Ht |]. split; [exact E |]. split.
      { rewrite Hsteps. unfold start_view. rewrite Ht5, Hlive. cbn [v_steps].
        rewrite Hsp5, Hopened. rewrite <- !app_assoc. reflexivity. }
      split; [exact Hm |]. split; [exact Hbuf |].
      split; [reflexivity | left; reflexivity].
  - exists tid, w', waited, b, (v_queue v1), [].
    split; [exact Ht |]. split; [exact E |]. split.
    { rewrite Hsteps, Hopened. rewrite app_nil_r. reflexivity. }
    split; [exact Hm |]. split; [exact Hbuf |].
    split; [reflexivity | left; reflexivity].
Qed.

Lemma switch_camera_steps_in_order_witness :
  reachable sample_driver (two_published sample_driver) /\
  exists tid w' waited timed_out buffered again,
    capture_thread (self (two_published sample_driver)) = Some tid /\
    switch_camera sample_driver 2 (two_published sample_driver) =
      (if device_opens sample_driver 2 then Ok true
       else Raise (CameraError 2), w') /\
    steps (log w') =
      steps (log (two_published sample_driver)) ++
      [RelaySignal false] ++ waited ++ [RelayJoin tid timed_out] ++
      map SlotGet buffered ++
      [LastKnown None;
       CapRelease (camera_id (self (two_published sample_driver)));
       CapOpen 2 (device_opens sample_driver 2)] ++
      (if device_opens sample_driver 2
       then again ++
            [RelaySignal true;
             RelayStart (spawned (two_published sample_driver))]
       else []) /\
    forallb relay_made waited = true /\
    (waited = [] ->
     buffered = frame_queue (self (two_published sample_driver))) /\
    (timed_out = false -> again = []) /\
    (again = [] \/
     exists waited2 timed_out2,
       again = [RelaySignal false] ++ waited2 ++ [RelayJoin tid timed_out2] /\
       forallb relay_made waited2 = true).
Proof.
  split; [exact reachable_two_published |].
  exact (switch_camera_steps_in_order sample_driver
           (two_published sample_driver) 2 reachable_two_published).
Defined.

(** The steps of that switch, written out: the relay ends while the join
    waits. *)
Example switch_camera_steps_sample :
  steps (log (switched_after_two sample_driver)) =
  [CapOpen 0 true; RelaySignal true; RelayStart 0;
   SlotPut (Frame 0 [1; 1; 1]); SlotPut (Frame 0 [2; 2; 2]);
   RelaySignal false; RelayExit 0; RelayJoin 0 false;
   SlotGet (Frame 0 [1; 1; 1]); SlotGet (Frame 0 [2; 2; 2]);
   LastKnown None; CapRelease 0; CapOpen 2 true;
   RelaySignal true; RelayStart 1].
Proof. vm_compute. reflexivity. Qed.

(** The steps of a switch whose join times out: the old relay is stopped
    a second time before the new one is started, and outlives that join
    too. *)
Example switch_camera_steps_timed_out :
  steps (log switched_during_read) =
  [CapOpen 0 true; RelaySignal true; RelayStart 0;
   RelaySignal false; RelayJoin 0 true;
   LastKnown None; CapRelease 0; CapOpen 2 true;
   RelaySignal false; RelayJoin 0 true;
   RelaySignal true; RelayStart 1].
Proof. vm_compute. reflexivity. Qed.

(** C5 as stated fails for a device that does not open: the steps up to
    the open are taken in order, [switch_camera] raises there, and the
    relay, which was stopped, is not started again. *)
Lemma switch_to_closed_device_counterexample :
  let w := two_published sample_driver in
  let w' := (switch_camera sample_driver 1 w).2 in
  reachable sample_driver w /\
  (switch_camera sample_driver 1 w).1 = Raise (CameraError 1) /\
  steps (log w') =
    steps (log w) ++
    [RelaySignal false; RelayExit 0; RelayJoin 0 false;
     SlotGet (Frame 0 [1; 1; 1]); SlotGet (Frame 0 [2; 2; 2]);
     LastKnown None; CapRelease 0; CapOpen 1 false] /\
  alive w = [0%nat] /\
  alive w' = [] /\
  running (self w') = false.
Proof.
  intros w w'. split; [exact reachable_two_published |].
  repeat split; vm_compute; reflexivity.
Qed.


(** ** Encoding failures *)

Lemma get_frame_result (drv : Driver) (w : world) :
  (get_frame drv w).1 =
  match next_frame (view_of w) with
  | Some f => encoded drv f
  | None => Ok None
  end.
Proof. destruct (view_get_frame drv w) as [w' [E _]]. rewrite E. reflexivity. Qed.

Lemma stream_loop_turn (drv : Driver) (tick : stream_tick)
    (script : list stream_tick) (sv : server) :
  turns tick = [] ->
  stream_loop drv (tick :: script) sv =
  match get_frame drv (streamer_obj sv) with
  | (Raise _, w') => Server (cameras sv) (current_camera sv) w' (sent sv)
  | (Ok (Some (b :: data)), w') =>
      if client_connected tick then
        stream_loop drv script
          (send [WriteText ("--frame" ++ CRLF)%string;
                 SendHeader "Content-Type" "image/jpeg";
                 SendHeader "Content-Length" (decimal (length (b :: data)));
                 EndHeaders;
                 WriteBytes (b :: data);
                 WriteText CRLF;
                 Flush]
             (Server (cameras sv) (current_camera sv) w' (sent sv)))
      else Server (cameras sv) (current_camera sv) w' (sent sv)
  | (Ok _, w') =>
      stream_loop drv script
        (Server (cameras sv) (current_camera sv) w' (sent sv))
  end.
Proof.
  intros Hshots. destruct sv as [cams cur w out].
  cbn [stream_loop]. rewrite Hshots. unfold on_streamer.
  cbn [relay_steps ret streamer_obj cameras current_camera sent].
  destruct (get_frame drv w) as [[[[|b data]|]|e] w']; reflexivity.
Qed.

(** C6, as the code has it.  [get_frame] does not look at how the encoding
    went: whatever buffer [cv2.imencode] returns is returned, with the
    status flag true or false, and an exception out of the encoder leaves
    [get_frame] as it is.  No output is what [get_frame] gives exactly when
    there is no frame to encode.  In the streaming loop, an exception ends
    the loop with nothing written, and an empty buffer or none is skipped
    and the loop goes on. *)
Theorem get_frame_ignores_encoder_status (drv : Driver) (w : world) :
  (forall f flag buffer,
      next_frame (view_of w) = Some f ->
      imencode drv (pixels f) = EncodeReturns flag buffer ->
      (get_frame drv w).1 = Ok (Some buffer)) /\
  (forall f,
      next_frame (view_of w) = Some f ->
      imencode drv (pixels f) = EncodeRaises ->
      (get_frame drv w).1 = Raise Cv2Error) /\
  ((get_frame drv w).1 = Ok None <-> next_frame (view_of w) = None) /\
  (forall tick script cams cur out,
      turns tick = [] ->
      let sv := Server cams cur w out in
      match (get_frame drv w).1 with
      | Raise _ =>
          stream_loop drv (tick :: script) sv
          = Server cams cur (get_frame drv w).2 out
      | Ok (Some (_ :: _)) => True
      | Ok _ =>
          stream_loop drv (tick :: script) sv
          = stream_loop drv script (Server cams cur (get_frame drv w).2 out)
      end).
Proof.
  split; [| split; [| split]].
  - intros f flag buffer Hf Henc. rewrite get_frame_result, Hf.
    unfold encoded. rewrite Henc. reflexivity.
  - intros f Hf Henc. rewrite get_frame_result, Hf.
    unfold encoded. rewrite Henc. reflexivity.
  - apply get_frame_none_iff.
  - intros tick script cams cur out Hshots sv. subst sv.
    rewrite (stream_loop_turn drv tick script _ Hshots).
    cbn [streamer_obj cameras current_camera sent].
    destruct (get_frame drv w) as [[[[|b data]|]|e] w']; cbn [fst snd];
      reflexivity || exact I.
Qed.

Lemma get_frame_ignores_encoder_status_witness :
  let w := two_published flagging_driver in
  let f := Frame 0 [1; 1; 1] in
  (next_frame (view_of w) = Some f /\
   imencode flagging_driver (pixels f) = EncodeReturns false [255; 216]) /\
  (get_frame flagging_driver w).1 = Ok (Some [255; 216]).
Proof.
  intros w f.
  assert (H1 : next_frame (view_of w) = Some f) by reflexivity.
  assert (H2 : imencode flagging_driver (pixels f)
               = EncodeReturns false [255; 216]) by reflexivity.
  split; [split; assumption |].
  exact (proj1 (get_frame_ignores_encoder_status flagging_driver w)
           f false [255; 216] H1 H2).
Defined.

(** C6 as stated fails both ways an encoder can fail: with the status flag
    false [get_frame] still returns the buffer as output, and when the
    encoder raises, the exception reaches the caller, where it ends the
    streaming loop. *)
Lemma encode_failure_counterexample :
  (encode_fails flagging_driver (pixels (Frame 0 [1; 1; 1])) /\
   next_frame (view_of (two_published flagging_driver))
   = Some (Frame 0 [1; 1; 1]) /\
   (get_frame flagging_driver (two_published flagging_driver)).1
   = Ok (Some [255; 216])) /\
  (encode_fails raising_driver (pixels (Frame 0 [1; 1; 1])) /\
   next_frame (view_of (two_published raising_driver))
   = Some (Frame 0 [1; 1; 1]) /\
   (get_frame raising_driver (two_published raising_driver)).1
   = Raise Cv2Error /\
   sent (stream_loop raising_driver
           [StreamTick [] true; StreamTick [] true]
           (server_on (two_published raising_driver))) = []) /\
  ~ (forall (drv : Driver) (w : world) (f : frame),
        next_frame (view_of w) = Some f ->
        encode_fails drv (pixels f) ->
        (get_frame drv w).1 = Ok None).
Proof.
  split; [| split].
  - split; [right; exists [255; 216]; reflexivity |]. split; reflexivity.
  - split; [left; reflexivity |]. repeat split; reflexivity.
  - intros H.
    assert (Hfail : encode_fails raising_driver (pixels (Frame 0 [1; 1; 1])))
      by (left; reflexivity).
    specialize (H raising_driver (two_published raising_driver)
                  (Frame 0 [1; 1; 1]) eq_refl Hfail).
    vm_compute in H. discriminate.
Qed.


(** ** The capability probe *)

Lemma Qgtb_lt (a b : Q) : Qgtb a b = true <-> (b < a)%Q.
Proof. unfold Qgtb, Qlt. apply Z.ltb_lt. Qed.

Lemma Qgtb_le (a b : Q) : Qgtb a b = false <-> (a <= b)%Q.
Proof. unfold Qgtb, Qle. rewrite Z.ltb_ge. reflexivity. Qed.

Lemma py_int_inject (q : Q) (n : Z) : (q == inject_Z n)%Q -> py_int q = n.
Proof.
  unfold Qeq, py_int. cbn. intros H. rewrite Z.mul_1_r in H. rewrite H.
  apply Z.quot_mul. discriminate.
Qed.

Lemma best_of_ge_start (echoes : list Q) :
  forall best, (best <= best_of best echoes)%Q.
Proof.
  induction echoes as [|e echoes IH]; intros best; cbn [best_of].
  - apply Qle_refl.
  - destruct (Qgtb e best) eqn:E.
    + apply Qle_trans with e; [| apply IH].
      apply Qlt_le_weak, Qgtb_lt, E.
    + apply IH.
Qed.

Lemma best_of_upper_bound (echoes : list Q) :
  forall best, Forall (fun e => (e <= best_of best echoes)%Q) echoes.
Proof.
  induction echoes as [|e echoes IH]; intros best; cbn [best_of];
    constructor; [| apply IH].
  destruct (Qgtb e best) eqn:E.
  - apply best_of_ge_start.
  - apply Qle_trans with best; [apply Qgtb_le, E | apply best_of_ge_start].
Qed.

Lemma best_of_attained (echoes : list Q) :
  forall best, best_of best echoes = best \/ In (best_of best echoes) echoes.
Proof.
  induction echoes as [|e echoes IH]; intros best; cbn [best_of];
    [left; reflexivity |].
  destruct (Qgtb e best).
  - destruct (IH e) as [-> | H]; right; [left; reflexivity | right; exact H].
  - destruct (IH best) as [-> | H]; [left; reflexivity | right; right; exact H].
Qed.

Lemma best_of_none_above (echoes : list Q) (best : Q) :
  Forall (fun e => (e <= best)%Q) echoes -> best_of best echoes = best.
Proof.
  induction 1 as [|e echoes He _ IH]; cbn [best_of]; [reflexivity |].
  apply Qgtb_le in He. rewrite He. exact IH.
Qed.

(** The loop of the probe, run. *)
Lemma for_each_probe_one (drv : Driver) (dev : Z) (tests : list Z) :
  forall (st : cap_state) (best : Q) (s : streamer) (al : list nat)
         (rd : list (nat * option frame)) (sp : nat) (lg : list event),
    cap s = Some (Cap dev true st) ->
    for_each tests best (probe_one drv) (World s al rd sp lg) =
    (Ok (best_of best (probe_echoes drv dev st tests)),
     World (set_cap (Some (Cap dev true (probe_final drv dev st tests))) s)
       al rd sp
       (lg ++ map (fun t => CapSet dev CAP_PROP_FPS (inject_Z t)) tests)).
Proof.
  induction tests as [|t tests IH]; intros st best s al rd sp lg Hcap.
  - cbn. rewrite app_nil_r. destruct s; cbn in *. subst. reflexivity.
  - cbn [for_each probe_echoes probe_final best_of map].
    set (st' := on_set drv dev st CAP_PROP_FPS (inject_Z t)).
    set (s' := set_cap (Some (Cap dev true st')) s).
    assert (E : probe_one drv best t (World s al rd sp lg) =
                (Ok (if Qgtb (st_fps st') best then st_fps st' else best),
                 World s' al rd sp (lg ++ [CapSet dev CAP_PROP_FPS (inject_Z t)]))).
    { unfold probe_one, cap_set, cap_get, bind, this, assign, emit, ret.
      cbn. rewrite Hcap. cbn. reflexivity. }
    rewrite (bind_ok _ _ _ _ _ E).
    rewrite (IH st' _ s' al rd sp _ eq_refl).
    rewrite <- app_assoc. destruct s; reflexivity.
Qed.

(** ** The device listing *)

Lemma insert_by_area_perm (x : Z * Z) (l : list (Z * Z)) :
  Permutation (V4l2.insert_by_area x l) (x :: l).
Proof.
  induction l as [|y l IH]; cbn [V4l2.insert_by_area]; [apply Permutation_refl |].
  destruct (V4l2.area x <? V4l2.area y); [| apply Permutation_refl].
  apply Permutation_trans with (y :: x :: l);
    [apply perm_skip, IH | apply perm_swap].
Qed.

Lemma sort_by_area_perm (l : list (Z * Z)) :
  Permutation (V4l2.sort_by_area l) l.
Proof.
  induction l as [|x l IH]; cbn; [apply perm_nil |].
  apply Permutation_trans with (x :: V4l2.sort_by_area l);
    [apply insert_by_area_perm | apply perm_skip, IH].
Qed.

Lemma insert_by_area_sorted (x : Z * Z) (l : list (Z * Z)) :
  StronglySorted (fun a b => V4l2.area b <= V4l2.area a) l ->
  StronglySorted (fun a b => V4l2.area b <= V4l2.area a)
    (V4l2.insert_by_area x l).
Proof.
  induction 1 as [|y l Hl IH Hy]; cbn [V4l2.insert_by_area].
  - constructor; constructor.
  - destruct (Z.ltb_spec (V4l2.area x) (V4l2.area y)) as [Hlt | Hge].
    + constructor; [exact IH |].
      apply List.Forall_forall. intros z Hz.
      apply (Permutation_in _ (insert_by_area_perm x l)) in Hz.
      destruct Hz as [<- | Hz]; [lia |].
      rewrite List.Forall_forall in Hy. apply Hy, Hz.
    + constructor; [constructor; assumption |].
      constructor; [exact Hge |].
      apply List.Forall_forall. intros z Hz.
      rewrite List.Forall_forall in Hy. specialize (Hy z Hz). lia.
Qed.

Lemma sort_by_area_sorted (l : list (Z * Z)) :
  StronglySorted (fun a b => V4l2.area b <= V4l2.area a) (V4l2.sort_by_area l).
Proof.
  induction l as [|x l IH]; cbn; [constructor |].
  apply insert_by_area_sorted, IH.
Qed.

Lemma size_in_spec (wh : Z * Z) (l : list (Z * Z)) :
  V4l2.size_in wh l = true <-> In wh l.
Proof.
  unfold V4l2.size_in. rewrite existsb_exists. split.
  - intros [[a b] [Hin Heq]]. destruct wh as [w h]. cbn in Heq.
    apply andb_true_iff in Heq as [Ha Hb].
    apply Z.eqb_eq in Ha, Hb. subst. exact Hin.
  - intros Hin. exists wh. split; [exact Hin |].
    rewrite !Z.eqb_refl. reflexivity.
Qed.

Lemma scan_sizes_nodup (limit : option nat) (lines : list string) :
  forall fmt acc r,
    List.NoDup acc ->
    V4l2.scan_sizes limit lines fmt acc = Some r ->
    List.NoDup r.
Proof.
  induction lines as [|line lines IH]; intros fmt acc r Hacc Hscan;
    cbn [V4l2.scan_sizes] in Hscan.
  - injection Hscan as <-. exact Hacc.
  - destruct (_ || _); [eapply IH; eassumption |].
    destruct (_ && _); [| eapply IH; eassumption].
    destruct (V4l2.search_size line) as [[w h]|]; [| eapply IH; eassumption].
    destruct (Text.py_int_of_str limit w) as [width|]; [| discriminate].
    destruct (Text.py_int_of_str limit h) as [height|]; [| discriminate].
    destruct (V4l2.size_in (width, height) acc) eqn:Hin;
      [eapply IH; eassumption |].
    eapply IH; [| exact Hscan].
    apply List.NoDup_app; [exact Hacc | constructor; [intros [] | constructor] |].
    intros x Hx [<- | []].
    apply size_in_spec in Hx. congruence.
Qed.

(** X1.  Whatever [v4l2-ctl] printed, and also when running it or reading
    a number raised, the list [get_camera_specs] returns is in descending
    order of area and has no size twice; so its first entry, the one
    [open_camera] and [find_best_camera] take, has the largest area in the
    list. *)
Theorem get_camera_specs_sorted_distinct
    (limit : option nat) (stdout : option string) :
  StronglySorted (fun a b => V4l2.area b <= V4l2.area a)
    (V4l2.get_camera_specs limit stdout) /\
  List.NoDup (V4l2.get_camera_specs limit stdout) /\
  (forall top rest x,
      V4l2.get_camera_specs limit stdout = top :: rest ->
      In x (V4l2.get_camera_specs limit stdout) ->
      V4l2.area x <= V4l2.area top).
Proof.
  assert (Hfallback :
    StronglySorted (fun a b => V4l2.area b <= V4l2.area a)
      V4l2.fallback_resolutions /\ List.NoDup V4l2.fallback_resolutions).
  { unfold V4l2.fallback_resolutions. split.
    - apply SSorted_cons; [apply SSorted_cons; [apply SSorted_nil | constructor] |].
      constructor; [| constructor]. unfold V4l2.area. cbn. lia.
    - apply List.NoDup_cons; [intros [E | []]; discriminate |].
      apply List.NoDup_cons; [intros [] | apply List.NoDup_nil]. }
  assert (H : StronglySorted (fun a b => V4l2.area b <= V4l2.area a)
                (V4l2.get_camera_specs limit stdout) /\
              List.NoDup (V4l2.get_camera_specs limit stdout)).
  { unfold V4l2.get_camera_specs. destruct stdout as [out|]; [| exact Hfallback].
    destruct (V4l2.scan_sizes limit _ false []) as [r|] eqn:Hscan;
      [| exact Hfallback].
    split; [apply sort_by_area_sorted |].
    apply (Permutation_NoDup (Permutation_sym (sort_by_area_perm r))).
    eapply scan_sizes_nodup; [constructor | exact Hscan]. }
  destruct H as [Hsorted Hnodup]. split; [exact Hsorted |].
  split; [exact Hnodup |].
  intros top rest x E Hin. rewrite E in Hsorted, Hin.
  apply StronglySorted_inv in Hsorted as [_ Hall].
  destruct Hin as [<- | Hin]; [lia |].
  rewrite List.Forall_forall in Hall. apply Hall, Hin.
Qed.

Lemma dict_set_in (key : Z) (value : V4l2.camera_entry) (d : V4l2.camera_dict)
    (ke : Z * V4l2.camera_entry) :
  In ke (V4l2.dict_set key value d) -> ke = (key, value) \/ In ke d.
Proof.
  induction d as [|[k v] d IH]; cbn [V4l2.dict_set].
  - intros [<- | []]. left. reflexivity.
  - destruct (Z.eqb_spec k key) as [-> | Hne].
    + intros [<- | H]; [left; reflexivity | right; right; exact H].
    + intros [<- | H]; [right; left; reflexivity |].
      destruct (IH H) as [-> | H']; [left; reflexivity | right; right; exact H'].
Qed.

Lemma dict_set_keys (key : Z) (value : V4l2.camera_entry) (d : V4l2.camera_dict) :
  (In key (V4l2.keys d) /\
   V4l2.keys (V4l2.dict_set key value d) = V4l2.keys d) \/
  (~ In key (V4l2.keys d) /\
   V4l2.keys (V4l2.dict_set key value d) = V4l2.keys d ++ [key]).
Proof.
  induction d as [|[k v] d IH]; cbn [V4l2.dict_set V4l2.keys map fst].
  - right. split; [intros [] | reflexivity].
  - destruct (Z.eqb_spec k key) as [-> | Hne].
    + left. split; [left; reflexivity | reflexivity].
    + cbn [map fst]. fold (V4l2.keys (V4l2.dict_set key value d)).
      fold (V4l2.keys d).
      destruct IH as [[Hin ->] | [Hnin ->]].
      * left. split; [right; exact Hin | reflexivity].
      * right. split; [intros [E | H]; [congruence | tauto] | reflexivity].
Qed.

Lemma dict_set_keys_nodup (key : Z) (value : V4l2.camera_entry)
    (d : V4l2.camera_dict) :
  List.NoDup (V4l2.keys d) -> List.NoDup (V4l2.keys (V4l2.dict_set key value d)).
Proof.
  intros H. destruct (dict_set_keys key value d) as [[_ ->] | [Hnin ->]];
    [exact H |].
  apply List.NoDup_app; [exact H | constructor; [intros [] | constructor] |].
  intros x Hx [<- | []]. exact (Hnin Hx).
Qed.

Lemma scan_devices_invariant (limit : option nat) (lines : list string) :
  forall current d,
    List.NoDup (V4l2.keys d) ->
    Forall (camera_entry_ok limit) d ->
    List.NoDup (V4l2.keys (V4l2.scan_devices limit lines current d)) /\
    Forall (camera_entry_ok limit) (V4l2.scan_devices limit lines current d).
Proof.
  induction lines as [|line lines IH]; intros current d Hnd Hok;
    cbn [V4l2.scan_devices]; [split; assumption |].
  destruct (_ && _); [apply IH; assumption |].
  destruct (Text.startswith _ line); [| apply IH; assumption].
  destruct (V4l2.search_video (V4l2.strip line)) as [digits|] eqn:Hsearch;
    [| split; assumption].
  destruct (Text.py_int_of_str limit digits) as [n|] eqn:Hint;
    [| split; assumption].
  destruct (Z.eqb_spec (n mod 2) 0) as [Heven | Hodd]; [| apply IH; assumption].
  apply IH; [apply dict_set_keys_nodup, Hnd |].
  apply List.Forall_forall. intros ke Hke.
  apply dict_set_in in Hke as [-> | Hke].
  - split; [exact Heven |]. exists digits. split; assumption.
  - rewrite List.Forall_forall in Hok. apply Hok, Hke.
Qed.

(** X2.  Whatever [v4l2-ctl --list-devices] printed, and also when running
    it raised or a device line could not be read, the dict
    [get_available_cameras] returns has each device number once, lists
    even device numbers only, and files every camera under the number that
    stands in its own path. *)
Theorem get_available_cameras_even_distinct
    (limit : option nat) (stdout : option string) :
  List.NoDup (V4l2.keys (V4l2.get_available_cameras limit stdout)) /\
  (forall k e,
      In (k, e) (V4l2.get_available_cameras limit stdout) ->
      k mod 2 = 0 /\
      exists digits,
        V4l2.search_video (V4l2.entry_path e) = Some digits /\
        Text.py_int_of_str limit digits = Some k).
Proof.
  unfold V4l2.get_available_cameras. destruct stdout as [out|].
  - destruct (scan_devices_invariant limit (Text.split (ascii_of_nat 10) out)
                None [] (List.NoDup_nil _) (List.Forall_nil _)) as [Hnd Hok].
    split; [exact Hnd |]. intros k e Hin.
    rewrite List.Forall_forall in Hok. exact (Hok (k, e) Hin).
  - split; [constructor | intros k e []].
Qed.

Lemma scan_best_invariant (specs : Z -> list (Z * Z)) (ids : list Z) :
  forall seen best br,
    best_so_far specs seen best br ->
    exists br',
      best_so_far specs (seen ++ ids) (V4l2.scan_best specs ids best br) br'.
Proof.
  induction ids as [|cam ids IH]; intros seen best br Hinv.
  - exists br. rewrite app_nil_r. exact Hinv.
  - assert (Hbr : 0 <= br /\ forall k, In k seen -> top_area specs k <= br).
    { destruct best as [b|]; cbn [best_so_far] in Hinv.
      - destruct Hinv as [Hb [Hpos [before [after [-> [Hbefore Hafter]]]]]].
        split; [lia |]. intros k Hk. apply in_app_or in Hk as [Hk | [<- | Hk]].
        + specialize (Hbefore k Hk). lia.
        + lia.
        + apply Hafter, Hk.
      - destruct Hinv as [-> Hall]. split; [lia | exact Hall]. }
    destruct Hbr as [Hbr Hseen].
    assert (Hkeep : top_area specs cam <= br ->
                    best_so_far specs (seen ++ [cam]) best br).
    { intros Hle. destruct best as [b|]; cbn [best_so_far] in *.
      - destruct Hinv as [Hb [Hpos [before [after [-> [Hbefore Hafter]]]]]].
        split; [exact Hb |]. split; [exact Hpos |].
        exists before, (after ++ [cam]). split.
        + rewrite <- app_assoc. reflexivity.
        + split; [exact Hbefore |]. intros k Hk.
          apply in_app_or in Hk as [Hk | [<- | []]]; [apply Hafter, Hk | exact Hle].
      - destruct Hinv as [-> Hall]. split; [reflexivity |].
        intros k Hk. apply in_app_or in Hk as [Hk | [<- | []]];
          [apply Hall, Hk | exact Hle]. }
    replace (seen ++ cam :: ids) with ((seen ++ [cam]) ++ ids)
      by (rewrite <- app_assoc; reflexivity).
    cbn [V4l2.scan_best]. unfold top_area in Hkeep.
    destruct (specs cam) as [|top rest] eqn:Hspecs.
    + apply IH, Hkeep. exact Hbr.
    + destruct (Z.ltb_spec br (V4l2.area top)) as [Hlt | Hge].
      * apply IH. cbn [best_so_far]. unfold top_area at 1. rewrite Hspecs.
        split; [reflexivity |]. split; [lia |].
        exists seen, []. split; [reflexivity |].
        split; [| intros k []].
        intros k Hk. specialize (Hseen k Hk). lia.
      * apply IH, Hkeep. exact Hge.
Qed.

(** X3.  [find_best_camera] returns 0 when no camera is listed.  Otherwise,
    for sizes of no negative area, it returns a listed camera whose first
    size has the largest area of all cameras' first sizes, and the first
    such camera in the order of the dict: the cameras before it have a
    strictly smaller one. *)
Theorem find_best_camera_first_largest
    (cameras : V4l2.camera_dict) (specs : Z -> list (Z * Z)) :
  (forall k, In k (V4l2.keys cameras) -> 0 <= top_area specs k) ->
  match V4l2.keys cameras with
  | [] => V4l2.find_best_camera cameras specs = 0
  | _ :: _ =>
      exists before after,
        V4l2.keys cameras
        = before ++ V4l2.find_best_camera cameras specs :: after /\
        (forall k, In k before ->
                   top_area specs k
                   < top_area specs (V4l2.find_best_camera cameras specs)) /\
        (forall k, In k after ->
                   top_area specs k
                   <= top_area specs (V4l2.find_best_camera cameras specs))
  end.
Proof.
  intros Hnonneg. unfold V4l2.find_best_camera.
  destruct (V4l2.keys cameras) as [|first rest] eqn:Hkeys; [reflexivity |].
  assert (Hstart : best_so_far specs [] None 0).
  { split; [reflexivity | intros k []]. }
  destruct (scan_best_invariant specs (first :: rest) [] None 0 Hstart)
    as [br Hinv].
  cbn [app] in Hinv.
  destruct (V4l2.scan_best specs (first :: rest) None 0) as [b|];
    cbn [best_so_far] in Hinv.
  - destruct Hinv as [-> [_ [before [after [E [Hbefore Hafter]]]]]].
    exists before, after. split; [exact E |]. split; assumption.
  - destruct Hinv as [_ Hall].
    assert (Hzero : forall k, In k (first :: rest) -> top_area specs k = 0).
    { intros k Hk. specialize (Hall k Hk). specialize (Hnonneg k Hk). lia. }
    exists [], rest. split; [reflexivity |]. split; [intros k [] |].
    intros k Hk. rewrite (Hzero k (or_intror Hk)), (Hzero first (or_introl eq_refl)).
    lia.
Qed.

Lemma find_best_camera_first_largest_witness :
  (forall k, In k (V4l2.keys sample_cameras) -> 0 <= top_area sample_specs k) /\
  V4l2.find_best_camera sample_cameras sample_specs = 2 /\
  exists before after,
    V4l2.keys sample_cameras
    = before ++ V4l2.find_best_camera sample_cameras sample_specs :: after /\
    (forall k, In k before ->
               top_area sample_specs k
               < top_area sample_specs
                   (V4l2.find_best_camera sample_cameras sample_specs)) /\
    (forall k, In k after ->
               top_area sample_specs k
               <= top_area sample_specs
                    (V4l2.find_best_camera sample_cameras sample_specs)).
Proof.
  assert (H : forall k, In k (V4l2.keys sample_cameras) ->
                        0 <= top_area sample_specs k).
  { intros k [<- | [<- | [<- | []]]]; vm_compute; discriminate. }
  split; [exact H |]. split; [reflexivity |].
  exact (find_best_camera_first_largest sample_cameras sample_specs H).
Defined.

(** The outcome of the probe on an open handle. *)
Lemma probe_outcome
    (drv : Driver) (w : world) (c : VideoCapture) :
  cap (self w) = Some c ->
  isOpened c = true ->
  let echoes := probe_echoes drv (device c) (props c) fps_to_test in
  let best := best_of (inject_Z 15) echoes in
  exists w',
    detect_camera_capabilities drv w = (Ok tt, w') /\
    log w' =
      log w ++ map (fun t => CapSet (device c) CAP_PROP_FPS (inject_Z t))
                 [60; 45; 36; 30; 25; 20; 15] /\
    fps (self w') = py_int best /\
    max_fps (self w') = py_int best /\
    (inject_Z 15 <= best)%Q /\
    Forall (fun e => (e <= best)%Q) echoes /\
    (best = inject_Z 15 \/ In best echoes) /\
    (Forall (fun e => (e <= inject_Z 30)%Q) echoes ->
     Exists (fun e => (e == inject_Z 30)%Q) echoes ->
     fps (self w') = 30 /\ max_fps (self w') = 30) /\
    (Forall (fun e => (e <= inject_Z 15)%Q) echoes ->
     fps (self w') = 15 /\ max_fps (self w') = 15).
Proof.
  intros Hcap Hopen echoes best.
  destruct w as [s al rd sp lg]. destruct c as [dev o st].
  cbn [self isOpened device props log] in *. subst o.
  eexists. split.
  { unfold detect_camera_capabilities.
    change (bind this ?k (World s al rd sp lg))
      with (k s (World s al rd sp lg)).
    cbv beta. rewrite Hcap. cbn [isOpened negb].
    rewrite (bind_ok _ _ _ _ _
               (for_each_probe_one drv dev fps_to_test st (inject_Z 15)
                  s al rd sp lg Hcap)).
    reflexivity. }
  fold echoes. fold best.
  cbn [self log fps max_fps set_rates].
  split; [reflexivity |]. split; [reflexivity |]. split; [reflexivity |].
  split; [apply best_of_ge_start |].
  split; [apply best_of_upper_bound |].
  split; [apply best_of_attained |].
  split.
  - intros Hall Hsome.
    assert (Hbest : (best == inject_Z 30)%Q).
    { apply Qle_antisym.
      - destruct (best_of_attained echoes (inject_Z 15)) as [E | Hin].
        + fold best in E. rewrite E. discriminate.
        + fold best in Hin. rewrite List.Forall_forall in Hall.
          apply Hall, Hin.
      - apply List.Exists_exists in Hsome as [e [Hin He]].
        pose proof (best_of_upper_bound echoes (inject_Z 15)) as Hub.
        rewrite List.Forall_forall in Hub. fold best in Hub.
        rewrite <- He. apply Hub, Hin. }
    rewrite (py_int_inject best 30 Hbest). split; reflexivity.
  - intros Hall. unfold best. rewrite (best_of_none_above echoes _ Hall).
    split; reflexivity.
Qed.

(** X4.  On an open handle the probe requests the rates 60, 45, 36, 30,
    25, 20, 15 in that order and nothing else, and sets both [fps] and
    [max_fps] to the integer part of the largest rate the device echoed
    back above the floor of 15: that rate is at least the floor and at
    least every echo, and it is the floor or one of the echoes.  Against a
    device that never echoes more than 30 and does echo 30, the adopted
    rate is exactly 30; against one that echoes nothing above 15 it is
    15. *)
Theorem detect_camera_capabilities_adopts_max
    (drv : Driver) (w : world) (c : VideoCapture) :
  cap (self w) = Some c ->
  isOpened c = true ->
  let echoes := probe_echoes drv (device c) (props c) fps_to_test in
  let best := best_of (inject_Z 15) echoes in
  exists w',
    detect_camera_capabilities drv w = (Ok tt, w') /\
    log w' =
      log w ++ map (fun t => CapSet (device c) CAP_PROP_FPS (inject_Z t))
                 [60; 45; 36; 30; 25; 20; 15] /\
    fps (self w') = py_int best /\
    max_fps (self w') = py_int best /\
    (inject_Z 15 <= best)%Q /\
    Forall (fun e => (e <= best)%Q) echoes /\
    (best = inject_Z 15 \/ In best echoes) /\
    (Forall (fun e => (e <= inject_Z 30)%Q) echoes ->
     Exists (fun e => (e == inject_Z 30)%Q) echoes ->
     fps (self w') = 30 /\ max_fps (self w') = 30) /\
    (Forall (fun e => (e <= inject_Z 15)%Q) echoes ->
     fps (self w') = 15 /\ max_fps (self w') = 15).
Proof. exact (probe_outcome drv w c). Qed.

Lemma detect_camera_capabilities_adopts_max_witness :
  let w := (init sample_driver 0).2 in
  let c := Cap 0 true (CapState 30 1280 720) in
  (cap (self w) = Some c /\ isOpened c = true) /\
  exists w',
    detect_camera_capabilities sample_driver w = (Ok tt, w') /\
    fps (self w') = 30 /\ max_fps (self w') = 30.
Proof.
  intros w c.
  assert (Hcap : cap (self w) = Some c) by (vm_compute; reflexivity).
  assert (Hopen : isOpened c = true) by reflexivity.
  split; [split; assumption |].
  destruct (detect_camera_capabilities_adopts_max sample_driver w c Hcap Hopen)
    as [w' [Hrun [_ [Hfps [Hmax _]]]]].
  exists w'. split; [exact Hrun |].
  split; [rewrite Hfps | rewrite Hmax]; vm_compute; reflexivity.
Defined.


(** C7, as the code has it.  The probe tests the rates 60, 45, 36, 30, 25,
    20, 15 in that order, and adopts as both [fps] and [max_fps] the
    integer part, as [int()] gives it, of the largest rate the device
    echoed back above the floor of 15.  Against a device that never echoes
    more than 30 and does echo 30 the adopted rate is exactly 30; against
    one that echoes nothing above 15 it stays at the floor. *)
Theorem probe_adopts_integer_part_of_max_echo
    (drv : Driver) (w : world) (c : VideoCapture) :
  cap (self w) = Some c ->
  isOpened c = true ->
  let echoes := probe_echoes drv (device c) (props c) fps_to_test in
  let best := best_of (inject_Z 15) echoes in
  exists w',
    detect_camera_capabilities drv w = (Ok tt, w') /\
    log w' =
      log w ++ map (fun t => CapSet (device c) CAP_PROP_FPS (inject_Z t))
                 [60; 45; 36; 30; 25; 20; 15] /\
    fps (self w') = py_int best /\
    max_fps (self w') = py_int best /\
    (inject_Z 15 <= best)%Q /\
    Forall (fun e => (e <= best)%Q) echoes /\
    (best = inject_Z 15 \/ In best echoes) /\
    (Forall (fun e => (e <= inject_Z 30)%Q) echoes ->
     Exists (fun e => (e == inject_Z 30)%Q) echoes ->
     fps (self w') = 30 /\ max_fps (self w') = 30) /\
    (Forall (fun e => (e <= inject_Z 15)%Q) echoes ->
     fps (self w') = 15 /\ max_fps (self w') = 15).
Proof. exact (probe_outcome drv w c). Qed.

Lemma probe_adopts_integer_part_of_max_echo_witness :
  let c := Cap 0 true (CapState (2997 # 100) 640 480) in
  (cap (self ntsc_opened) = Some c /\ isOpened c = true) /\
  exists w',
    detect_camera_capabilities ntsc_driver ntsc_opened = (Ok tt, w') /\
    fps (self w') = 29 /\ max_fps (self w') = 29.
Proof.
  intros c.
  assert (Hcap : cap (self ntsc_opened) = Some c) by reflexivity.
  assert (Hopen : isOpened c = true) by reflexivity.
  split; [split; assumption |].
  destruct (probe_adopts_integer_part_of_max_echo ntsc_driver ntsc_opened c
              Hcap Hopen)
    as [w' [Hrun [_ [Hfps [Hmax _]]]]].
  exists w'. split; [exact Hrun |].
  split; [rewrite Hfps | rewrite Hmax]; vm_compute; reflexivity.
Defined.

(** C7 as stated fails for a camera whose rate is not a whole number: the
    largest rate echoed is 29.97, and the rate adopted is [int(29.97)],
    which is 29. *)
Lemma probe_fractional_rate_counterexample :
  let echoes := probe_echoes ntsc_driver 0 (CapState (2997 # 100) 640 480)
                  fps_to_test in
  (cap (self ntsc_opened) = Some (Cap 0 true (CapState (2997 # 100) 640 480)) /\
   best_of (inject_Z 15) echoes = 2997 # 100 /\
   fps (self (detect_camera_capabilities ntsc_driver ntsc_opened).2) = 29 /\
   max_fps (self (detect_camera_capabilities ntsc_driver ntsc_opened).2) = 29 /\
   ~ (inject_Z 29 == 2997 # 100)%Q) /\
  ~ (forall (drv : Driver) (w : world) (c : VideoCapture),
        cap (self w) = Some c ->
        isOpened c = true ->
        (inject_Z (fps (self (detect_camera_capabilities drv w).2)) ==
         best_of (inject_Z 15)
           (probe_echoes drv (device c) (props c) fps_to_test))%Q).
Proof.
  intros echoes.
  assert (Hfps : fps (self (detect_camera_capabilities ntsc_driver ntsc_opened).2)
                 = 29) by (vm_compute; reflexivity).
  split.
  - split; [reflexivity |]. split; [vm_compute; reflexivity |].
    split; [exact Hfps |]. split; [vm_compute; reflexivity |].
    vm_compute. discriminate.
  - intros H.
    specialize (H ntsc_driver ntsc_opened
                  (Cap 0 true (CapState (2997 # 100) 640 480))
                  eq_refl eq_refl).
    rewrite Hfps in H. vm_compute in H. discriminate.
Qed.

(** ** Resolution and construction *)

(** X5.  [set_resolution] never takes the request for granted.  On an open
    handle it sends the format, the width, the height, the frame rate and
    the buffer size in that order, reads and drops one frame, and then
    stores as [width] and [height] the integer parts of what the handle
    reports, whatever was asked for.  On a handle that is not open nothing
    is sent and both become 0, the value [cap.get] gives there.  Without a
    handle nothing happens. *)
Theorem set_resolution_reads_back (drv : Driver) (w : world) (a b : Z) :
  match cap (self w) with
  | None => set_resolution drv a b w = (Ok tt, w)
  | Some c =>
      exists w',
        set_resolution drv a b w = (Ok tt, w') /\
        if isOpened c then
          let st := after_set_resolution drv (device c) (props c) a b
                      (fps (self w)) in
          cap (self w') = Some (Cap (device c) true st) /\
          width (self w') = py_int (st_width st) /\
          height (self w') = py_int (st_height st) /\
          log w' =
            log w ++
            [CapSet (device c) CAP_PROP_FOURCC (inject_Z FOURCC_MJPG);
             CapSet (device c) CAP_PROP_FRAME_WIDTH (inject_Z a);
             CapSet (device c) CAP_PROP_FRAME_HEIGHT (inject_Z b);
             CapSet (device c) CAP_PROP_FPS (inject_Z (fps (self w)));
             CapSet (device c) CAP_PROP_BUFFERSIZE 1%Q;
             CapRead (device c)]
        else
          cap (self w') = Some c /\
          width (self w') = 0 /\ height (self w') = 0 /\
          log w' = log w
  end.
Proof.
  destruct w as [[cid c wd ht fp mf ar fq cf ct rn] al rd sp lg].
  cbn [self cap fps log].
  destruct c as [[dev o st]|]; [| reflexivity].
  destruct o;
    cbv beta iota zeta delta
      [set_resolution after_set_resolution bind this cap_set cap_get cap_read
       assign emit ret set_cap set_size self cap isOpened device props
       camera_id width height fps max_fps available_resolutions frame_queue
       current_frame capture_thread running alive reading spawned log
       option_map].
  - eexists. split; [reflexivity |].
    split; [reflexivity |]. split; [reflexivity |]. split; [reflexivity |].
    rewrite <- !app_assoc. reflexivity.
  - eexists. split; [reflexivity |].
    split; [reflexivity |]. split; [reflexivity |]. split; reflexivity.
Qed.


(** ** The states of a running program *)

Lemma alive_started_relay (tid : nat) (shot : option (list Z)) (v : view) :
  (forall t, In t (v_alive v) -> (t < v_spawned v)%nat) ->
  forall t, In t (v_alive (relay_view tid shot v)) ->
            (t < v_spawned (relay_view tid shot v))%nat.
Proof.
  intros H t Hin.
  destruct (relay_view_kept tid shot v) as [_ [_ [_ [_ [_ ->]]]]].
  apply H. unfold relay_view in Hin.
  destruct (bool_decide _); [| exact Hin].
  destruct (capture_view_alive tid shot v) as [E | E]; rewrite E in Hin;
    [exact Hin |].
  unfold without_relay in Hin. apply List.filter_In in Hin as [Hin _].
  exact Hin.
Qed.

Lemma alive_started_wait (tid : nat) (l : list (nat * option (list Z))) :
  forall v,
    (forall t, In t (v_alive v) -> (t < v_spawned v)%nat) ->
    forall t, In t (v_alive (wait_view tid l v)) ->
              (t < v_spawned (wait_view tid l v))%nat.
Proof.
  induction l as [|[t0 shot] l IH]; intros v H; cbn [wait_view]; [exact H |].
  destruct (bool_decide _); [| exact H].
  apply IH, alive_started_relay, H.
Qed.

Lemma alive_started_stop (drv : Driver) (v : view) :
  (forall t, In t (v_alive v) -> (t < v_spawned v)%nat) ->
  forall t, In t (v_alive (stop_view drv v)) ->
            (t < v_spawned (stop_view drv v))%nat.
Proof.
  intros H. unfold stop_view. destruct (v_thread v) as [tid|]; [| exact H].
  unfold join_view. cbn [with_steps v_alive v_spawned].
  apply alive_started_wait. exact H.
Qed.

Lemma alive_started_start (drv : Driver) (v : view) :
  (forall t, In t (v_alive v) -> (t < v_spawned v)%nat) ->
  forall t, In t (v_alive (start_view drv v)) ->
            (t < v_spawned (start_view drv v))%nat.
Proof.
  intros H t. unfold start_view.
  set (v1 := match v_thread v with
             | Some tid =>
                 if bool_decide (tid ∈ v_alive v) then stop_view drv v else v
             | None => v
             end).
  assert (H1 : forall t, In t (v_alive v1) -> (t < v_spawned v1)%nat).
  { subst v1. destruct (v_thread v); [destruct (bool_decide _) |]; auto.
    apply alive_started_stop, H. }
  cbn [v_alive v_spawned]. intros Hin.
  apply in_app_or in Hin as [Hin | [<- | []]]; [| lia].
  specialize (H1 t Hin). lia.
Qed.

Lemma alive_started_act (drv : Driver) (v : view) (a : action) :
  (forall t, In t (v_alive v) -> (t < v_spawned v)%nat) ->
  forall t, In t (v_alive (act_view drv v a)) ->
            (t < v_spawned (act_view drv v a))%nat.
Proof.
  intros H. destruct a as [tid shot | | id]; cbn [act_view].
  - apply alive_started_relay, H.
  - unfold get_view. destruct (v_queue v); exact H.
  - assert (Ho : forall t, In t (v_alive (switch_opened_view drv id v)) ->
                 (t < v_spawned (switch_opened_view drv id v))%nat).
    { cbn [switch_opened_view v_alive v_spawned].
      apply alive_started_stop, H. }
    unfold switch_view. destruct (device_opens drv id); [| exact Ho].
    apply alive_started_start, Ho.
Qed.

Lemma reachable_alive_started (drv : Driver) (w : world) :
  reachable drv w -> forall t, In t (alive w) -> (t < spawned w)%nat.
Proof.
  intros Hr. destruct (reachable_view drv w Hr) as [id [acts [_ Hv]]].
  change (forall t, In t (v_alive (view_of w)) ->
                    (t < v_spawned (view_of w))%nat).
  rewrite Hv. clear Hv.
  assert (H0 : forall t, In t (v_alive (init_view id)) ->
                         (t < v_spawned (init_view id))%nat).
  { cbn. intros t [<- | []]. lia. }
  revert H0. generalize (init_view id) as v.
  induction acts as [|a acts IH]; intros v H0; [exact H0 |].
  apply IH, alive_started_act, H0.
Qed.

Lemma reachable_handle (drv : Driver) (w : world) :
  reachable drv w ->
  exists c, cap (self w) = Some c /\ device c = camera_id (self w).
Proof.
  intros Hr. destruct (reachable_invariants drv w Hr) as [_ [[[ok Hh] _] _]].
  change (v_handle (view_of w))
    with (option_map (fun c => (device c, isOpened c)) (cap (self w))) in Hh.
  destruct (cap (self w)) as [c|]; [| discriminate].
  exists c. split; [reflexivity |]. cbn in Hh. congruence.
Qed.

Lemma reachable_relay_bound (drv : Driver) (w : world) :
  reachable drv w ->
  joined_in_time (log w) = true ->
  forall before after,
    log w = before ++ after ->
    (length (relays_running [] before) <= 1)%nat.
Proof.
  intros Hr Hin before after Hlog.
  destruct (reachable_in_time drv w Hr Hin) as [[_ [_ [_ Hpeak]]] _].
  change (v_steps (view_of w)) with (steps (log w)) in Hpeak.
  rewrite relay_peak_steps, Hlog in Hpeak.
  pose proof (relay_peak_prefix before after []). lia.
Qed.

(** X6.  In every state a running program can be in, the queue holds at
    most [BUFFER_SIZE] frames, the handle is one for the device [camera_id]
    names, [capture_thread] names a thread, and every live relay was
    started earlier.  As long as no join has timed out there is more: at
    most one relay thread is alive, it is the one [capture_thread] names,
    [running] is true while it is alive, a read under way belongs to it,
    and after no event of the log were two relays alive. *)
Theorem reachable_state_invariants (drv : Driver) (w : world) :
  reachable drv w ->
  (length (frame_queue (self w)) <= BUFFER_SIZE)%nat /\
  (exists c, cap (self w) = Some c /\ device c = camera_id (self w)) /\
  (exists tid, capture_thread (self w) = Some tid) /\
  (forall tid, In tid (alive w) -> (tid < spawned w)%nat) /\
  (joined_in_time (log w) = true ->
   (alive w = [] \/
    exists tid, alive w = [tid] /\ capture_thread (self w) = Some tid) /\
   (alive w <> [] -> running (self w) = true) /\
   (forall tid got, In (tid, got) (reading w) -> In tid (alive w)) /\
   (forall before after,
       log w = before ++ after ->
       (length (relays_running [] before) <= 1)%nat)).
Proof.
  intros Hr.
  destruct (reachable_invariants drv w Hr)
    as [_ [[_ Hth] [_ [_ [_ Hlen]]]]].
  split; [exact Hlen |].
  split; [exact (reachable_handle drv w Hr) |].
  split; [exact Hth |].
  split; [exact (reachable_alive_started drv w Hr) |].
  intros Hin.
  destruct (reachable_in_time drv w Hr Hin) as [[Hone [Hrd _]] Hrun].
  split; [exact Hone |]. split; [exact Hrun |]. split; [exact Hrd |].
  exact (reachable_relay_bound drv w Hr Hin).
Qed.

Lemma reachable_state_invariants_witness :
  let w := switched_after_two sample_driver in
  (reachable sample_driver w /\ joined_in_time (log w) = true) /\
  (length (frame_queue (self w)) <= BUFFER_SIZE)%nat /\
  (alive w = [] \/
   exists tid, alive w = [tid] /\ capture_thread (self w) = Some tid) /\
  (alive w <> [] -> running (self w) = true).
Proof.
  intros w.
  assert (Hin : joined_in_time (log w) = true) by (vm_compute; reflexivity).
  split; [split; [exact reachable_switched_after_two | exact Hin] |].
  pose proof (reachable_state_invariants sample_driver w
                reachable_switched_after_two) as [H1 [_ [_ [_ H5]]]].
  split; [exact H1 |].
  exact (conj (proj1 (H5 Hin)) (proj1 (proj2 (H5 Hin)))).
Defined.

(** X7.  The constructor returns exactly when the device opens.  When it
    does, the streamer is on that device with an empty queue, no last-known
    frame and one relay running, at the test of its loop; when it does
    not, [open_camera] raises right after the failed open: no relay was
    started and nothing was configured. *)
Theorem init_outcome (drv : Driver) (id : Z) :
  if device_opens drv id then
    exists w,
      init drv id = (Ok tt, w) /\
      camera_id (self w) = id /\
      frame_queue (self w) = [] /\
      current_frame (self w) = None /\
      capture_thread (self w) = Some 0%nat /\
      running (self w) = true /\
      alive w = [0%nat] /\
      reading w = [] /\
      steps (log w) = [CapOpen id true; RelaySignal true; RelayStart 0]
  else
    init drv id =
    (Raise (CameraError id),
     World (set_cap (Some (Cap id false (on_open drv id))) (new_streamer id))
       [] [] 0%nat [CapOpen id false]).
Proof.
  destruct (device_opens drv id) eqn:Hok.
  - assert (Hinit : (init drv id).1 = Ok tt).
    { unfold init.
      destruct (open_camera_view drv (World (new_streamer id) [] [] 0%nat []))
        as [w1 [E1 _]].
      cbn [self new_streamer camera_id] in E1. rewrite Hok in E1.
      rewrite (bind_ok _ _ _ _ _ E1).
      destruct (view_start_capture_thread drv w1) as [w2 [E2 _]].
      rewrite E2. reflexivity. }
    destruct (view_init drv id Hinit) as [_ Hv].
    destruct (init drv id) as [r w] eqn:E. cbn [fst snd] in Hinit, Hv.
    subst r. exists w. split; [reflexivity |].
    unfold view_of, init_view in Hv.
    injection Hv as H1 H2 H3 H4 H5 H6 H7 H8 H9 H10.
    repeat split; assumption.
  - unfold init, open_camera, bind, this, assign, emit, ret, raise.
    cbn [self new_streamer cap camera_id]. rewrite Hok. reflexivity.
Qed.









(** ** The HTTP front *)

Lemma api_route_not_index (path : string) :
  Text.startswith "/api/camera" path = true -> String.eqb path "/" = false.
Proof.
  intros H. apply String.eqb_neq. intros ->. discriminate.
Qed.

Lemma do_GET_api (drv : Driver) (limit : option nat)
    (html : gmap Z camera_info -> Z -> streamer -> string)
    (path : string) (script : list stream_tick) (sv : server) :
  api_route path = true ->
  do_GET drv limit html path script sv = api_camera drv limit path sv.
Proof.
  unfold api_route. intros H. unfold do_GET.
  assert (Hs : Text.startswith "/api/camera" path = true).
  { apply andb_true_iff in H as [Hs _]. exact Hs. }
  rewrite (api_route_not_index path Hs), H. reflexivity.
Qed.

(** The outcomes of the [/api/camera] branch for an [id] that reads as an
    integer. *)
Lemma api_camera_result (drv : Driver) (limit : option nat)
    (html : gmap Z camera_info -> Z -> streamer -> string)
    (path : string) (script : list stream_tick) (sv : server) (n : Z) :
  api_route path = true ->
  request_id limit path = Ok n ->
  match cameras sv !! n with
  | None =>
      do_GET drv limit html path script sv
      = (Ok tt,
         Server (cameras sv) (current_camera sv) (streamer_obj sv)
           (sent sv ++ ok_response))
  | Some _ =>
      if device_opens drv n then
        do_GET drv limit html path script sv
        = (Ok tt,
           Server (cameras sv) n (switch_camera drv n (streamer_obj sv)).2
             (sent sv ++ ok_response))
      else
        do_GET drv limit html path script sv
        = (Raise (CameraError n),
           Server (cameras sv) n (switch_camera drv n (streamer_obj sv)).2
             (sent sv))
  end.
Proof.
  intros Hroute Hid. rewrite (do_GET_api drv limit html path script sv Hroute).
  unfold api_camera. rewrite Hid.
  destruct (cameras sv !! n) as [info|] eqn:Hcam.
  - rewrite bool_decide_eq_true_2 by (exists info; reflexivity).
    unfold on_streamer, set_current_camera.
    cbn [streamer_obj cameras current_camera sent].
    destruct (view_switch_camera drv n (streamer_obj sv)) as [w' [E _]].
    rewrite E. cbn [snd]. destruct (device_opens drv n); reflexivity.
  - rewrite bool_decide_eq_false_2 by (intros [x Hx]; discriminate).
    reflexivity.
Qed.

(** X9.  A request to [/api/camera] whose [id] reads as the integer [n].
    If [n] is not a listed camera, nothing is switched and the answer is
    still 200 with body [OK].  If [n] is listed and its device opens, the
    streamer is switched to it, [current_camera] becomes [n], and the
    answer is 200 with body [OK].  If [n] is listed and its device does not
    open, the handler raises after [current_camera] was already set to [n],
    and nothing is sent. *)
Theorem api_camera_outcomes (drv : Driver) (limit : option nat)
    (html : gmap Z camera_info -> Z -> streamer -> string)
    (path : string) (script : list stream_tick) (sv : server) (n : Z) :
  api_route path = true ->
  request_id limit path = Ok n ->
  match cameras sv !! n with
  | None =>
      do_GET drv limit html path script sv
      = (Ok tt,
         Server (cameras sv) (current_camera sv) (streamer_obj sv)
           (sent sv ++ ok_response))
  | Some _ =>
      if device_opens drv n then
        do_GET drv limit html path script sv
        = (Ok tt,
           Server (cameras sv) n (switch_camera drv n (streamer_obj sv)).2
             (sent sv ++ ok_response))
      else
        do_GET drv limit html path script sv
        = (Raise (CameraError n),
           Server (cameras sv) n (switch_camera drv n (streamer_obj sv)).2
             (sent sv))
  end.
Proof. exact (api_camera_result drv limit html path script sv n). Qed.

Lemma api_camera_outcomes_witness :
  let path := "/api/camera?id=7"%string in
  (api_route path = true /\ request_id (Some 4300%nat) path = Ok 7) /\
  do_GET sample_driver (Some 4300%nat) sample_index_html path [] sample_server
  = (Ok tt,
     Server (cameras sample_server) (current_camera sample_server)
       (streamer_obj sample_server) (sent sample_server ++ ok_response)).
Proof.
  intros path.
  assert (H1 : api_route path = true) by (vm_compute; reflexivity).
  assert (H2 : request_id (Some 4300%nat) path = Ok 7)
    by (vm_compute; reflexivity).
  assert (Hlook : cameras sample_server !! 7 = None)
    by (vm_compute; reflexivity).
  split; [split; assumption |].
  pose proof (api_camera_outcomes sample_driver (Some 4300%nat)
                sample_index_html path [] sample_server 7 H1 H2) as H.
  rewrite Hlook in H. exact H.
Defined.

(** C9, as the code has it.  A request to [/api/camera] whose [id] reads
    as the integer [n] is answered 200 with body [OK] whenever the handler
    does not raise: when [n] is a listed camera and its device opens, in
    which case [current_camera] becomes [n] and the streamer is switched
    to it, and also when [n] is not a listed camera, in which case nothing
    is switched.  When [n] is listed and its device does not open the
    handler raises after [current_camera] was set to [n], and nothing is
    sent. *)
Theorem api_camera_answers_ok_unless_switch_raises (drv : Driver) (limit : option nat)
    (html : gmap Z camera_info -> Z -> streamer -> string)
    (path : string) (script : list stream_tick) (sv : server) (n : Z) :
  api_route path = true ->
  request_id limit path = Ok n ->
  match cameras sv !! n with
  | None =>
      do_GET drv limit html path script sv
      = (Ok tt,
         Server (cameras sv) (current_camera sv) (streamer_obj sv)
           (sent sv ++ ok_response))
  | Some _ =>
      if device_opens drv n then
        do_GET drv limit html path script sv
        = (Ok tt,
           Server (cameras sv) n (switch_camera drv n (streamer_obj sv)).2
             (sent sv ++ ok_response))
      else
        do_GET drv limit html path script sv
        = (Raise (CameraError n),
           Server (cameras sv) n (switch_camera drv n (streamer_obj sv)).2
             (sent sv))
  end.
Proof. exact (api_camera_result drv limit html path script sv n). Qed.

Lemma api_camera_answers_ok_unless_switch_raises_witness :
  let path := "/api/camera?id=2"%string in
  (api_route path = true /\ request_id (Some 4300%nat) path = Ok 2) /\
  do_GET sample_driver (Some 4300%nat) sample_index_html path [] sample_server
  = (Ok tt,
     Server (cameras sample_server) 2
       (switch_camera sample_driver 2 (streamer_obj sample_server)).2
       (sent sample_server ++ ok_response)).
Proof.
  intros path.
  assert (H1 : api_route path = true) by (vm_compute; reflexivity).
  assert (H2 : request_id (Some 4300%nat) path = Ok 2)
    by (vm_compute; reflexivity).
  assert (Hlook : cameras sample_server !! 2
                  = Some (CameraInfo "USB camera" "/dev/video2"))
    by (vm_compute; reflexivity).
  assert (Hopen : device_opens sample_driver 2 = true) by reflexivity.
  split; [split; assumption |].
  pose proof (api_camera_answers_ok_unless_switch_raises sample_driver
                (Some 4300%nat) sample_index_html path [] sample_server 2
                H1 H2) as H.
  rewrite Hlook, Hopen in H. exact H.
Defined.

(** C9 as stated fails for an id that is not listed: no switch is
    triggered, the streamer stays as it is, and the answer is 200 with
    body [OK] all the same. *)
Lemma api_camera_unlisted_id_counterexample :
  let path := "/api/camera?id=7"%string in
  (api_route path = true /\
   request_id (Some 4300%nat) path = Ok 7 /\
   cameras sample_server !! 7 = None) /\
  (do_GET sample_driver (Some 4300%nat) sample_index_html path []
     sample_server).1 = Ok tt /\
  streamer_obj (do_GET sample_driver (Some 4300%nat) sample_index_html path []
                  sample_server).2
  = streamer_obj sample_server /\
  current_camera (do_GET sample_driver (Some 4300%nat) sample_index_html path
                    [] sample_server).2
  = current_camera sample_server /\
  sent (do_GET sample_driver (Some 4300%nat) sample_index_html path []
          sample_server).2
  = [SendResponse 200; SendHeader "Content-type" "text/plain"; EndHeaders;
     WriteText "OK"].
Proof.
  intros path.
  assert (H1 : api_route path = true) by (vm_compute; reflexivity).
  assert (H2 : request_id (Some 4300%nat) path = Ok 7)
    by (vm_compute; reflexivity).
  assert (Hlook : cameras sample_server !! 7 = None)
    by (vm_compute; reflexivity).
  split; [split; [exact H1 | split; [exact H2 | exact Hlook]] |].
  pose proof (api_camera_result sample_driver (Some 4300%nat)
                sample_index_html path [] sample_server 7 H1 H2) as H.
  rewrite Hlook in H. rewrite H. cbn [fst snd streamer_obj current_camera sent].
  split; [reflexivity |]. split; [reflexivity |]. split; reflexivity.
Qed.

Lemma dict_append_values (name value : string)
    (d : list (string * list string)) :
  Forall (fun kv => snd kv <> []) d ->
  Forall (fun kv => snd kv <> []) (Text.dict_append name value d).
Proof.
  induction 1 as [|[k vs] d Hkv Hd IH]; cbn [Text.dict_append].
  - constructor; [discriminate | constructor].
  - destruct (String.eqb k name); constructor; try assumption.
    cbn. destruct vs; discriminate.
Qed.

Lemma parse_qs_values (qs : string) :
  Forall (fun kv => snd kv <> []) (Text.parse_qs qs).
Proof.
  unfold Text.parse_qs.
  assert (H : forall pairs d,
             Forall (fun kv : string * list string => snd kv <> []) d ->
             Forall (fun kv : string * list string => snd kv <> [])
               (fold_left (fun d '(name, value) => Text.dict_append name value d)
                  pairs d)).
  { induction pairs as [|[name value] pairs IH]; intros d Hd; [exact Hd |].
    cbn [fold_left]. apply IH, dict_append_values, Hd. }
  apply H. constructor.
Qed.

Lemma getitem_in (key : string) (d : list (string * list string))
    (vs : list string) :
  Text.getitem key d = Some vs -> exists k, In (k, vs) d.
Proof.
  induction d as [|[k v] d IH]; cbn [Text.getitem]; [discriminate |].
  destruct (String.eqb k key).
  - intros [= <-]. exists k. left. reflexivity.
  - intros H. destruct (IH H) as [k' Hk']. exists k'. right. exact Hk'.
Qed.

(** C10.  When the [id] of a request to [/api/camera] cannot be read, the
    handler raises before anything is sent and before anything changes:
    [ValueError] when the first [id] value is not an integer literal,
    [KeyError] when the query has no [id] field with a value.  It never
    raises [IndexError]: a field that made it into the dict has a value. *)
Theorem api_camera_unreadable_id (drv : Driver) (limit : option nat)
    (html : gmap Z camera_info -> Z -> streamer -> string)
    (path : string) (script : list stream_tick) (sv : server) (e : exn) :
  api_route path = true ->
  request_id limit path = Raise e ->
  do_GET drv limit html path script sv = (Raise e, sv) /\
  (e = KeyError \/ e = ValueError).
Proof.
  intros Hroute Hid. rewrite (do_GET_api drv limit html path script sv Hroute).
  unfold api_camera. rewrite Hid. split; [reflexivity |].
  unfold request_id in Hid.
  destruct (Text.getitem "id" (Text.parse_qs (Text.urlparse_query path)))
    as [[|value rest]|] eqn:Hget.
  - exfalso. destruct (getitem_in _ _ _ Hget) as [k Hin].
    pose proof (parse_qs_values (Text.urlparse_query path)) as Hall.
    rewrite List.Forall_forall in Hall. exact (Hall _ Hin eq_refl).
  - destruct (Text.py_int_of_str limit value); [discriminate |].
    injection Hid as <-. right. reflexivity.
  - injection Hid as <-. left. reflexivity.
Qed.

Lemma api_camera_unreadable_id_witness :
  (api_route "/api/camera?id=abc" = true /\
   request_id (Some 4300%nat) "/api/camera?id=abc" = Raise ValueError) /\
  do_GET sample_driver (Some 4300%nat) sample_index_html
    "/api/camera?id=abc" [] sample_server
  = (Raise ValueError, sample_server).
Proof.
  assert (H1 : api_route "/api/camera?id=abc" = true)
    by (vm_compute; reflexivity).
  assert (H2 : request_id (Some 4300%nat) "/api/camera?id=abc"
               = Raise ValueError) by (vm_compute; reflexivity).
  split; [split; assumption |].
  exact (proj1 (api_camera_unreadable_id sample_driver (Some 4300%nat)
                  sample_index_html "/api/camera?id=abc" [] sample_server
                  ValueError H1 H2)).
Defined.

(** Targets that take the branch because [id=] occurs in them, and have
    no [id] field all the same. *)
Example request_id_without_id_field :
  api_route "/api/camera?pid=3" = true /\
  request_id (Some 4300%nat) "/api/camera?pid=3" = Raise KeyError /\
  api_route "/api/camera?id=" = true /\
  request_id (Some 4300%nat) "/api/camera?id=" = Raise KeyError /\
  request_id (Some 4300%nat) "/api/camera?id=+2&id=x" = Ok 2.
Proof. repeat split; vm_compute; reflexivity. Qed.



Lemma on_streamer_keeps {A} (m : M A) (sv : server) :
  cameras (on_streamer m sv).2 = cameras sv /\
  current_camera (on_streamer m sv).2 = current_camera sv /\
  sent (on_streamer m sv).2 = sent sv /\
  streamer_obj (on_streamer m sv).2 = (m (streamer_obj sv)).2.
Proof.
  unfold on_streamer. destruct (m (streamer_obj sv)) as [r w].
  repeat split.
Qed.

Lemma stream_loop_parts (drv : Driver) (script : list stream_tick) :
  forall sv,
    exists frames,
      sent (stream_loop drv script sv)
      = sent sv ++ flat_map stream_part frames /\
      (length frames <= length script)%nat /\
      Forall (fun data => data <> []) frames /\
      cameras (stream_loop drv script sv) = cameras sv /\
      current_camera (stream_loop drv script sv) = current_camera sv.
Proof.
  induction script as [|tick script IH]; intros sv.
  - exists []. cbn. rewrite app_nil_r. repeat split; auto.
  - cbn [stream_loop].
    destruct (on_streamer (relay_steps drv (turns tick)) sv) as [r0 sv0] eqn:E0.
    destruct (on_streamer_keeps (relay_steps drv (turns tick)) sv)
      as [Hc0 [Hcur0 [Hs0 _]]].
    rewrite E0 in Hc0, Hcur0, Hs0. cbn [snd] in Hc0, Hcur0, Hs0.
    destruct (on_streamer (get_frame drv) sv0) as [r1 sv1] eqn:E1.
    destruct (on_streamer_keeps (get_frame drv) sv0) as [Hc1 [Hcur1 [Hs1 _]]].
    rewrite E1 in Hc1, Hcur1, Hs1. cbn [snd] in Hc1, Hcur1, Hs1.
    assert (Hstop : exists frames,
      sent sv1 = sent sv ++ flat_map stream_part frames /\
      (length frames <= S (length script))%nat /\
      Forall (fun data => data <> []) frames /\
      cameras sv1 = cameras sv /\ current_camera sv1 = current_camera sv).
    { exists []. cbn [flat_map length]. rewrite app_nil_r.
      split; [congruence |]. split; [lia |]. split; [constructor |].
      split; congruence. }
    assert (Hgo : exists frames,
      sent (stream_loop drv script sv1)
      = sent sv ++ flat_map stream_part frames /\
      (length frames <= S (length script))%nat /\
      Forall (fun data => data <> []) frames /\
      cameras (stream_loop drv script sv1) = cameras sv /\
      current_camera (stream_loop drv script sv1) = current_camera sv).
    { destruct (IH sv1) as [frames [Hsent [Hlen [Hne [Hc Hcur]]]]].
      exists frames. split; [rewrite Hsent; congruence |].
      split; [lia |]. split; [exact Hne |]. split; congruence. }
    destruct r1 as [[[|b data]|]|e]; try exact Hgo; try exact Hstop.
    destruct (client_connected tick); [| exact Hstop].
    destruct (IH (send (stream_part (b :: data)) sv1))
      as [frames [Hsent [Hlen [Hne [Hc Hcur]]]]].
    exists ((b :: data) :: frames).
    split.
    { change (send [WriteText ("--frame" ++ CRLF)%string;
                    SendHeader "Content-Type" "image/jpeg";
                    SendHeader "Content-Length" (decimal (length (b :: data)));
                    EndHeaders; WriteBytes (b :: data); WriteText CRLF; Flush]
                sv1)
        with (send (stream_part (b :: data)) sv1).
      rewrite Hsent. cbn [send sent flat_map]. rewrite Hs1, Hs0.
      rewrite <- app_assoc. reflexivity. }
    split; [cbn [length]; lia |].
    split; [constructor; [discriminate | exact Hne] |].
    change (send [WriteText ("--frame" ++ CRLF)%string;
                  SendHeader "Content-Type" "image/jpeg";
                  SendHeader "Content-Length" (decimal (length (b :: data)));
                  EndHeaders; WriteBytes (b :: data); WriteText CRLF; Flush]
              sv1)
      with (send (stream_part (b :: data)) sv1).
    split; [rewrite Hc | rewrite Hcur]; cbn [send cameras current_camera];
      congruence.
Qed.



(** ** The server loop *)

Lemma act_camera_id (drv : Driver) (w : world) (a : action) :
  is_switch a = false ->
  camera_id (self (act drv w a)) = camera_id (self w).
Proof.
  intros Ha. change (v_camera_id (view_of (act drv w a)) = v_camera_id (view_of w)).
  rewrite view_act.
  apply (camera_id_kept drv [a]).
  cbn. rewrite Ha. reflexivity.
Qed.

Lemma relay_steps_run (drv : Driver) (l : list (nat * option (list Z))) :
  forall w,
    (relay_steps drv l w).2
    = run_actions drv (map (fun p => Relay (fst p) (snd p)) l) w.
Proof.
  induction l as [|[tid shot] l IH]; intros w; [reflexivity |].
  cbn [relay_steps map run_actions fold_left act fst snd].
  destruct (view_relay_step drv tid shot w) as [w1 [E _]].
  rewrite (bind_ok _ _ _ _ _ E), E. cbn [snd]. apply IH.
Qed.

Lemma started_act (drv : Driver) (sv : server) (a : action) :
  is_switch a = false ->
  started drv sv ->
  started drv
    (Server (cameras sv) (current_camera sv) (act drv (streamer_obj sv) a)
       (sent sv)).
Proof.
  intros Ha [Hr Hcur]. split; cbn [streamer_obj current_camera].
  - apply reachable_act, Hr.
  - rewrite act_camera_id by exact Ha. exact Hcur.
Qed.

Lemma started_send (drv : Driver) (out : list wire) (sv : server) :
  started drv sv -> started drv (send out sv).
Proof. intros H. exact H. Qed.

Lemma started_relay_steps (drv : Driver) (l : list (nat * option (list Z))) :
  forall sv,
    started drv sv -> started drv (on_streamer (relay_steps drv l) sv).2.
Proof.
  intros sv [Hr Hcur].
  destruct (on_streamer_keeps (relay_steps drv l) sv) as [_ [Hc [_ Hs]]].
  split; rewrite ?Hs, ?Hc, relay_steps_run.
  - apply reachable_run_actions, Hr.
  - rewrite Hcur.
    change (v_camera_id (view_of (streamer_obj sv)) =
            v_camera_id
              (view_of (run_actions drv
                          (map (fun p => Relay (fst p) (snd p)) l)
                          (streamer_obj sv)))).
    rewrite view_run_actions. symmetry. apply camera_id_kept.
    clear. induction l as [|[t shot] l IH]; [reflexivity | exact IH].
Qed.

Lemma started_get_frame (drv : Driver) (sv : server) :
  started drv sv -> started drv (on_streamer (get_frame drv) sv).2.
Proof.
  intros H.
  destruct (on_streamer_keeps (get_frame drv) sv) as [Hcams [Hc [Hsent Hs]]].
  pose proof (started_act drv sv GetFrame eq_refl H) as [Hr Hcur].
  cbn [streamer_obj current_camera act] in Hr, Hcur.
  split; rewrite ?Hs, ?Hc; assumption.
Qed.

Lemma started_stream_loop (drv : Driver) (script : list stream_tick) :
  forall sv, started drv sv -> started drv (stream_loop drv script sv).
Proof.
  induction script as [|tick script IH]; intros sv H; [exact H |].
  cbn [stream_loop].
  pose proof (started_relay_steps drv (turns tick) sv H) as H0.
  destruct (on_streamer (relay_steps drv (turns tick)) sv) as [r0 sv0].
  cbn [snd] in H0.
  pose proof (started_get_frame drv sv0 H0) as H1.
  destruct (on_streamer (get_frame drv) sv0) as [r1 sv1]. cbn [snd] in H1.
  destruct r1 as [[[|b data]|]|e]; try (apply IH; exact H1); try exact H1.
  destruct (client_connected tick); [| exact H1].
  apply IH. exact H1.
Qed.

Lemma started_do_GET (drv : Driver) (limit : option nat)
    (html : gmap Z camera_info -> Z -> streamer -> string)
    (path : string) (script : list stream_tick) (sv : server) :
  started drv sv ->
  started drv (do_GET drv limit html path script sv).2 /\
  cameras (do_GET drv limit html path script sv).2 = cameras sv.
Proof.
  intros H. unfold do_GET.
  destruct (String.eqb path "/"); [split; [exact H | reflexivity] |].
  destruct (_ && _).
  - unfold api_camera. destruct (request_id limit path) as [n|e];
      [| split; [exact H | reflexivity]].
    destruct (bool_decide _).
    + unfold on_streamer, set_current_camera.
      cbn [streamer_obj cameras current_camera sent].
      destruct (switch_camera drv n (streamer_obj sv)) as [r w'] eqn:E.
      assert (Hw : w' = act drv (streamer_obj sv) (SwitchCamera n)).
      { cbn [act]. rewrite E. reflexivity. }
      assert (Hst : started drv (Server (cameras sv) n w' (sent sv))).
      { destruct H as [Hr _]. split; cbn [streamer_obj current_camera].
        - rewrite Hw. apply reachable_act, Hr.
        - change (n = v_camera_id (view_of w')). rewrite Hw, view_act.
          cbn [act_view]. symmetry.
          apply (switch_view_fields drv n). }
      destruct r as [b|e]; split; try exact Hst; reflexivity.
    + split; [exact H | reflexivity].
  - destruct (String.eqb path "/stream.mjpg");
      [| split; [exact H | reflexivity]].
    cbn [snd]. split.
    + apply started_stream_loop. exact H.
    + destruct (stream_loop_parts drv script
                  (send [SendResponse 200;
                         SendHeader "Content-Type"
                           "multipart/x-mixed-replace; boundary=frame";
                         SendHeader "Cache-Control" "no-cache";
                         SendHeader "Connection" "close";
                         EndHeaders] sv))
        as [frames [_ [_ [_ [Hc _]]]]].
      rewrite Hc. reflexivity.
Qed.

(** X12.  Handlers run one at a time.  From a server whose streamer was
    constructed and whose [current_camera] names the streamer's device,
    and for any sequence of requests and relay steps: [current_camera]
    always names the device the streamer is on and the handle was opened
    for, and the camera list never changes, also when several switch
    requests arrive one after the other and some of them fail.  As long
    as no join has timed out, no two relays were alive at any point. *)
Theorem serve_forever_invariants (drv : Driver) (limit : option nat)
    (html : gmap Z camera_info -> Z -> streamer -> string)
    (arrivals : list arrival) (sv : server) :
  started drv sv ->
  let sv' := serve_forever drv limit html arrivals sv in
  started drv sv' /\
  cameras sv' = cameras sv /\
  (exists c, cap (self (streamer_obj sv')) = Some c /\
             device c = current_camera sv') /\
  (joined_in_time (log (streamer_obj sv')) = true ->
   (length (alive (streamer_obj sv')) <= 1)%nat /\
   (forall before after,
       log (streamer_obj sv') = before ++ after ->
       (length (relays_running [] before) <= 1)%nat)).
Proof.
  intros H sv'.
  assert (Hinv : started drv sv' /\ cameras sv' = cameras sv).
  { subst sv'. revert sv H. induction arrivals as [|a arrivals IH]; intros sv H.
    - split; [exact H | reflexivity].
    - cbn [serve_forever fold_left].
      change (fold_left (serve_one drv limit html) arrivals
                (serve_one drv limit html sv a))
        with (serve_forever drv limit html arrivals
                (serve_one drv limit html sv a)).
      assert (Hone : started drv (serve_one drv limit html sv a) /\
                     cameras (serve_one drv limit html sv a) = cameras sv).
      { destruct a as [path script | tid shot]; cbn [serve_one].
        - apply started_do_GET, H.
        - destruct (on_streamer_keeps (relay_step drv tid shot) sv)
            as [Hcams [Hc [_ Hs]]].
          split; [| exact Hcams].
          pose proof (started_act drv sv (Relay tid shot) eq_refl H)
            as [Hr Hcur].
          cbn [streamer_obj current_camera act] in Hr, Hcur.
          split; rewrite ?Hs, ?Hc; assumption. }
      destruct Hone as [Hst Hcams].
      destruct (IH _ Hst) as [Hst' Hcams']. split; [exact Hst' |].
      rewrite Hcams'. exact Hcams. }
  destruct Hinv as [[Hr Hcur] Hcams].
  split; [split; assumption |]. split; [exact Hcams |].
  destruct (reachable_handle drv _ Hr) as [c [Hc Hdev]].
  split; [exists c; split; [exact Hc | congruence] |].
  intros Hin. split; [| exact (reachable_relay_bound drv _ Hr Hin)].
  destruct (reachable_in_time drv _ Hr Hin) as [[Hone _] _].
  change (v_alive (view_of (streamer_obj sv')))
    with (alive (streamer_obj sv')) in Hone.
  destruct Hone as [-> | [tid [-> _]]]; cbn; lia.
Qed.

(** ** Switch requests one after the other *)



Lemma started_sample_server : started sample_driver sample_server.
Proof. split; [exact reachable_two_published | vm_compute; reflexivity]. Defined.




(** ** A join that times out *)

Lemma single_relay_stop_any (drv : Driver) (v : view) :
  single_relay v -> single_relay (stop_view drv v).
Proof.
  intros H. unfold stop_view.
  set (v0 := with_steps [RelaySignal false] (with_running false v)).
  assert (H0 : single_relay v0).
  { eapply (single_relay_ext v v0 [RelaySignal false]); try reflexivity;
      [exact H | exact (proj1 (proj2 H))]. }
  destruct (v_thread v) as [tid|]; [| exact H0].
  unfold join_view.
  set (v1 := wait_view tid (while_joining drv (joins (v_steps v0)) tid) v0).
  assert (H1 : single_relay v1) by (apply single_relay_wait, H0).
  eapply (single_relay_ext v1 _ [RelayJoin tid _]); try reflexivity;
    [exact H1 | exact (proj1 (proj2 H1))].
Qed.

Lemma thread_started_act (drv : Driver) (v : view) (a : action) :
  (forall t, v_thread v = Some t -> (t < v_spawned v)%nat) ->
  forall t, v_thread (act_view drv v a) = Some t ->
            (t < v_spawned (act_view drv v a))%nat.
Proof.
  intros H t. destruct a as [tid shot | | id]; cbn [act_view].
  - destruct (relay_view_kept tid shot v) as [_ [_ [_ [-> [_ ->]]]]]. apply H.
  - unfold get_view. destruct (v_queue v); apply H.
  - unfold switch_view. destruct (device_opens drv id).
    + destruct (start_view_kept drv (switch_opened_view drv id v))
        as [_ [_ [_ [-> [_ ->]]]]].
      intros [= <-]. apply Nat.lt_succ_diag_r.
    + cbn [switch_opened_view v_thread v_spawned].
      destruct (stop_view_kept drv v) as [_ [_ [_ [-> [_ ->]]]]]. apply H.
Qed.

Lemma reachable_thread_started (drv : Driver) (w : world) (t : nat) :
  reachable drv w -> capture_thread (self w) = Some t -> (t < spawned w)%nat.
Proof.
  intros Hr. destruct (reachable_view drv w Hr) as [id [acts [_ Hv]]].
  change (v_thread (view_of w) = Some t -> (t < v_spawned (view_of w))%nat).
  rewrite Hv. clear Hv. revert t.
  assert (H0 : forall t, v_thread (init_view id) = Some t ->
                         (t < v_spawned (init_view id))%nat).
  { cbn. intros t [= <-]. lia. }
  revert H0. generalize (init_view id) as v.
  induction acts as [|a acts IH]; intros v H0; [exact H0 |].
  apply IH, thread_started_act, H0.
Qed.

(** X13.  What a join that times out leads to.  In a run that was orderly
    so far, a switch to a device that opens, at whose end the old relay is
    still alive, has started the new relay beside it: two relays are
    alive, [running] is true again, so the old relay goes on round its
    loop, and [capture_thread] names the new one only.  The log shows the
    join that timed out. *)
Theorem timed_out_join_leaves_two_relays
    (drv : Driver) (w w' : world) (id : Z) (tid : nat) :
  reachable drv w ->
  joined_in_time (log w) = true ->
  capture_thread (self w) = Some tid ->
  switch_camera drv id w = (Ok true, w') ->
  In tid (alive w') ->
  alive w' = [tid; spawned w] /\
  tid <> spawned w /\
  running (self w') = true /\
  capture_thread (self w') = Some (spawned w) /\
  joined_in_time (log w') = false.
Proof.
  intros Hr Hin Ht Hsw Halive.
  pose proof (reachable_thread_started drv w tid Hr Ht) as Hlt.
  destruct (reachable_in_time drv w Hr Hin) as [Hs _].
  destruct (view_switch_camera drv id w) as [w1 [E Ev]].
  rewrite Hsw in E.
  assert (Hok : device_opens drv id = true).
  { destruct (device_opens drv id); [reflexivity | discriminate]. }
  rewrite Hok in E. injection E as <-.
  unfold switch_view in Ev. rewrite Hok in Ev.
  set (v := view_of w) in *.
  set (v5 := switch_opened_view drv id v) in *.
  assert (Hs5 : single_relay v5).
  { eapply (single_relay_ext (stop_view drv v)); try reflexivity;
      [apply single_relay_stop_any, Hs
      | exact (proj1 (proj2 (single_relay_stop_any drv v Hs))) |].
    rewrite !forallb_app.
    destruct (slot_gets_neutral (v_queue (stop_view drv v))) as [_ ->].
    destruct (v_handle v) as [[old o]|]; reflexivity. }
  destruct (stop_view_kept drv v) as [_ [_ [_ [Hth1 [_ Hsp1]]]]].
  assert (Ht5 : v_thread v5 = Some tid).
  { subst v5. cbn [switch_opened_view v_thread]. rewrite Hth1. exact Ht. }
  assert (Hsp5 : v_spawned v5 = spawned w).
  { subst v5. cbn [switch_opened_view v_spawned]. rewrite Hsp1. reflexivity. }
  change (alive w') with (v_alive (view_of w')) in *.
  change (running (self w')) with (v_running (view_of w')).
  change (capture_thread (self w')) with (v_thread (view_of w')).
  assert (Hlog : joined_in_time (log w')
                 = joined_in_time (v_steps (view_of w'))).
  { cbn [view_of v_steps]. rewrite joined_in_time_steps. reflexivity. }
  rewrite Hlog. rewrite Ev in *. clear Hlog.
  unfold start_view in *. rewrite Ht5 in *.
  destruct (bool_decide (tid ∈ v_alive v5)) eqn:Hlive.
  - pose proof (single_relay_stop_any drv v5 Hs5) as Hs6.
    destruct (stop_view_kept drv v5) as [_ [_ [_ [Hth6 [_ Hsp6]]]]].
    destruct (stop_view_steps drv v5 tid Ht5) as [waited [b [Hst [_ [Hb _]]]]].
    cbn [v_alive v_running v_thread v_steps] in *.
    rewrite Hsp6, Hsp5 in *.
    apply in_app_or in Halive as [Halive | [Heq | []]]; [| lia].
    destruct (proj1 Hs6) as [Hal | [t [Hal _]]];
      [rewrite Hal in Halive; contradiction |].
    rewrite Hal in Halive. destruct Halive as [-> | []].
    split; [rewrite Hal; reflexivity |]. split; [lia |].
    split; [reflexivity |]. split; [reflexivity |].
    rewrite Hst. rewrite !joined_in_time_app.
    assert (Hb' : b = true).
    { rewrite Hb. apply bool_decide_eq_true. rewrite Hal.
      apply list_elem_of_singleton. reflexivity. }
    rewrite Hb'. cbn. rewrite !andb_false_r. reflexivity.
  - cbn [v_alive] in Halive.
    apply in_app_or in Halive as [Halive | [Heq | []]]; [| lia].
    apply bool_decide_eq_false in Hlive. exfalso. apply Hlive.
    apply list_elem_of_In. exact Halive.
Qed.

Lemma timed_out_join_leaves_two_relays_witness :
  let w := run_actions stalled_driver [Relay 0 (Some [1; 1; 1])]
             (init stalled_driver 0).2 in
  (reachable stalled_driver w /\
   joined_in_time (log w) = true /\
   capture_thread (self w) = Some 0%nat /\
   switch_camera stalled_driver 2 w = (Ok true, switched_during_read) /\
   In 0%nat (alive switched_during_read)) /\
  alive switched_during_read = [0%nat; spawned w] /\
  running (self switched_during_read) = true.
Proof.
  intros w.
  assert (Hr : reachable stalled_driver w).
  { exists 0, [Relay 0 (Some [1; 1; 1])]. split; vm_compute; reflexivity. }
  assert (H1 : joined_in_time (log w) = true) by (vm_compute; reflexivity).
  assert (H2 : capture_thread (self w) = Some 0%nat) by (vm_compute; reflexivity).
  assert (H3 : switch_camera stalled_driver 2 w = (Ok true, switched_during_read))
    by (vm_compute; reflexivity).
  assert (H4 : In 0%nat (alive switched_during_read)) by (vm_compute; tauto).
  split.
  - split; [exact Hr |]. split; [exact H1 |]. split; [exact H2 |].
    split; [exact H3 | exact H4].
  - pose proof (timed_out_join_leaves_two_relays stalled_driver w
                  switched_during_read 2 0%nat Hr H1 H2 H3 H4) as H.
    exact (conj (proj1 H) (proj1 (proj2 (proj2 H)))).
Defined.


Lemma serve_forever_invariants_witness :
  let arrivals := [Request "/api/camera?id=2" [];
                   RelayStep 1 (Some [7; 7; 7]);
                   Request "/nothing" []] in
  let sv' := serve_forever sample_driver (Some 4300%nat) sample_index_html
               arrivals sample_server in
  started sample_driver sample_server /\
  started sample_driver sv' /\
  cameras sv' = cameras sample_server.
Proof.
  intros arrivals sv'.
  pose proof (serve_forever_invariants sample_driver (Some 4300%nat)
                sample_index_html arrivals sample_server
                started_sample_server) as H.
  split; [exact started_sample_server |].
  split; [exact (proj1 H) | exact (proj1 (proj2 H))].
Defined.

